(** * Searcher matcher: a shallow embedding of [package search]

    The Go source lives in the second half of
    [ui/web_modules/sourcegraph/blob/BlobLine.tsx] ([package search]):
    [compile], [readerGrep.Find], [hydrateLineNumbers], [FindZip],
    [concurrentFind], [lowerRegexpASCII], [longestLiteral] and [readAll].

    Conventions of the embedding:
    - Go [int] and [rune] values are [Z]; every index that occurs is bounded
      by a buffer length, so 64-bit wrap-around is never reached.
    - [[]byte] and [string] payloads are [list byte]; file paths are [string].
    - A run-time panic (slice bounds, nil dereference, index out of range) is
      [None] in the [option] monad; a Go [error] value is [option error]
      with [None] for [nil]. *)

From Stdlib.Strings Require Import String Ascii Byte.
From Stdlib Require Import ZArith List Bool Lia.
Import ListNotations.
Local Open Scope Z_scope.

Declare Scope panic_scope.
Notation "x <- m ;; k" :=
  (match m with Some x => k | None => None end)
  (at level 61, m at next level, right associativity) : panic_scope.
Notation "' p <- m ;; k" :=
  (match m with Some p => k | None => None end)
  (at level 61, p pattern, m at next level, right associativity) : panic_scope.
Local Open Scope panic_scope.

(** ** Bytes, runes and slices *)

Definition b2z (b : byte) : Z := Z.of_N (Byte.to_N b).

Definition z2b (z : Z) : byte :=
  match Byte.of_N (Z.to_N (z mod 256)) with
  | Some b => b
  | None => x00
  end.

Definition nl : byte := x0a.

Definition bytes_of (s : string) : list byte := list_byte_of_string s.

Definition len {A : Type} (s : list A) : Z := Z.of_nat (length s).

(** [s[lo:hi]].  Go panics unless [0 <= lo <= hi <= cap(s)]; the buffers
    sliced here are taken with [cap = len]. *)
Definition slice {A : Type} (s : list A) (lo hi : Z) : option (list A) :=
  if (0 <=? lo) && (lo <=? hi) && (hi <=? len s)
  then Some (firstn (Z.to_nat (hi - lo)) (skipn (Z.to_nat lo) s))
  else None.

(** *** [unicode/utf8] *)
Module utf8.

Definition MaxRune : Z := 1114111.
Definition RuneError : Z := 65533.

(** The [first] table of the decoder: for a leading byte, the sequence
    size and the accepted range of the second byte. *)
Definition first (c : Z) : option (nat * Z * Z) :=
  if (194 <=? c) && (c <=? 223) then Some (2%nat, 128, 191)
  else if c =? 224 then Some (3%nat, 160, 191)
  else if (225 <=? c) && (c <=? 236) then Some (3%nat, 128, 191)
  else if c =? 237 then Some (3%nat, 128, 159)
  else if (238 <=? c) && (c <=? 239) then Some (3%nat, 128, 191)
  else if c =? 240 then Some (4%nat, 144, 191)
  else if (241 <=? c) && (c <=? 243) then Some (4%nat, 128, 191)
  else if c =? 244 then Some (4%nat, 128, 143)
  else None.

Definition cont (b : byte) : bool := (128 <=? b2z b) && (b2z b <=? 191).

(** Number of bytes of the first rune of [p]; an invalid or short
    sequence has width 1. *)
Definition runeWidth (p : list byte) : nat :=
  match p with
  | [] => 0%nat
  | c0 :: rest =>
      if b2z c0 <? 128 then 1%nat
      else match first (b2z c0) with
           | None => 1%nat
           | Some (size, lo, hi) =>
               if (length p <? size)%nat then 1%nat
               else match rest with
                    | c1 :: r2 =>
                        if (b2z c1 <? lo) || (hi <? b2z c1) then 1%nat
                        else if (size =? 2)%nat then 2%nat
                        else match r2 with
                             | c2 :: r3 =>
                                 if negb (cont c2) then 1%nat
                                 else if (size =? 3)%nat then 3%nat
                                 else match r3 with
                                      | c3 :: _ =>
                                          if negb (cont c3) then 1%nat
                                          else 4%nat
                                      | [] => 1%nat
                                      end
                             | [] => 1%nat
                             end
                    | [] => 1%nat
                    end
           end
  end.

Fixpoint runeCountAux (skip : nat) (p : list byte) : Z :=
  match p with
  | [] => 0
  | _ :: p' =>
      match skip with
      | S k => runeCountAux k p'
      | O => 1 + runeCountAux (runeWidth p - 1) p'
      end
  end.

Definition RuneCount (p : list byte) : Z := runeCountAux 0 p.

(** [EncodeRune]: negative values, surrogates and values above
    [MaxRune] are written as [RuneError]. *)
Definition encode3 (r : Z) : list byte :=
  [z2b (224 + Z.shiftr r 12);
   z2b (128 + Z.land (Z.shiftr r 6) 63);
   z2b (128 + Z.land r 63)].

Definition EncodeRune (r : Z) : list byte :=
  if (0 <=? r) && (r <? 128) then [z2b r]
  else if (0 <=? r) && (r <? 2048) then
    [z2b (192 + Z.shiftr r 6); z2b (128 + Z.land r 63)]
  else if (r <? 0) || (MaxRune <? r) || ((55296 <=? r) && (r <=? 57343))
  then encode3 RuneError
  else if r <? 65536 then encode3 r
  else [z2b (240 + Z.shiftr r 18);
        z2b (128 + Z.land (Z.shiftr r 12) 63);
        z2b (128 + Z.land (Z.shiftr r 6) 63);
        z2b (128 + Z.land r 63)].

(** The conversion [string(runes)]. *)
Definition string_of_runes (rs : list Z) : list byte :=
  flat_map EncodeRune rs.

End utf8.

(** *** [bytes] *)
Module bytes.

Fixpoint HasPrefix (s prefix : list byte) {struct prefix} : bool :=
  match prefix with
  | [] => true
  | p :: prefix' =>
      match s with
      | [] => false
      | c :: s' => Byte.eqb c p && HasPrefix s' prefix'
      end
  end.

Fixpoint indexFrom (s sep : list byte) (i : Z) : Z :=
  match s with
  | [] => match sep with [] => i | _ :: _ => -1 end
  | _ :: s' => if HasPrefix s sep then i else indexFrom s' sep (i + 1)
  end.

(** Index of the first instance of [sep] in [s], or -1. *)
Definition Index (s sep : list byte) : Z := indexFrom s sep 0.

Fixpoint lastIndexFrom (s sep : list byte) (i acc : Z) : Z :=
  match s with
  | [] => match sep with [] => i | _ :: _ => acc end
  | _ :: s' =>
      lastIndexFrom s' sep (i + 1) (if HasPrefix s sep then i else acc)
  end.

(** Index of the last instance of [sep] in [s], or -1. *)
Definition LastIndex (s sep : list byte) : Z := lastIndexFrom s sep 0 (-1).

Definition Contains (b subslice : list byte) : bool :=
  negb (Index b subslice =? -1).

Fixpoint countAux (skip : nat) (s sep : list byte) : Z :=
  match s with
  | [] => 0
  | _ :: s' =>
      match skip with
      | S k => countAux k s' sep
      | O => if HasPrefix s sep
             then 1 + countAux (length sep - 1) s' sep
             else countAux 0 s' sep
      end
  end.

(** Number of non-overlapping instances of [sep] in [s]. *)
Definition Count (s sep : list byte) : Z :=
  match sep with
  | [] => utf8.RuneCount s + 1
  | _ :: _ => countAux 0 s sep
  end.

Fixpoint explode (k : nat) (s : list byte) : list (list byte) :=
  match s with
  | [] => []
  | _ :: _ =>
      match k with
      | O => [s]
      | S k' =>
          let w := utf8.runeWidth s in
          firstn w s :: explode k' (skipn w s)
      end
  end.

Fixpoint genSplit (k : nat) (s sep : list byte) : list (list byte) :=
  match k with
  | O => [s]
  | S k' =>
      let m := Index s sep in
      if m <? 0 then [s]
      else firstn (Z.to_nat m) s
             :: genSplit k' (skipn (Z.to_nat (m + len sep)) s) sep
  end.

(** [SplitN(s, sep, n)]: at most [n] subslices, the last one the unsplit
    remainder; [n < 0] means all of them, [n = 0] none. *)
Definition SplitN (s sep : list byte) (n : Z) : list (list byte) :=
  if n =? 0 then []
  else match sep with
       | [] => explode (Z.to_nat ((if n <? 0 then len s else n) - 1)) s
       | _ :: _ =>
           let n' := if n <? 0 then Count s sep + 1 else n in
           genSplit (Z.to_nat (n' - 1)) s sep
       end.

End bytes.

Definition lowerByte (b : byte) : byte :=
  if (65 <=? b2z b) && (b2z b <=? 90) then z2b (b2z b + 32) else b.

(** Modelled from the spec: [bytesToLowerASCII(dst, src)] is declared in
    another file of the package; the spec describes it as the non-Unicode
    ASCII lower-case that offsets the bytes ['A'..'Z'] by 32.  The result
    is what the call leaves in [dst[:len(src)]]. *)
Definition bytesToLowerASCII (src : list byte) : list byte :=
  map lowerByte src.

(** ** Errors *)

Inductive error : Type :=
| io_EOF
| ErrReaderTooLarge            (* errors.New("reader is too large") *)
| context_Canceled
| context_DeadlineExceeded
| OtherError (msg : string).

(** ** Collaborators: [regexp], [pathmatch], [store], [protocol] *)

(** A compiled [*regexp.Regexp], seen through the four methods the
    matcher calls.  Locations are [(start, end)] byte indices. *)
Module regexp.
Record Regexp : Type := {
  FindIndex : list byte -> option (Z * Z);
  FindAllIndex : list byte -> Z -> list (Z * Z);
  MatchString : string -> bool;
  LiteralPrefix : list byte
}.
End regexp.

Module pathmatch.
(** Modelled from the spec: [pathmatch.PathMatcher] is declared in another
    package; the spec gives it the operation [MatchPath(name) -> bool]
    (its string form and its clone play no part here). *)
Record PathMatcher : Type := { MatchPath : string -> bool }.
End pathmatch.

Module store.
(** Modelled from the spec: [store.SrcFile] is declared in another
    package; the spec gives a file of the archive a name and a byte slice
    accessor. *)
Record SrcFile : Type := { Name : string; Data : list byte }.
(** Modelled from the spec: [store.ZipFile] is declared in another
    package; the spec gives an archive a list of files and a maximum file
    length used to size the case-fold scratch buffer. *)
Record ZipFile : Type := { Files : list SrcFile; MaxLen : Z }.
(** Modelled from the spec: [ZipFile.DataFor] is the byte slice accessor
    of a file. *)
Definition DataFor (zf : ZipFile) (f : SrcFile) : list byte := Data f.
End store.

Module protocol.
(** Modelled from the spec: [protocol.LineMatch] is declared in another
    package; the fields are those [Find] sets. *)
Record LineMatch : Type := {
  Preview : list byte;
  LineNumber : Z;
  OffsetAndLengths : list (Z * Z);
  LimitHit : bool
}.
(** Modelled from the spec: [protocol.FileMatch] is declared in another
    package; the fields are those [FindZip] sets ([FileLimitHit] is its
    [LimitHit]). *)
Record FileMatch : Type := {
  Path : string;
  LineMatches : list LineMatch;
  FileLimitHit : bool
}.
End protocol.
Import protocol.

(** ** Constants *)

Definition maxLineSize : Z := 500.
Definition maxFileMatches : Z := 1000.
Definition maxLineMatches : Z := 100.
Definition maxOffsets : Z := 10.
Definition numWorkers : nat := 8.

(** ** [readerGrep] *)

Record readerGrep : Type := {
  re : option regexp.Regexp;
  ignoreCase : bool;
  transformBuf : option (list byte);
  matchPath : pathmatch.PathMatcher;
  literalSubstring : list byte
}.

Definition Copy (rg : readerGrep) : readerGrep :=
  {| re := re rg;
     ignoreCase := ignoreCase rg;
     transformBuf := None;
     matchPath := matchPath rg;
     literalSubstring := literalSubstring rg |}.

(** ** The file scanner *)

Definition hydrateLineNumbers (fileBuf : list byte)
    (lastLineNumber lastMatchIndex lineStart : Z) (match_ : Z * Z)
  : option (Z * Z) :=
  seg <- slice fileBuf lastMatchIndex (fst match_) ;;
  Some (lastLineNumber + bytes.Count seg [nl], lineStart).

(** The three cursors that [Find] carries from one match to the next. *)
Record cursor : Type := {
  lastLineNumber : Z;
  lastMatchIndex : Z;
  lastLineStartIndex : Z
}.

(** The inner loop over [matchLines] of a match that spans several
    physical lines. *)
Fixpoint emitLines (buf : list byte) (lineStart lineEnd start end_ offset : Z)
    (lineLimitHit : bool) (nlines i lineNum : Z) (lines : list (list byte))
  : option (list LineMatch) :=
  match lines with
  | [] => Some []
  | line :: rest =>
      let offsetStart := if i =? 0 then offset else 0 in
      le <- (if i =? 0 then
               pfx <- slice buf 0 (lineStart + len line + 1) ;;
               Some (bytes.LastIndex pfx [nl] - start)
             else if i =? nlines - 1 then
               pfx <- slice buf 0 end_ ;;
               Some (end_ - (bytes.LastIndex pfx [nl] + 1))
             else Some (len line)) ;;
      preview <- slice buf lineStart lineEnd ;;
      tl <- emitLines buf lineStart lineEnd start end_ offset lineLimitHit
              nlines (i + 1) (lineNum + 1) rest ;;
      Some ({| Preview := preview;
               LineNumber := lineNum;
               OffsetAndLengths := [(offsetStart, le)];
               LimitHit := lineLimitHit |} :: tl)
  end.

(** One iteration of [for _, match := range locs]: the new cursors and the
    line matches appended for this match. *)
Definition scanMatch (buf : list byte) (lineLimitHit : bool) (c : cursor)
    (match_ : Z * Z) : option (cursor * list LineMatch) :=
  let '(start, end_) := match_ in
  pre <- slice buf (lastLineStartIndex c) start ;;
  let lineStart0 := lastLineStartIndex c + bytes.LastIndex pre [nl] in
  let llsi := if lineStart0 >? 0 then lineStart0 + 1
              else lastLineStartIndex c in
  let lineStart1 := if (lineStart0 <? len buf - 1) && (len buf >? 0)
                    then lineStart0 + 1 else lineStart0 in
  post <- slice buf end_ (len buf) ;;
  let lineEnd0 := end_ + bytes.Index post [nl] in
  let lineStart := if lineStart1 <? 0 then start else lineStart1 in
  let lineEnd := if lineEnd0 <? 0 then end_ else lineEnd0 in
  offsetSeg <- slice buf llsi start ;;
  let offset := utf8.RuneCount offsetSeg in
  lengthSeg <- slice buf start end_ ;;
  let length := utf8.RuneCount lengthSeg in
  '(lineNumber, matchIndex) <-
     hydrateLineNumbers buf (lastLineNumber c) (lastMatchIndex c)
       lineStart match_ ;;
  matchBuf <- slice buf lineStart lineEnd ;;
  let matchLines := bytes.SplitN matchBuf [nl] (maxLineMatches + 1) in
  if len matchLines >? 1 then
    out <- emitLines buf lineStart lineEnd start end_ offset lineLimitHit
             (len matchLines) 0 lineNumber matchLines ;;
    Some ({| lastLineNumber := lineNumber;
             lastMatchIndex := matchIndex;
             lastLineStartIndex := lineStart |}, out)
  else
    Some ({| lastLineNumber := lineNumber;
             lastMatchIndex := matchIndex;
             lastLineStartIndex := llsi |},
          [{| Preview := matchBuf;
              LineNumber := lineNumber;
              OffsetAndLengths := [(offset, length)];
              LimitHit := lineLimitHit |}]).

Fixpoint scanLocs (buf : list byte) (lineLimitHit : bool) (c : cursor)
    (matches : list LineMatch) (locs : list (Z * Z))
  : option (list LineMatch) :=
  match locs with
  | [] => Some matches
  | m :: rest =>
      '(c', out) <- scanMatch buf lineLimitHit c m ;;
      scanLocs buf lineLimitHit c' (matches ++ out) rest
  end.

Definition cursor0 : cursor :=
  {| lastLineNumber := 0; lastMatchIndex := 0; lastLineStartIndex := 0 |}.

(** The buffer the regexp runs on, and the scratch buffer afterwards. *)
Definition matchBuffer (rg : readerGrep) (zf : store.ZipFile)
    (fileBuf : list byte) : option (option (list byte) * list byte) :=
  tb <- (if ignoreCase rg
         then match transformBuf rg with
              | None => if store.MaxLen zf <? 0 then None
                        else Some (Some (repeat x00
                                           (Z.to_nat (store.MaxLen zf))))
              | Some t => Some (Some t)
              end
         else Some (transformBuf rg)) ;;
  if ignoreCase rg then
    match tb with
    | Some t =>
        _ <- slice t 0 (len fileBuf) ;;
        let low := bytesToLowerASCII fileBuf in
        Some (Some (low ++ skipn (length fileBuf) t), low)
    | None => None
    end
  else Some (tb, fileBuf).

Definition withBuf (rg : readerGrep) (tb : option (list byte)) : readerGrep :=
  {| re := re rg;
     ignoreCase := ignoreCase rg;
     transformBuf := tb;
     matchPath := matchPath rg;
     literalSubstring := literalSubstring rg |}.

(** [Find] returns the matcher with its scratch buffer after the call and
    the triple [(matches, limitHit, err)]. *)
Definition Find (rg : readerGrep) (zf : store.ZipFile) (f : store.SrcFile)
  : option (readerGrep * (list LineMatch * bool * option error)) :=
  let fileBuf := store.DataFor zf f in
  '(tb, fileMatchBuf) <- matchBuffer rg zf fileBuf ;;
  let rg' := withBuf rg tb in
  if negb (bytes.Contains fileMatchBuf (literalSubstring rg))
  then Some (rg', ([], false, None))
  else
    r <- re rg ;;
    match regexp.FindIndex r fileMatchBuf with
    | None => Some (rg', ([], false, None))
    | Some _ =>
        let locs := regexp.FindAllIndex r fileMatchBuf maxFileMatches in
        matches <- (if len locs >? 0
                    then scanLocs fileMatchBuf (len locs =? maxOffsets)
                           cursor0 [] locs
                    else Some []) ;;
        Some (rg', (matches, len matches =? maxLineMatches, None))
    end.

Definition FindZip (rg : readerGrep) (zf : store.ZipFile) (f : store.SrcFile)
  : option (readerGrep * (FileMatch * option error)) :=
  '(rg', (lm, limitHit, err)) <- Find rg zf f ;;
  Some (rg', ({| Path := store.Name f;
                 LineMatches := lm;
                 FileLimitHit := limitHit |}, err)).

(** A concrete engine for evaluation: the regexp of a quoted literal finds
    the successive non-overlapping occurrences of its bytes. *)
Fixpoint literalLocs (fuel : nat) (b lit : list byte) (off n : Z)
  : list (Z * Z) :=
  match fuel with
  | O => []
  | S fuel' =>
      if n =? 0 then []
      else
        let i := bytes.Index b lit in
        if i <? 0 then []
        else (off + i, off + i + len lit)
               :: literalLocs fuel' (skipn (Z.to_nat (i + len lit)) b) lit
                    (off + i + len lit) (n - 1)
  end.

Definition literalRegexp (lit : list byte) : regexp.Regexp :=
  {| regexp.FindIndex := fun b =>
       let i := bytes.Index b lit in
       if i <? 0 then None else Some (i, i + len lit);
     regexp.FindAllIndex := fun b n => literalLocs (S (length b)) b lit 0 n;
     regexp.MatchString := fun s =>
       bytes.Contains (bytes_of s) lit;
     regexp.LiteralPrefix := lit |}.

Definition anyPath : pathmatch.PathMatcher :=
  {| pathmatch.MatchPath := fun _ => true |}.

Definition grepLiteral (lit : list byte) (ic : bool) : readerGrep :=
  {| re := Some (literalRegexp lit);
     ignoreCase := ic;
     transformBuf := None;
     matchPath := anyPath;
     literalSubstring := [] |}.

Definition oneFile (name : string) (data : list byte) : store.ZipFile :=
  {| store.Files := [ {| store.Name := name; store.Data := data |} ];
     store.MaxLen := len data |}.

Definition FindOut (rg : readerGrep) (zf : store.ZipFile) (f : store.SrcFile) :=
  option_map snd (Find rg zf f).

(** ** [regexp/syntax] trees *)
Module syntax.

Inductive Op : Type :=
| OpNoMatch | OpEmptyMatch | OpLiteral | OpCharClass | OpAnyCharNotNL
| OpAnyChar | OpBeginLine | OpEndLine | OpBeginText | OpEndText
| OpWordBoundary | OpNoWordBoundary | OpCapture | OpStar | OpPlus
| OpQuest | OpRepeat | OpConcat | OpAlternate.

Definition FoldCase : Z := 1.

(** The fields of [syntax.Regexp] that the matcher reads or writes.
    Children are the non-nil pointers the parser builds. *)
#[warnings="-register-all"]
Inductive Regexp : Type :=
| Node (op : Op) (flags : Z) (sub : list Regexp) (rune : list Z)
       (rune0 : Z * Z) (min max : Z).

Definition Op_ (re : Regexp) : Op := let 'Node o _ _ _ _ _ _ := re in o.
Definition Flags (re : Regexp) : Z := let 'Node _ f _ _ _ _ _ := re in f.
Definition Sub (re : Regexp) : list Regexp :=
  let 'Node _ _ s _ _ _ _ := re in s.
Definition Rune (re : Regexp) : list Z := let 'Node _ _ _ r _ _ _ := re in r.
Definition Rune0 (re : Regexp) : Z * Z :=
  let 'Node _ _ _ _ r0 _ _ := re in r0.
Definition Min (re : Regexp) : Z := let 'Node _ _ _ _ _ m _ := re in m.
Definition Max (re : Regexp) : Z := let 'Node _ _ _ _ _ _ m := re in m.

Definition leaf (o : Op) (flags : Z) (rune : list Z) : Regexp :=
  Node o flags [] rune (nth 0 rune 0, nth 1 rune 0) 0 0.
Definition unary (o : Op) (c : Regexp) : Regexp :=
  Node o 0 [c] [] (0, 0) 0 0.
Definition nary (o : Op) (cs : list Regexp) : Regexp :=
  Node o 0 cs [] (0, 0) 0 0.
Definition repeat_ (c : Regexp) (lo hi : Z) : Regexp :=
  Node OpRepeat 0 [c] [] (0, 0) lo hi.

End syntax.
Import syntax.

(** ** The literal extractor *)

Definition longer (l longest : list byte) : list byte :=
  if len l >? len longest then l else longest.

(** The loop [for _, sub := range re.Sub] of the concatenation case, over
    the extractor [f] of a child. *)
Definition overSubs (f : Regexp -> option (list byte))
  : list Regexp -> list byte -> option (list byte) :=
  fix over (subs : list Regexp) (longest : list byte) {struct subs} :=
    match subs with
    | [] => Some longest
    | s :: rest =>
        l <- f s ;;
        over rest (longer l longest)
    end.

Fixpoint longestLiteral (re : Regexp) : option (list byte) :=
  let 'Node op _ sub rune _ min _ := re in
  match op with
  | OpLiteral => Some (utf8.string_of_runes rune)
  | OpCapture | OpPlus =>
      match sub with
      | c :: _ => longestLiteral c
      | [] => None
      end
  | OpRepeat =>
      if min >=? 1 then
        match sub with
        | c :: _ => longestLiteral c
        | [] => None
        end
      else Some []
  | OpConcat => overSubs longestLiteral sub []
  | _ => Some []
  end.

(** ** The case folder *)

(** [unicode.ToLower]: the ASCII branch is written out; the case tables
    used above [MaxASCII] are the parameter [table]. *)
Definition unicode_ToLower (table : Z -> Z) (r : Z) : Z :=
  if r <=? 127 then
    (if (65 <=? r) && (r <=? 90) then r + (97 - 65) else r)
  else table r.

Definition isExclusion (rune : list Z) : bool :=
  (len rune >=? 4) && (nth 0 rune 0 =? 0)
  && (last rune 0 =? utf8.MaxRune).

(** First loop of the exclusion branch: the gaps [(a, b)] between
    successive ranges, clamped to ['A' - 1, 'Z' + 1] and shifted to lower
    case.  [excluded] grows by two runes at a time, kept here as pairs. *)
Fixpoint excludedGaps (r : list Z) : list (Z * Z) :=
  match r with
  | a :: b :: rest =>
      (if (a >? 90) || (b <? 65) then []
       else [((if a <? 65 then 65 - 1 else a) + 97 - 65,
              (if b >? 90 then 90 + 1 else b) + 98 - 66)])
      ++ excludedGaps rest
  | _ => []
  end.

Fixpoint dropBefore (a : Z) (excluded : list (Z * Z)) : list (Z * Z) :=
  match excluded with
  | (_, x1) :: rest =>
      if a >=? x1 then dropBefore a rest else excluded
  | [] => []
  end.

(** Second loop of the exclusion branch: the copy of the class. *)
Fixpoint copyRanges (r : list Z) (excluded : list (Z * Z))
  : option (list Z) :=
  match r with
  | [] => Some []
  | [_] => None
  | a :: b :: rest =>
      let excluded' := dropBefore a excluded in
      tl <- copyRanges rest excluded' ;;
      match excluded' with
      | [] => Some (a :: b :: tl)
      | (x0, x1) :: _ =>
          if b <=? x0 then Some (a :: b :: tl)
          else Some ((if a <=? x0 then [a; x0] else [])
                       ++ (if b >=? x1 then [x1; b] else []) ++ tl)
      end
  end.

Fixpoint coversLower (r : list Z) : option bool :=
  match r with
  | [] => Some false
  | [_] => None
  | a :: b :: rest =>
      if (a <=? 97) && (b >=? 122) then Some true else coversLower rest
  end.

(** Second loop of the inclusive branch: the ranges rewritten in place
    and the ranges appended behind them. *)
Fixpoint lowerRanges (table : Z -> Z) (r : list Z)
  : option (list Z * list Z) :=
  match r with
  | [] => Some ([], [])
  | [_] => None
  | a :: b :: rest =>
      '(upd, app) <- lowerRanges table rest ;;
      if (a >? 90) || (b <? 65) then Some (a :: b :: upd, app)
      else
        let simple := negb (a <? 65) && negb (b >? 90) in
        let a1 := if a <? 65 then 65 else a in
        let b1 := if b >? 90 then 90 else b in
        let a2 := unicode_ToLower table a1 in
        let b2 := unicode_ToLower table b1 in
        if simple then Some (a2 :: b2 :: upd, app)
        else Some (a :: b :: upd, a2 :: b2 :: app)
  end.

Definition smallStorage (rune : list Z) (rune0 : Z * Z) : Z * Z :=
  match rune with
  | [] => rune0
  | [a] => (a, snd rune0)
  | a :: b :: _ => (a, b)
  end.

(** The loop [for _, c := range re.Sub] over the children. *)
Definition eachSub (f : Regexp -> option Regexp)
  : list Regexp -> option (list Regexp) :=
  fix each (cs : list Regexp) {struct cs} :=
    match cs with
    | [] => Some []
    | c :: rest =>
        c' <- f c ;;
        rest' <- each rest ;;
        Some (c' :: rest')
    end.

(** [lowerRegexpASCII] rewrites the tree in place; the embedding returns
    the rewritten tree. *)
Fixpoint lowerRegexpASCII (table : Z -> Z) (re : Regexp) : option Regexp :=
  let 'Node op flags sub rune rune0 min max := re in
  sub' <- eachSub (lowerRegexpASCII table) sub ;;
  match op with
  | OpLiteral =>
      let rune' := map (unicode_ToLower table) rune in
      Some (Node op flags sub' rune' (smallStorage rune' rune0) min max)
  | OpCharClass =>
      if isExclusion rune then
        let excluded := excludedGaps (tl rune) in
        copy <- copyRanges rune excluded ;;
        Some (Node op flags sub' copy (smallStorage copy rune0) min max)
      else
        covers <- coversLower rune ;;
        if covers then Some (Node op flags sub' rune rune0 min max)
        else
          '(upd, app) <- lowerRanges table rune ;;
          let rune' := upd ++ app in
          Some (Node op flags sub' rune' (smallStorage rune' rune0) min max)
  | _ => Some (Node op flags sub' rune rune0 min max)
  end.

(** ** Building the matcher *)

(** The functions of [regexp], [regexp/syntax], [strings], [unicode] and
    [pathmatch] that the package calls: they belong to the Go library and
    to another package, and are taken as given. *)
Record GoLib : Type := {
  strings_ToLower : string -> string;
  unicode_table : Z -> Z;
  regexp_QuoteMeta : string -> string;
  syntax_Parse : string -> Regexp + error;
  syntax_String : Regexp -> string;
  syntax_Simplify : Regexp -> Regexp;
  regexp_Compile : string -> regexp.Regexp + error;
  pathmatch_CompilePathPatterns :
    list string -> string -> bool -> bool -> pathmatch.PathMatcher + error
}.

Module PatternInfo.
(** Modelled from the spec: [protocol.PatternInfo] is declared in another
    package; the fields are those [compile] reads, with [IncludePatterns]
    for the result of [AllIncludePatterns()]. *)
Record t : Type := {
  Pattern : string;
  IsRegExp : bool;
  IsWordMatch : bool;
  IsCaseSensitive : bool;
  IncludePatterns : list string;
  ExcludePattern : string;
  PathPatternsAreRegExps : bool;
  PathPatternsAreCaseSensitive : bool
}.
End PatternInfo.
Import PatternInfo.

Definition isEmpty (s : string) : bool :=
  match s with EmptyString => true | String _ _ => false end.

Section Matcher.

Variable L : GoLib.

(** The expression handed to [regexp.Compile], or the parse error. *)
Definition sourceExpr (p : PatternInfo.t) : option (string + error) :=
  let expr := Pattern p in
  let expr := if negb (IsRegExp p) then regexp_QuoteMeta L expr else expr in
  let expr := if IsWordMatch p
              then ("\b" ++ expr ++ "\b")%string else expr in
  let expr := if IsRegExp p then ("(?m:" ++ expr ++ ")")%string else expr in
  if negb (IsCaseSensitive p) then
    match syntax_Parse L expr with
    | inr err => Some (inr err)
    | inl ast =>
        ast' <- lowerRegexpASCII (unicode_table L) ast ;;
        Some (inl (syntax_String L ast'))
    end
  else Some (inl expr).

(** [compile] returns the pair [(rg, err)] of the Go function. *)
Definition compile (p : PatternInfo.t)
  : option (option readerGrep * option error) :=
  '(r, literal, err) <-
     (if negb (isEmpty (Pattern p)) then
        e <- sourceExpr p ;;
        match e with
        | inr err => Some (None, [], Some err)
        | inl expr =>
            match regexp_Compile L expr with
            | inr err => Some (None, [], Some err)
            | inl r =>
                match regexp.LiteralPrefix r with
                | [] =>
                    match syntax_Parse L expr with
                    | inr err => Some (None, [], Some err)
                    | inl ast =>
                        lit <- longestLiteral (syntax_Simplify L ast) ;;
                        Some (Some r, lit, None)
                    end
                | _ :: _ => Some (Some r, [], None)
                end
            end
        end
      else Some (None, [], None)) ;;
  match err with
  | Some e => Some (None, Some e)
  | None =>
      match pathmatch_CompilePathPatterns L (IncludePatterns p)
              (ExcludePattern p) (PathPatternsAreRegExps p)
              (PathPatternsAreCaseSensitive p) with
      | inr e => Some (None, Some e)
      | inl mp =>
          Some (Some {| re := r;
                        ignoreCase := negb (IsCaseSensitive p);
                        transformBuf := None;
                        matchPath := mp;
                        literalSubstring := literal |}, None)
      end
  end.

Definition matchString (rg : readerGrep) (s : string) : bool :=
  match re rg with
  | None => true
  | Some r =>
      let s := if ignoreCase rg then strings_ToLower L s else s in
      regexp.MatchString r s
  end.

(** ** The concurrent driver *)

Definition pathMatch (name : string) : FileMatch :=
  {| Path := name; LineMatches := []; FileLimitHit := false |}.

(** The loop of the path-only fast path: the matches so far, then the
    final list and [limitHit]. *)
Fixpoint pathOnly (rg : readerGrep) (fileMatchLimit : Z)
    (files : list store.SrcFile) (matches : list FileMatch)
  : list FileMatch * bool :=
  match files with
  | [] => (matches, false)
  | f :: rest =>
      if pathmatch.MatchPath (matchPath rg) (store.Name f)
         && matchString rg (store.Name f)
      then
        if len matches <? fileMatchLimit
        then pathOnly rg fileMatchLimit rest
               (matches ++ [pathMatch (store.Name f)])
        else (matches, true)
      else pathOnly rg fileMatchLimit rest matches
  end.

(** Where a worker goroutine stands in its loop. *)
Inductive wpc : Type :=
| AtPoll                      (* select on done *)
| AtGrab                      (* filesmu: pop the front of files *)
| AtScan (f : store.SrcFile)  (* path filter, counters, FindZip *)
| AtPublish (fm : FileMatch)  (* matchesmu: append or set limitHit *)
| Exited.

Record worker : Type := { wrg : readerGrep; at_ : wpc }.

(** The variables shared by the goroutines of one call. *)
Record driver : Type := {
  files : list store.SrcFile;
  matches : list FileMatch;
  limitHit : bool;
  ctxErr : option error;
  wgErrOnce : bool;
  wgErr : option error;
  filesSkipped : Z;
  filesSearched : Z;
  workers : list worker;
  crashed : bool
}.

Definition cancel (e : option error) : option error :=
  match e with None => Some context_Canceled | Some _ => e end.

Definition expire (e : option error) : option error :=
  match e with None => Some context_DeadlineExceeded | Some _ => e end.

Definition add32 (x : Z) : Z := (x + 1) mod 4294967296.

(** Updates of one shared variable. *)
Definition setWorkers (d : driver) (ws : list worker) : driver :=
  {| files := files d; matches := matches d; limitHit := limitHit d;
     ctxErr := ctxErr d; wgErrOnce := wgErrOnce d; wgErr := wgErr d;
     filesSkipped := filesSkipped d; filesSearched := filesSearched d;
     workers := ws; crashed := crashed d |}.

Definition setFiles (d : driver) (fs : list store.SrcFile) : driver :=
  {| files := fs; matches := matches d; limitHit := limitHit d;
     ctxErr := ctxErr d; wgErrOnce := wgErrOnce d; wgErr := wgErr d;
     filesSkipped := filesSkipped d; filesSearched := filesSearched d;
     workers := workers d; crashed := crashed d |}.

Definition setMatches (d : driver) (ms : list FileMatch) : driver :=
  {| files := files d; matches := ms; limitHit := limitHit d;
     ctxErr := ctxErr d; wgErrOnce := wgErrOnce d; wgErr := wgErr d;
     filesSkipped := filesSkipped d; filesSearched := filesSearched d;
     workers := workers d; crashed := crashed d |}.

Definition setLimitHit (d : driver) : driver :=
  {| files := files d; matches := matches d; limitHit := true;
     ctxErr := ctxErr d; wgErrOnce := wgErrOnce d; wgErr := wgErr d;
     filesSkipped := filesSkipped d; filesSearched := filesSearched d;
     workers := workers d; crashed := crashed d |}.

Definition withCtx (d : driver) (e : option error) : driver :=
  {| files := files d; matches := matches d; limitHit := limitHit d;
     ctxErr := e; wgErrOnce := wgErrOnce d; wgErr := wgErr d;
     filesSkipped := filesSkipped d; filesSearched := filesSearched d;
     workers := workers d; crashed := crashed d |}.

(** [wgErrOnce.Do(func() { wgErr = err; cancel() })] *)
Definition latch (d : driver) (err : error) : driver :=
  if wgErrOnce d then d
  else
    {| files := files d; matches := matches d; limitHit := limitHit d;
       ctxErr := cancel (ctxErr d); wgErrOnce := true; wgErr := Some err;
       filesSkipped := filesSkipped d; filesSearched := filesSearched d;
       workers := workers d; crashed := crashed d |}.

Definition countSkipped (d : driver) : driver :=
  {| files := files d; matches := matches d; limitHit := limitHit d;
     ctxErr := ctxErr d; wgErrOnce := wgErrOnce d; wgErr := wgErr d;
     filesSkipped := add32 (filesSkipped d);
     filesSearched := filesSearched d;
     workers := workers d; crashed := crashed d |}.

Definition countSearched (d : driver) : driver :=
  {| files := files d; matches := matches d; limitHit := limitHit d;
     ctxErr := ctxErr d; wgErrOnce := wgErrOnce d; wgErr := wgErr d;
     filesSkipped := filesSkipped d;
     filesSearched := add32 (filesSearched d);
     workers := workers d; crashed := crashed d |}.

(** A panic in a goroutine ends the process. *)
Definition crash (d : driver) : driver :=
  {| files := files d; matches := matches d; limitHit := limitHit d;
     ctxErr := ctxErr d; wgErrOnce := wgErrOnce d; wgErr := wgErr d;
     filesSkipped := filesSkipped d; filesSearched := filesSearched d;
     workers := workers d; crashed := true |}.

(** Worker [i] goes on as [w]. *)
Definition moveTo (i : nat) (w : worker) (d : driver) : driver :=
  setWorkers d (firstn i (workers d) ++ w :: skipn (S i) (workers d)).

(** One atomic action of worker [i], as seen by the shared state. *)
Definition stepWorker (zf : store.ZipFile) (fileMatchLimit : Z)
    (patternMatchesPaths : bool) (i : nat) (d : driver) : driver :=
  if crashed d then d else
  match nth_error (workers d) i with
  | None => d
  | Some w =>
      let rg := wrg w in
      let goto (pc : wpc) (d' : driver) : driver :=
        moveTo i {| wrg := rg; at_ := pc |} d' in
      match at_ w with
      | Exited => d
      | AtPoll =>
          match ctxErr d with
          | Some _ => goto Exited d
          | None => goto AtGrab d
          end
      | AtGrab =>
          match files d with
          | [] => goto Exited d
          | f :: rest => goto (AtScan f) (setFiles d rest)
          end
      | AtScan f =>
          if negb (pathmatch.MatchPath (matchPath rg) (store.Name f))
          then goto AtPoll (countSkipped d)
          else
            match FindZip rg zf f with
            | None => crash (countSearched d)
            | Some (rg', (fm, Some err)) =>
                moveTo i {| wrg := rg'; at_ := Exited |}
                  (latch (countSearched d) err)
            | Some (rg', (fm, None)) =>
                let match0 := len (LineMatches fm) >? 0 in
                let tryPath := negb match0 && patternMatchesPaths in
                let match_ := if tryPath
                              then matchString rg' (store.Name f)
                              else match0 in
                let fm' := if tryPath && match_
                           then {| Path := store.Name f;
                                   LineMatches := LineMatches fm;
                                   FileLimitHit := FileLimitHit fm |}
                           else fm in
                moveTo i {| wrg := rg';
                            at_ := if match_ then AtPublish fm'
                                   else AtPoll |}
                  (countSearched d)
            end
      | AtPublish fm =>
          if len (matches d) <? fileMatchLimit
          then goto AtPoll (setMatches d (matches d ++ [fm]))
          else goto AtPoll (withCtx (setLimitHit d) (cancel (ctxErr d)))
      end
  end.

(** What the scheduler and the context can do next. *)
Inductive event : Type :=
| Run (i : nat)      (* worker [i] performs its next action *)
| DeadlineFires      (* the timeout of the sub-context elapses *)
| ParentCancels.     (* the caller's context is cancelled *)

Definition step (zf : store.ZipFile) (fileMatchLimit : Z)
    (patternMatchesPaths : bool) (d : driver) (e : event) : driver :=
  match e with
  | Run i => stepWorker zf fileMatchLimit patternMatchesPaths i d
  | DeadlineFires => withCtx d (expire (ctxErr d))
  | ParentCancels => withCtx d (cancel (ctxErr d))
  end.

Definition start (rg : readerGrep) (zf : store.ZipFile) : driver :=
  {| files := store.Files zf; matches := []; limitHit := false;
     ctxErr := None; wgErrOnce := false; wgErr := None;
     filesSkipped := 0; filesSearched := 0;
     workers := repeat {| wrg := Copy rg; at_ := AtPoll |} numWorkers;
     crashed := false |}.

Definition exited (w : worker) : bool :=
  match at_ w with Exited => true | _ => false end.

Definition effectiveLimit (fileMatchLimit : Z) : Z :=
  if (fileMatchLimit >? maxFileMatches) || (fileMatchLimit <=? 0)
  then maxFileMatches else fileMatchLimit.

Definition isNil {A : Type} (o : option A) : bool :=
  match o with None => true | Some _ => false end.

(** [concurrentFind] under the interleaving [sched].  The result is
    [None] when a worker panicked or when the workers have not all left
    their loop by the end of [sched] ([wg.Wait] has not returned). *)
Definition concurrentFind (sched : list event) (rg : readerGrep)
    (zf : store.ZipFile) (fileMatchLimit : Z)
    (patternMatchesContent patternMatchesPaths : bool)
  : option (list FileMatch * bool * option error) :=
  let patternMatchesContent :=
    if negb patternMatchesContent && negb patternMatchesPaths
    then true else patternMatchesContent in
  let fileMatchLimit := effectiveLimit fileMatchLimit in
  if patternMatchesPaths && (negb patternMatchesContent || isNil (re rg))
  then
    let '(matches, limitHit) :=
      pathOnly rg fileMatchLimit (store.Files zf) [] in
    Some (matches, limitHit, None)
  else
    let d := fold_left (step zf fileMatchLimit patternMatchesPaths)
               sched (start rg zf) in
    if crashed d then None
    else if forallb exited (workers d) then
      let err :=
        match wgErr d with
        | Some e => Some e
        | None =>
            match ctxErr d with
            | Some context_DeadlineExceeded =>
                Some context_DeadlineExceeded
            | _ => None
            end
        end in
      Some (matches d, limitHit d, err)
    else None.

End Matcher.

(** ** [readAll] *)

(** An [io.Reader]: [Read r k] is a call with a buffer of [k] bytes; it
    returns the bytes stored, the error, and the reader afterwards. *)
Class Reader (R : Type) : Type :=
  Read : R -> Z -> list byte * option error * R.

Definition isEOF (e : option error) : bool :=
  match e with Some io_EOF => true | _ => false end.

(** The loop of [readAll]: [b] is what is left of the buffer and [n] the
    count so far.  [None] stands for a run that does not return (a panic
    on [b[m:]], or more turns of the loop than [fuel]). *)
Fixpoint readAllLoop {R : Type} `{Reader R} (fuel : nat) (r : R)
    (b : list byte) (n : Z) : option (Z * option error * R) :=
  match fuel with
  | O => None
  | S fuel' =>
      if len b =? 0 then
        let '(_, err, r') := Read r 1 in
        if isEOF err then Some (n, None, r')
        else Some (n, Some ErrReaderTooLarge, r')
      else
        let '(data, err, r') := Read r (len b) in
        let m := len data in
        let n := n + m in
        b' <- slice b m (len b) ;;
        match err with
        | Some e => if isEOF err then Some (n, None, r')
                    else Some (n, Some e, r')
        | None => readAllLoop fuel' r' b' n
        end
  end.

Definition readAll {R : Type} `{Reader R} (fuel : nat) (r : R)
    (b : list byte) : option (Z * option error * R) :=
  readAllLoop fuel r b 0.

(** A reader over a byte string that reports [io.EOF] on the call after
    the last byte, as [bytes.Reader] does. *)
Record lazyReader : Type := Lazy { lazyRest : list byte }.

#[global] Instance lazyRead : Reader lazyReader := fun r k =>
  match lazyRest r with
  | [] => ([], Some io_EOF, r)
  | _ :: _ =>
      (firstn (Z.to_nat k) (lazyRest r), None,
       Lazy (skipn (Z.to_nat k) (lazyRest r)))
  end.

(** A reader over a byte string that returns [io.EOF] together with the
    last bytes, which the contract of [io.Reader] allows. *)
Record eagerReader : Type := Eager { eagerRest : list byte }.

#[global] Instance eagerRead : Reader eagerReader := fun r k =>
  let data := firstn (Z.to_nat k) (eagerRest r) in
  let rest := skipn (Z.to_nat k) (eagerRest r) in
  (data, match rest with [] => Some io_EOF | _ :: _ => None end, Eager rest).

(** ** Sample inputs *)

Definition file (name : string) (data : list byte) : store.SrcFile :=
  {| store.Name := name; store.Data := data |}.

(** ["foo bar\nbaz foo\n"] *)
Definition twoLines : list byte :=
  bytes_of "foo bar" ++ [nl] ++ bytes_of "baz foo" ++ [nl].

(** Ten occurrences of ["a"] on one line. *)
Definition tenHits : list byte := bytes_of "a a a a a a a a a a" ++ [nl].

(** ["FOO\n"] *)
Definition upperLine : list byte := bytes_of "FOO" ++ [nl].

(** ["xa\nbz\n"], searched for ["a\nb"] *)
Definition crossing : list byte :=
  bytes_of "xa" ++ [nl] ++ bytes_of "bz" ++ [nl].
Definition crossingPattern : list byte := bytes_of "a" ++ [nl] ++ bytes_of "b".

Definition lineMatch (preview : list byte) (n : Z) (o l : Z) (hit : bool)
  : LineMatch :=
  {| Preview := preview; LineNumber := n; OffsetAndLengths := [(o, l)];
     LimitHit := hit |}.

(** The buffer [Find] matches on. *)
Definition fileMatchBuf (rg : readerGrep) (f : store.SrcFile) : list byte :=
  if ignoreCase rg then bytesToLowerASCII (store.Data f) else store.Data f.

(** The locations [Find] collects, [maxFileMatches] at most. *)
Definition collected (rg : readerGrep) (f : store.SrcFile) : list (Z * Z) :=
  match re rg with
  | Some r => regexp.FindAllIndex r (fileMatchBuf rg f) maxFileMatches
  | None => []
  end.

(** ** Predicates used in the statements *)

(** Number of newline bytes in [s], and before offset [i] of [buf]: the
    0-based index of the line that holds byte [i]. *)
Definition newlines (s : list byte) : Z := bytes.Count s [nl].

Definition linesBefore (buf : list byte) (i : Z) : Z :=
  newlines (firstn (Z.to_nat i) buf).

Fixpoint increasingStarts (locs : list (Z * Z)) : bool :=
  match locs with
  | (s, _) :: (((s', _) :: _) as rest) => (s <? s') && increasingStarts rest
  | _ => true
  end.

(** The cursor invariant: the line number carried over counts the
    newlines before the index carried over. *)
Definition cursorOk (buf : list byte) (c : cursor) (s : Z) : Prop :=
  s <= len buf -> lastLineNumber c = linesBefore buf (lastMatchIndex c).

(** The line matches appended for each location, in order. *)
Definition numbered (buf : list byte) (loc : Z * Z) (group : list LineMatch)
  : Prop :=
  group <> [] /\
  forall j m, nth_error group j = Some m ->
    LineNumber m = linesBefore buf (fst loc) + Z.of_nat j.

(** The error latch of the driver has not fired. *)
Definition latchUntouched (d : driver) : Prop :=
  wgErr d = None /\ wgErrOnce d = false.


(** A stand-in for the library, for evaluation: every expression is
    rejected by the parser and the compiler, and every path passes. *)
Definition plainLib : GoLib :=
  {| strings_ToLower := fun s => s;
     unicode_table := fun r => r;
     regexp_QuoteMeta := fun s => s;
     syntax_Parse := fun _ => inr (OtherError "parse");
     syntax_String := fun _ => EmptyString;
     syntax_Simplify := fun re => re;
     regexp_Compile := fun _ => inr (OtherError "compile");
     pathmatch_CompilePathPatterns := fun _ _ _ _ => inl anyPath |}.

Definition emptyPattern : PatternInfo.t :=
  {| Pattern := EmptyString; IsRegExp := false; IsWordMatch := false;
     IsCaseSensitive := true; IncludePatterns := [];
     ExcludePattern := EmptyString;
     PathPatternsAreRegExps := false;
     PathPatternsAreCaseSensitive := false |}.

Definition matchAll : readerGrep :=
  {| re := None; ignoreCase := false; transformBuf := None;
     matchPath := anyPath; literalSubstring := [] |}.

Definition archive (fs : list store.SrcFile) : store.ZipFile :=
  {| store.Files := fs; store.MaxLen := 64 |}.

(** Three files, each with a line that ends in a newline and holds
    ["foo"]. *)
Definition threeFiles : store.ZipFile :=
  archive [file "a" (bytes_of "foo" ++ [nl]);
           file "b" (bytes_of "a foo" ++ [nl]);
           file "c" (bytes_of "foo c" ++ [nl])].

(** Worker 0 takes every file in turn, then the others find the context
    cancelled or the queue empty. *)
Definition soloSchedule (turns : nat) : list event :=
  repeat (Run 0) turns
  ++ map Run (seq 1 (numWorkers - 1)) ++ map Run (seq 1 (numWorkers - 1)).

(** The files that pass the path filter of [rg]. *)
Definition passing (rg : readerGrep) (zf : store.ZipFile)
  : list store.SrcFile :=
  filter (fun f => pathmatch.MatchPath (matchPath rg) (store.Name f))
    (store.Files zf).

(** The bounds the driver keeps on the shared result list. *)
Definition bounded (limit : Z) (d : driver) : Prop :=
  len (matches d) <= limit /\ (limitHit d = true -> len (matches d) = limit).

(** ** What a syntax tree matches

    The meaning the Go library gives to a tree, over texts of runes:
    [Matches re pre s post] says that [re] can match the runes [s] when
    they stand between [pre] and [post].  The bytes matched are
    [utf8.string_of_runes s]. *)

Fixpoint classMem (rune : list Z) (c : Z) : bool :=
  match rune with
  | lo :: hi :: rest => ((lo <=? c) && (c <=? hi)) || classMem rest c
  | _ => false
  end.

Definition swapCase (c : Z) : Z :=
  if (65 <=? c) && (c <=? 90) then c + 32
  else if (97 <=? c) && (c <=? 122) then c - 32
  else c.

(** Simple case folding, on the ASCII letters. *)
Definition foldEq (a b : Z) : Prop := a = b \/ a = swapCase b.

Definition isWordChar (c : Z) : bool :=
  ((48 <=? c) && (c <=? 57)) || ((65 <=? c) && (c <=? 90))
  || ((97 <=? c) && (c <=? 122)) || (c =? 95).

Definition wordBefore (pre : list Z) : bool :=
  match rev pre with c :: _ => isWordChar c | [] => false end.

Definition wordAfter (post : list Z) : bool :=
  match post with c :: _ => isWordChar c | [] => false end.

Definition lineBefore (pre : list Z) : Prop :=
  match rev pre with c :: _ => c = 10 | [] => True end.

Definition lineAfter (post : list Z) : Prop :=
  match post with c :: _ => c = 10 | [] => True end.

Definition folds (flags : Z) : bool := negb (Z.land flags FoldCase =? 0).

Inductive Matches : Regexp -> list Z -> list Z -> list Z -> Prop :=
| MEmptyMatch fl sub rune r0 mn mx pre post :
    Matches (Node OpEmptyMatch fl sub rune r0 mn mx) pre [] post
| MLiteral fl sub rune r0 mn mx pre post :
    folds fl = false ->
    Matches (Node OpLiteral fl sub rune r0 mn mx) pre rune post
| MLiteralFold fl sub rune r0 mn mx pre s post :
    folds fl = true ->
    Forall2 foldEq s rune ->
    Matches (Node OpLiteral fl sub rune r0 mn mx) pre s post
| MCharClass fl sub rune r0 mn mx pre c post :
    classMem rune c = true ->
    Matches (Node OpCharClass fl sub rune r0 mn mx) pre [c] post
| MAnyCharNotNL fl sub rune r0 mn mx pre c post :
    c <> 10 ->
    Matches (Node OpAnyCharNotNL fl sub rune r0 mn mx) pre [c] post
| MAnyChar fl sub rune r0 mn mx pre c post :
    Matches (Node OpAnyChar fl sub rune r0 mn mx) pre [c] post
| MBeginLine fl sub rune r0 mn mx pre post :
    lineBefore pre ->
    Matches (Node OpBeginLine fl sub rune r0 mn mx) pre [] post
| MEndLine fl sub rune r0 mn mx pre post :
    lineAfter post ->
    Matches (Node OpEndLine fl sub rune r0 mn mx) pre [] post
| MBeginText fl sub rune r0 mn mx post :
    Matches (Node OpBeginText fl sub rune r0 mn mx) [] [] post
| MEndText fl sub rune r0 mn mx pre :
    Matches (Node OpEndText fl sub rune r0 mn mx) pre [] []
| MWordBoundary fl sub rune r0 mn mx pre post :
    wordBefore pre <> wordAfter post ->
    Matches (Node OpWordBoundary fl sub rune r0 mn mx) pre [] post
| MNoWordBoundary fl sub rune r0 mn mx pre post :
    wordBefore pre = wordAfter post ->
    Matches (Node OpNoWordBoundary fl sub rune r0 mn mx) pre [] post
| MCapture fl c rest rune r0 mn mx pre s post :
    Matches c pre s post ->
    Matches (Node OpCapture fl (c :: rest) rune r0 mn mx) pre s post
| MStar fl c rest rune r0 mn mx n pre s post :
    MatchesRep c n pre s post ->
    Matches (Node OpStar fl (c :: rest) rune r0 mn mx) pre s post
| MPlus fl c rest rune r0 mn mx n pre s post :
    (1 <= n)%nat ->
    MatchesRep c n pre s post ->
    Matches (Node OpPlus fl (c :: rest) rune r0 mn mx) pre s post
| MQuest fl c rest rune r0 mn mx n pre s post :
    (n <= 1)%nat ->
    MatchesRep c n pre s post ->
    Matches (Node OpQuest fl (c :: rest) rune r0 mn mx) pre s post
| MRepeat fl c rest rune r0 mn mx n pre s post :
    mn <= Z.of_nat n ->
    (mx = -1 \/ Z.of_nat n <= mx) ->
    MatchesRep c n pre s post ->
    Matches (Node OpRepeat fl (c :: rest) rune r0 mn mx) pre s post
| MConcat fl sub rune r0 mn mx pre s post :
    MatchesSeq sub pre s post ->
    Matches (Node OpConcat fl sub rune r0 mn mx) pre s post
| MAlternate fl sub rune r0 mn mx c pre s post :
    In c sub ->
    Matches c pre s post ->
    Matches (Node OpAlternate fl sub rune r0 mn mx) pre s post
with MatchesSeq : list Regexp -> list Z -> list Z -> list Z -> Prop :=
| SeqNil pre post : MatchesSeq [] pre [] post
| SeqCons c cs pre s1 s2 post :
    Matches c pre s1 (s2 ++ post) ->
    MatchesSeq cs (pre ++ s1) s2 post ->
    MatchesSeq (c :: cs) pre (s1 ++ s2) post
with MatchesRep : Regexp -> nat -> list Z -> list Z -> list Z -> Prop :=
| RepO c pre post : MatchesRep c 0 pre [] post
| RepS c n pre s1 s2 post :
    Matches c pre s1 (s2 ++ post) ->
    MatchesRep c n (pre ++ s1) s2 post ->
    MatchesRep c (S n) pre (s1 ++ s2) post.

Scheme Matches_ind' := Minimality for Matches Sort Prop
  with MatchesSeq_ind' := Minimality for MatchesSeq Sort Prop
  with MatchesRep_ind' := Minimality for MatchesRep Sort Prop.
Combined Scheme Matches_mutind
  from Matches_ind', MatchesSeq_ind', MatchesRep_ind'.

(** No literal of the tree carries the [FoldCase] flag. *)
Fixpoint foldFree (re : Regexp) : bool :=
  let 'Node op fl sub _ _ _ _ := re in
  (match op with OpLiteral => negb (folds fl) | _ => true end)
  && forallb foldFree sub.

Definition substring (lit text : list byte) : Prop :=
  exists u v, text = u ++ lit ++ v.

(** How [Regexp.String] decides to print a class as negated. *)
Definition printsNegated (rune : list Z) : bool :=
  (len rune >? 0) && (nth 0 rune 0 =? 0)
  && (last rune 0 =? utf8.MaxRune) && (len rune >? 2).

(** Membership of [c] in the class once the printed class is read back
    under the case-insensitive flag: the parser folds the ranges as they
    are written and, for a class written negated, negates afterwards. *)
Definition ciClassMem (rune : list Z) (c : Z) : bool :=
  if printsNegated rune
  then classMem rune c && classMem rune (swapCase c)
  else classMem rune c || classMem rune (swapCase c).

(** ** Sample patterns *)

(** The parse of [(?m:(?i)foo)]: one literal with [FoldCase], whose runes
    the parser stores as the least of each fold orbit, ["FOO"]. *)
Definition foldedFoo : Regexp := leaf OpLiteral FoldCase [70; 79; 79].

(** The compiled [(?i)foo]: occurrences of ["foo"] whatever the case. *)
Definition foldedFooRegexp : regexp.Regexp :=
  {| regexp.FindIndex := fun b =>
       regexp.FindIndex (literalRegexp (bytes_of "foo"))
         (bytesToLowerASCII b);
     regexp.FindAllIndex := fun b n =>
       regexp.FindAllIndex (literalRegexp (bytes_of "foo"))
         (bytesToLowerASCII b) n;
     regexp.MatchString := fun s =>
       regexp.MatchString (literalRegexp (bytes_of "foo")) s;
     regexp.LiteralPrefix := [] |}.

(** The library on the one expression [(?m:(?i)foo)]. *)
Definition fooLib : GoLib :=
  {| strings_ToLower := fun s => s;
     unicode_table := fun r => r;
     regexp_QuoteMeta := fun s => s;
     syntax_Parse := fun _ => inl foldedFoo;
     syntax_String := fun _ => "(?i:FOO)"%string;
     syntax_Simplify := fun re => re;
     regexp_Compile := fun _ => inl foldedFooRegexp;
     pathmatch_CompilePathPatterns := fun _ _ _ _ => inl anyPath |}.

Definition fooPattern : PatternInfo.t :=
  {| Pattern := "(?i)foo"; IsRegExp := true; IsWordMatch := false;
     IsCaseSensitive := true; IncludePatterns := [];
     ExcludePattern := EmptyString;
     PathPatternsAreRegExps := false;
     PathPatternsAreCaseSensitive := false |}.

Definition fooGrep : readerGrep :=
  {| re := Some foldedFooRegexp; ignoreCase := false; transformBuf := None;
     matchPath := anyPath; literalSubstring := bytes_of "FOO" |}.

(** The parse of [[^AZ]]: the ranges [0-@], [B-Y] and [[-MaxRune]. *)
Definition notAZ : Regexp :=
  leaf OpCharClass 0 [0; 64; 66; 89; 91; utf8.MaxRune].

Definition notAZlowered : Regexp :=
  Node OpCharClass 0 [] [0; 64; 66; 89; 91; 96; 98; utf8.MaxRune]
    (0, 64) 0 0.

(** ** Further predicates *)

(** Every capture, one-or-more repetition and general repetition of the
    tree has a child, as in the trees the parser builds. *)
Fixpoint childful (re : Regexp) : bool :=
  let 'Node op _ sub _ _ _ _ := re in
  (match op with
   | OpCapture | OpPlus | OpRepeat =>
       match sub with [] => false | _ :: _ => true end
   | _ => true
   end)
  && forallb childful sub.

(** [ab(cde)+f] *)
Definition abCdeF : Regexp :=
  nary OpConcat
    [leaf OpLiteral 0 [97; 98];
     unary OpPlus (leaf OpLiteral 0 [99; 100; 101]);
     leaf OpLiteral 0 [102]].

(** The ASCII lower-casing of [bytesToLowerASCII], on runes. *)
Definition asciiLower (r : Z) : Z :=
  if (65 <=? r) && (r <=? 90) then r + 32 else r.

Definition pairwise (R : Regexp -> Regexp -> Prop)
  : list Regexp -> list Regexp -> Prop :=
  fix all2 (l l' : list Regexp) {struct l} : Prop :=
    match l, l' with
    | [], [] => True
    | x :: l, y :: l' => R x y /\ all2 l l'
    | _, _ => False
    end.

(** Two trees differ at most in the runes of their literals and classes:
    node kinds, flags, repetition bounds and the number of children are
    the same, and a literal keeps the number of its runes. *)
Fixpoint sameShape (a b : Regexp) : Prop :=
  let 'Node op fl sub rune r0 mn mx := a in
  let 'Node op' fl' sub' rune' r0' mn' mx' := b in
  op = op' /\ fl = fl' /\ mn = mn' /\ mx = mx'
  /\ (op = OpLiteral -> length rune = length rune')
  /\ (op <> OpLiteral -> op <> OpCharClass -> rune = rune' /\ r0 = r0')
  /\ pairwise sameShape sub sub'.

(** [(Ab[B-D]+)|^X]: an alternation over a capture and a concatenation. *)
Definition mixedTree : Regexp :=
  nary OpAlternate
    [unary OpCapture
       (nary OpConcat
          [leaf OpLiteral 0 [65; 98];
           unary OpPlus (leaf OpCharClass 0 [66; 68])]);
     nary OpConcat [leaf OpBeginLine 0 []; leaf OpLiteral 0 [88]]].

(** [mixedTree] after [lowerRegexpASCII]: [(ab[b-d]+)|^x]. *)
Definition mixedLowered : Regexp :=
  nary OpAlternate
    [unary OpCapture
       (nary OpConcat
          [leaf OpLiteral 0 [97; 98];
           unary OpPlus (leaf OpCharClass 0 [98; 100])]);
     nary OpConcat [leaf OpBeginLine 0 []; leaf OpLiteral 0 [120]]].

(** What [Find] does once the buffer to match on is set up. *)
Definition scanBuffer (rg : readerGrep) (buf : list byte)
  : option (list LineMatch * bool * option error) :=
  if negb (bytes.Contains buf (literalSubstring rg))
  then Some ([], false, None)
  else
    r <- re rg ;;
    match regexp.FindIndex r buf with
    | None => Some ([], false, None)
    | Some _ =>
        let locs := regexp.FindAllIndex r buf maxFileMatches in
        matches <- (if len locs >? 0
                    then scanLocs buf (len locs =? maxOffsets) cursor0 []
                           locs
                    else Some []) ;;
        Some (matches, len matches =? maxLineMatches, None)
    end.

(** Two matchers that differ at most in their scratch buffer. *)
Definition sameMatcher (a b : readerGrep) : Prop :=
  re a = re b /\ ignoreCase a = ignoreCase b
  /\ matchPath a = matchPath b /\ literalSubstring a = literalSubstring b.

(** Room in the scratch buffer of [rg] for a file of the archive [zf]:
    [None] when no buffer is used. *)
Definition scratchRoom (rg : readerGrep) (zf : store.ZipFile) : option Z :=
  if ignoreCase rg then
    match transformBuf rg with
    | Some t => Some (len t)
    | None => Some (store.MaxLen zf)
    end
  else None.

(** The file [data] fits the scratch buffer. *)
Definition fits (rg : readerGrep) (zf : store.ZipFile) (data : list byte)
  : Prop :=
  match scratchRoom rg zf with
  | Some room => len data <= room
  | None => True
  end.

(** A file with 101 lines ["a"]. *)
Definition manyLines : list byte :=
  flat_map (fun _ => [x61; nl]) (seq 0 101).

(** The index after the last newline before offset [s] (0 when there is
    none), and the index of the first newline at or after offset [e]. *)
Definition lineStartOf (buf : list byte) (s : Z) : Z :=
  bytes.LastIndex (firstn (Z.to_nat s) buf) [nl] + 1.

Definition lineEndOf (buf : list byte) (e : Z) : Z :=
  e + bytes.Index (skipn (Z.to_nat e) buf) [nl].

Definition newlineFrom (buf : list byte) (e : Z) : bool :=
  0 <=? bytes.Index (skipn (Z.to_nat e) buf) [nl].

(** The bytes from the start of the line of [s] to the end of the line of
    [e], without the newline that ends it. *)
Definition lineSpan (buf : list byte) (s e : Z) : list byte :=
  firstn (Z.to_nat (lineEndOf buf e - lineStartOf buf s))
    (skipn (Z.to_nat (lineStartOf buf s)) buf).

(** The line matches of a location that is followed by a newline show
    the line span of the location. *)
Definition previewed (buf : list byte) (loc : Z * Z)
    (group : list LineMatch) : Prop :=
  newlineFrom buf (snd loc) = true ->
  Forall (fun m => Preview m = lineSpan buf (fst loc) (snd loc)) group.

(** The line start carried over is a line start. *)
Definition lineStartOk (buf : list byte) (c : cursor) (s : Z) : Prop :=
  s <= len buf ->
  bytes.LastIndex (firstn (Z.to_nat (lastLineStartIndex c)) buf) [nl]
  = lastLineStartIndex c - 1.

(** The line matches of [manyLines] searched for ["a"]. *)
Definition manyLinesFound : list LineMatch :=
  Eval vm_compute in
    match FindOut (grepLiteral (bytes_of "a") false) (archive [])
            (file "a.txt" manyLines) with
    | Some (ms, _, _) => ms
    | None => []
    end.

(** The matcher for ["foo"], case-insensitive, after a scan of
    ["foo bar\nbaz foo\n"] in an archive of maximum file length 64. *)
Definition usedGrep : readerGrep :=
  withBuf (grepLiteral (bytes_of "foo") true)
    (Some (twoLines ++ repeat x00 48)).

(** The files whose path passes the path filter and, when there is a
    regexp, matches it. *)
Definition pathPassing (L : GoLib) (rg : readerGrep) (zf : store.ZipFile)
  : list store.SrcFile :=
  filter (fun f => pathmatch.MatchPath (matchPath rg) (store.Name f)
                   && matchString L rg (store.Name f))
    (store.Files zf).

(** [fm] is what [FindZip] yields, with a matcher that differs from [rg]
    at most in its scratch buffer, on a file of the archive that passes
    the path filter; and it has line matches or, when paths are to match,
    its path matches the regexp. *)
Definition reported (L : GoLib) (rg : readerGrep) (zf : store.ZipFile)
    (patternMatchesPaths : bool) (fm : FileMatch) : Prop :=
  exists f rgw rgw',
    In f (store.Files zf)
    /\ pathmatch.MatchPath (matchPath rg) (store.Name f) = true
    /\ sameMatcher rgw rg
    /\ FindZip rgw zf f = Some (rgw', (fm, None))
    /\ (LineMatches fm <> []
        \/ (patternMatchesPaths = true
            /\ matchString L rg (store.Name f) = true)).

Definition workerOk (L : GoLib) (rg : readerGrep) (zf : store.ZipFile)
    (patternMatchesPaths : bool) (w : worker) : Prop :=
  sameMatcher (wrg w) rg
  /\ match at_ w with
     | AtScan f => In f (store.Files zf)
     | AtPublish fm => reported L rg zf patternMatchesPaths fm
     | _ => True
     end.

Definition driverOk (L : GoLib) (rg : readerGrep) (zf : store.ZipFile)
    (patternMatchesPaths : bool) (d : driver) : Prop :=
  Forall (reported L rg zf patternMatchesPaths) (matches d)
  /\ Forall (workerOk L rg zf patternMatchesPaths) (workers d)
  /\ incl (files d) (store.Files zf).

(** Worker [w] has the file [f] in hand: it is about to scan it or to
    publish its match. *)
Definition holds (f : store.SrcFile) (w : worker) : Prop :=
  match at_ w with
  | AtScan g => g = f
  | AtPublish fm => Path fm = store.Name f
  | _ => False
  end.

(** The file [f] is still queued with a worker left to take it, or in a
    worker's hand, or among the matches. *)
Definition accounted (d : driver) (f : store.SrcFile) : Prop :=
  (In f (files d) /\ exists w, In w (workers d) /\ at_ w <> Exited)
  \/ (exists w, In w (workers d) /\ holds f w)
  \/ (exists fm, In fm (matches d) /\ Path fm = store.Name f).

(** The file [f] passes the path filter, and [Find] on it returns line
    matches or, when paths are to match, its path matches the regexp. *)
Definition wanted (L : GoLib) (rg : readerGrep) (zf : store.ZipFile)
    (patternMatchesPaths : bool) (f : store.SrcFile) : Prop :=
  pathmatch.MatchPath (matchPath rg) (store.Name f) = true
  /\ exists lm lh e,
       FindOut rg zf f = Some (lm, lh, e)
       /\ (lm <> []
           \/ (patternMatchesPaths = true
               /\ matchString L rg (store.Name f) = true)).

(** While the context is live, no wanted file is lost. *)
Definition tracked (L : GoLib) (rg : readerGrep) (zf : store.ZipFile)
    (patternMatchesPaths : bool) (d : driver) : Prop :=
  ctxErr d = None ->
  forall f, In f (store.Files zf) ->
            wanted L rg zf patternMatchesPaths f -> accounted d f.

(** A context that is done without a deadline is reported by [limitHit]
    or by the error of a worker. *)
Definition quiet (d : driver) : Prop :=
  ctxErr d = None \/ ctxErr d = Some context_DeadlineExceeded
  \/ limitHit d = true \/ wgErr d <> None.

(** What the search for ["foo"] reports on [threeFiles] without a limit. *)
Definition threeFound : list FileMatch :=
  [{| Path := "a";
      LineMatches := [lineMatch (bytes_of "foo") 0 0 3 false];
      FileLimitHit := false |};
   {| Path := "b";
      LineMatches := [lineMatch (bytes_of "a foo") 0 2 3 false];
      FileLimitHit := false |};
   {| Path := "c";
      LineMatches := [lineMatch (bytes_of "foo c") 0 0 3 false];
      FileLimitHit := false |}].

(** The context is done with [e] and no worker has taken a file. *)
Definition idle (e : error) (d : driver) : Prop :=
  ctxErr d = Some e /\ matches d = [] /\ limitHit d = false
  /\ wgErr d = None /\ crashed d = false
  /\ Forall (fun w => at_ w = AtPoll \/ at_ w = Exited) (workers d).

(** What [ctx.Err()] is after the event [e] on a live context. *)
Definition doneWith (e : event) : error :=
  match e with
  | DeadlineFires => context_DeadlineExceeded
  | _ => context_Canceled
  end.

(** The error [concurrentFind] returns for a context done with [e]. *)
Definition reportedErr (e : event) : option error :=
  match e with
  | DeadlineFires => Some context_DeadlineExceeded
  | _ => None
  end.

(** The first line match of a location holds the column of its first
    byte, counted in runes from the start of its line; when it is the only
    one, it also holds the length of the location in runes; the line
    matches after it start at column 0. *)
Definition columns (buf : list byte) (loc : Z * Z) (group : list LineMatch)
  : Prop :=
  exists m rest off l,
    group = m :: rest
    /\ OffsetAndLengths m = [(off, l)]
    /\ option_map utf8.RuneCount
         (slice buf (lineStartOf buf (fst loc)) (fst loc)) = Some off
    /\ (rest = [] ->
        option_map utf8.RuneCount (slice buf (fst loc) (snd loc)) = Some l)
    /\ Forall (fun m' => exists l', OffsetAndLengths m' = [(0, l')]) rest.

(** ["\nfoo\n"]: a file that begins with an empty line. *)
Definition leadingNewline : list byte := [nl] ++ bytes_of "foo" ++ [nl].

(** * The helpers of [BlobLine.tsx] *)

Module js.

(** A JavaScript string: its UTF-16 code units. *)
Definition str : Type := list Z.

(** A literal of ASCII characters. *)
Definition lit (s : string) : str :=
  map (fun a => Z.of_N (N_of_ascii a)) (list_ascii_of_string s).

(** [s.startsWith(prefix)] *)
Fixpoint startsWith (s prefix : str) {struct prefix} : bool :=
  match prefix with
  | [] => true
  | p :: prefix' =>
      match s with
      | [] => false
      | c :: s' => (c =? p) && startsWith s' prefix'
      end
  end.

(** [s.slice(n)] for an index [n] that is not negative. *)
Definition sliceFrom (s : str) (n : nat) : str := skipn n s.

(** The values that reach [simpleContentsString]: a string, an array, or
    anything else (a React element, a number, ...). *)
#[warnings="-register-all"]
Inductive value : Type :=
| VString (s : str)
| VArray (elems : list value)
| VOther (tag : nat).

Definition isString (v : value) : bool :=
  match v with VString _ => true | _ => false end.

(** [elems.join("")] on an array of strings. *)
Definition join (elems : list value) : str :=
  flat_map (fun v => match v with VString s => s | _ => [] end) elems.

End js.

Definition simpleContentsString (contents : js.value) : js.value :=
  match contents with
  | js.VArray elems =>
      if existsb (fun e => negb (js.isString e)) elems then contents
      else js.VString (js.join elems)
  | _ => contents
  end.

Definition fastInsertRevIntoDefURL (urlNoRev repo rev : js.str) : js.str :=
  match rev with
  | [] => urlNoRev
  | _ :: _ =>
      let prefix := js.lit "/" ++ repo ++ js.lit "/-/" in
      let repl := js.lit "/" ++ repo ++ js.lit "@" ++ rev ++ js.lit "/-/" in
      if js.startsWith urlNoRev prefix
      then repl ++ js.sliceFrom urlNoRev (length prefix)
      else urlNoRev
  end.

(** A reader that reports [io.EOF] on the call after its last byte:
    [rest r] is what [r] has left to deliver; a call on an exhausted
    reader returns no byte and [io.EOF], and a call with room on any other
    returns a nil error and at least one byte, the next of the stream. *)
Definition reportsEOFAfterLast {R : Type} `{Reader R}
    (rest : R -> list byte) : Prop :=
  (forall r k, rest r = [] ->
     exists r', Read r k = ([], Some io_EOF, r') /\ rest r' = [])
  /\ (forall r k, rest r <> [] -> 0 < k ->
       exists data r',
         Read r k = (data, None, r') /\ data <> [] /\ len data <= k
         /\ rest r = data ++ rest r').

(** A reader over a byte string that delivers one byte on each call and
    reports [io.EOF] on the call after the last. *)
Record slowReader : Type := Slow { slowRest : list byte }.

#[global] Instance slowRead : Reader slowReader := fun r k =>
  match slowRest r with
  | [] => ([], Some io_EOF, r)
  | c :: t => ([c], None, Slow t)
  end.
(** * Properties *)

(** ** The file scanner *)

Lemma matchBuffer_buf rg zf f tb buf :
  matchBuffer rg zf (store.DataFor zf f) = Some (tb, buf) ->
  buf = fileMatchBuf rg f.
Proof.
  unfold matchBuffer, fileMatchBuf, store.DataFor.
  destruct (ignoreCase rg).
  - destruct (transformBuf rg) as [t|].
    + destruct (slice t 0 (len (store.Data f))); [|discriminate].
      intros H; inversion H; reflexivity.
    + destruct (store.MaxLen zf <? 0); [discriminate|].
      destruct (slice _ 0 (len (store.Data f))); [|discriminate].
      intros H; inversion H; reflexivity.
  - intros H; inversion H; reflexivity.
Qed.

(** What [Find] returns, read off its three exits. *)
Lemma Find_cases rg zf f rg' ms lh err :
  Find rg zf f = Some (rg', (ms, lh, err)) ->
  err = None /\
  ((ms = [] /\ lh = false) \/
   (exists r, re rg = Some r /\
      lh = (len ms =? maxLineMatches) /\
      let locs := collected rg f in
      if len locs >? 0
      then scanLocs (fileMatchBuf rg f) (len locs =? maxOffsets)
             cursor0 [] locs = Some ms
      else ms = [])).
Proof.
  unfold Find. intros H.
  destruct (matchBuffer rg zf (store.DataFor zf f)) as [[tb buf]|] eqn:Hb;
    [|discriminate].
  apply matchBuffer_buf in Hb. subst buf.
  destruct (negb (bytes.Contains (fileMatchBuf rg f) (literalSubstring rg))).
  { inversion H; subst. split; [reflexivity|]. left. split; reflexivity. }
  destruct (re rg) as [r|] eqn:Hre; [|discriminate].
  destruct (regexp.FindIndex r (fileMatchBuf rg f)).
  2:{ inversion H; subst. split; [reflexivity|]. left. split; reflexivity. }
  unfold collected. rewrite Hre.
  remember (regexp.FindAllIndex r (fileMatchBuf rg f) maxFileMatches)
    as locs eqn:Hlocs.
  destruct (len locs >? 0) eqn:Hl.
  - destruct (scanLocs _ _ _ _ locs) as [ms0|] eqn:Hs; [|discriminate].
    inversion H; subst. split; [reflexivity|]. right. exists r.
    split; [reflexivity|]. split; [reflexivity|].
    reflexivity.
  - inversion H; subst. split; [reflexivity|]. right. exists r.
    split; [reflexivity|]. split; reflexivity.
Qed.

Lemma emitLines_LimitHit buf lineStart lineEnd start end_ offset hit nlines :
  forall lines i lineNum out,
    emitLines buf lineStart lineEnd start end_ offset hit nlines i lineNum
      lines = Some out ->
    Forall (fun m => LimitHit m = hit) out.
Proof.
  induction lines as [|line rest IH]; simpl; intros i lineNum out H.
  - inversion H. constructor.
  - destruct (if i =? 0 then _ else _) as [le|]; [|discriminate].
    destruct (slice buf lineStart lineEnd) as [pv|]; [|discriminate].
    destruct (emitLines _ _ _ _ _ _ _ _ (i + 1) (lineNum + 1) rest)
      as [tl|] eqn:Ht; [|discriminate].
    inversion H; subst. constructor; [reflexivity|]. eapply IH; eauto.
Qed.

(** [scanMatch] unfolded into its intermediate values. *)
Lemma scanMatch_inv buf hit c s e c' out :
  scanMatch buf hit c (s, e) = Some (c', out) ->
  exists pre post offsetSeg lengthSeg seg matchBuf,
    slice buf (lastLineStartIndex c) s = Some pre /\
    slice buf e (len buf) = Some post /\
    let lineStart0 := lastLineStartIndex c + bytes.LastIndex pre [nl] in
    let llsi := if lineStart0 >? 0 then lineStart0 + 1
                else lastLineStartIndex c in
    let lineStart1 := if (lineStart0 <? len buf - 1) && (len buf >? 0)
                      then lineStart0 + 1 else lineStart0 in
    let lineEnd0 := e + bytes.Index post [nl] in
    let lineStart := if lineStart1 <? 0 then s else lineStart1 in
    let lineEnd := if lineEnd0 <? 0 then e else lineEnd0 in
    let lineNumber := lastLineNumber c + bytes.Count seg [nl] in
    slice buf llsi s = Some offsetSeg /\
    slice buf s e = Some lengthSeg /\
    slice buf (lastMatchIndex c) s = Some seg /\
    slice buf lineStart lineEnd = Some matchBuf /\
    lastLineNumber c' = lineNumber /\
    lastMatchIndex c' = lineStart /\
    let matchLines := bytes.SplitN matchBuf [nl] (maxLineMatches + 1) in
    if len matchLines >? 1 then
      emitLines buf lineStart lineEnd s e (utf8.RuneCount offsetSeg) hit
        (len matchLines) 0 lineNumber matchLines = Some out
    else
      out = [lineMatch matchBuf lineNumber (utf8.RuneCount offsetSeg)
               (utf8.RuneCount lengthSeg) hit].
Proof.
  unfold scanMatch, hydrateLineNumbers. cbn [fst]. intros H.
  destruct (slice buf (lastLineStartIndex c) s) as [pre|]; [|discriminate].
  destruct (slice buf e (len buf)) as [post|]; [|discriminate].
  cbv zeta in H.
  match type of H with
  | match slice buf ?a s with _ => _ end = _ =>
      destruct (slice buf a s) as [offsetSeg|] eqn:Ho; [|discriminate]
  end.
  destruct (slice buf s e) as [lengthSeg|]; [|discriminate].
  destruct (slice buf (lastMatchIndex c) s) as [seg|]; [|discriminate].
  match type of H with
  | match slice buf ?a ?b with _ => _ end = _ =>
      destruct (slice buf a b) as [matchBuf|] eqn:Hm; [|discriminate]
  end.
  exists pre, post, offsetSeg, lengthSeg, seg, matchBuf.
  cbv zeta. rewrite Ho, Hm.
  destruct (len (bytes.SplitN matchBuf [nl] (maxLineMatches + 1)) >? 1).
  - match type of H with
    | match ?x with _ => _ end = _ => destruct x as [o|] eqn:He; [|discriminate]
    end.
    inversion H; subst. cbn. repeat split; reflexivity.
  - inversion H; subst. cbn. repeat split; reflexivity.
Qed.

Lemma scanMatch_LimitHit buf hit c m c' out :
  scanMatch buf hit c m = Some (c', out) ->
  Forall (fun x => LimitHit x = hit) out.
Proof.
  destruct m as [s e]. intros H. apply scanMatch_inv in H.
  destruct H as (pre & post & oseg & lseg & seg & mb & _ & _ & H).
  cbv zeta in H. destruct H as (_ & _ & _ & _ & _ & _ & H).
  destruct (len (bytes.SplitN mb [nl] (maxLineMatches + 1)) >? 1).
  - eapply emitLines_LimitHit; eauto.
  - subst out. constructor; [reflexivity|constructor].
Qed.

Lemma scanLocs_LimitHit buf hit :
  forall locs c acc ms,
    Forall (fun x => LimitHit x = hit) acc ->
    scanLocs buf hit c acc locs = Some ms ->
    Forall (fun x => LimitHit x = hit) ms.
Proof.
  induction locs as [|m rest IH]; simpl; intros c acc ms Hacc H.
  - inversion H; subst; assumption.
  - destruct (scanMatch buf hit c m) as [[c' out]|] eqn:Hm; [|discriminate].
    eapply IH; [|exact H].
    apply Forall_app. split; [assumption|].
    eapply scanMatch_LimitHit; eauto.
Qed.

(** C7: every line match that [Find] emits carries
    [LimitHit = (len(locs) == maxOffsets)], where [locs] are the locations
    collected with the cap [maxFileMatches = 1000] and [maxOffsets = 10]. *)
Theorem Find_lineLimitHit rg zf f rg' ms lh err :
  Find rg zf f = Some (rg', (ms, lh, err)) ->
  maxFileMatches = 1000 /\ maxOffsets = 10 /\
  forall m, In m ms ->
    LimitHit m = (len (collected rg f) =? maxOffsets).
Proof.
  intros H. split; [reflexivity|]. split; [reflexivity|].
  apply Find_cases in H. destruct H as [_ [[-> _]|(r & Hr & _ & H)]].
  - intros m [].
  - cbv zeta in H. destruct (len (collected rg f) >? 0).
    + intros m Hin.
      eapply scanLocs_LimitHit in H; [|constructor].
      rewrite Forall_forall in H. apply H; assumption.
    + subst ms. intros m [].
Qed.

(** Ten matches in the file: every line match is flagged. *)
Lemma Find_lineLimitHit_witness :
  exists rg' ms,
    Find (grepLiteral (bytes_of "a") false) (oneFile "a.txt" tenHits)
      (file "a.txt" tenHits) = Some (rg', (ms, false, None))
    /\ len ms = 10
    /\ forall m, In m ms -> LimitHit m = true.
Proof.
  destruct (Find (grepLiteral (bytes_of "a") false) (oneFile "a.txt" tenHits)
              (file "a.txt" tenHits)) as [[rg' [[ms lh] err]]|] eqn:H.
  - pose proof (Find_lineLimitHit _ _ _ _ _ _ _ H) as (_ & _ & Hhit).
    vm_compute in H. inversion H; subst.
    eexists. eexists. split; [reflexivity|]. split; [reflexivity|].
    exact Hhit.
  - vm_compute in H. discriminate H.
Defined.

(** *** Line numbers *)


Lemma len_nonneg {A : Type} (s : list A) : 0 <= len s.
Proof. unfold len. lia. Qed.

Lemma len_app {A : Type} (a b : list A) : len (a ++ b) = len a + len b.
Proof. unfold len. rewrite length_app. lia. Qed.

Lemma slice_spec {A : Type} (s : list A) lo hi x :
  slice s lo hi = Some x ->
  0 <= lo /\ lo <= hi /\ hi <= len s /\
  x = firstn (Z.to_nat (hi - lo)) (skipn (Z.to_nat lo) s).
Proof.
  unfold slice.
  destruct (0 <=? lo) eqn:H0; [|discriminate].
  destruct (lo <=? hi) eqn:H1; [|discriminate].
  destruct (hi <=? len s) eqn:H2; [|discriminate].
  cbn. intros H. inversion H.
  repeat split; lia.
Qed.

Lemma newlines_cons c s :
  newlines (c :: s) = (if Byte.eqb c nl then 1 else 0) + newlines s.
Proof.
  unfold newlines, bytes.Count.
  cbn [bytes.countAux bytes.HasPrefix length Nat.sub].
  destruct (Byte.eqb c nl); cbn [andb]; lia.
Qed.

Lemma newlines_nil : newlines [] = 0.
Proof. reflexivity. Qed.

Lemma newlines_app a b : newlines (a ++ b) = newlines a + newlines b.
Proof.
  induction a as [|c a IH]; [reflexivity|].
  cbn [app]. rewrite !newlines_cons, IH. lia.
Qed.

Lemma linesBefore_split buf a b :
  0 <= a -> a <= b ->
  linesBefore buf b
  = linesBefore buf a
    + newlines (firstn (Z.to_nat (b - a)) (skipn (Z.to_nat a) buf)).
Proof.
  intros Ha Hab. unfold linesBefore.
  rewrite <- newlines_app. f_equal.
  rewrite <- (firstn_skipn (Z.to_nat a) (firstn (Z.to_nat b) buf)) at 1.
  rewrite firstn_firstn, skipn_firstn_comm.
  replace (Nat.min (Z.to_nat a) (Z.to_nat b)) with (Z.to_nat a) by lia.
  replace (Z.to_nat b - Z.to_nat a)%nat with (Z.to_nat (b - a)) by lia.
  reflexivity.
Qed.

Lemma lastIndexFrom_nl s :
  forall i acc,
    let r := bytes.lastIndexFrom s [nl] i acc in
    (r = acc /\ newlines s = 0) \/
    (i <= r /\ r < i + len s
     /\ newlines (skipn (Z.to_nat (r - i + 1)) s) = 0).
Proof.
  induction s as [|c s IH]; intros i acc; cbn zeta.
  - left. split; reflexivity.
  - cbn [bytes.lastIndexFrom bytes.HasPrefix].
    rewrite andb_true_r.
    specialize (IH (i + 1) (if Byte.eqb c nl then i else acc)).
    cbn zeta in IH.
    set (r := bytes.lastIndexFrom s [nl] (i + 1)
                (if Byte.eqb c nl then i else acc)) in *.
    assert (Hl : len (c :: s) = 1 + len s) by (unfold len; cbn [length]; lia).
    destruct IH as [[Hr Hn]|(H1 & H2 & H3)].
    + destruct (Byte.eqb c nl) eqn:Hc.
      * right. rewrite Hr.
        replace (i - i + 1) with 1 by lia. cbn.
        split; [lia|]. split; [lia|]. exact Hn.
      * left. split; [exact Hr|]. rewrite newlines_cons, Hc, Hn. reflexivity.
    + right. split; [lia|]. split; [lia|].
      replace (Z.to_nat (r - i + 1)) with (S (Z.to_nat (r - (i + 1) + 1)))
        by lia.
      cbn [skipn]. exact H3.
Qed.

Lemma LastIndex_nl s :
  -1 <= bytes.LastIndex s [nl] /\ bytes.LastIndex s [nl] < len s
  /\ newlines (skipn (Z.to_nat (bytes.LastIndex s [nl] + 1)) s) = 0.
Proof.
  unfold bytes.LastIndex.
  destruct (lastIndexFrom_nl s 0 (-1)) as [[Hr Hn]|(H1 & H2 & H3)].
  - rewrite Hr. cbn. pose proof (len_nonneg s). repeat split; try lia.
    exact Hn.
  - repeat split; try lia.
    replace (bytes.lastIndexFrom s [nl] 0 (-1) + 1)
      with (bytes.lastIndexFrom s [nl] 0 (-1) - 0 + 1) by lia.
    exact H3.
Qed.

Lemma emitLines_numbers buf lineStart lineEnd start end_ offset hit nlines :
  forall lines i lineNum out,
    emitLines buf lineStart lineEnd start end_ offset hit nlines i lineNum
      lines = Some out ->
    length out = length lines /\
    forall j m, nth_error out j = Some m ->
      LineNumber m = lineNum + Z.of_nat j.
Proof.
  induction lines as [|line rest IH]; simpl; intros i lineNum out H.
  - inversion H. split; [reflexivity|]. intros [|j] m Hj; discriminate.
  - destruct (if i =? 0 then _ else _) as [le|]; [|discriminate].
    destruct (slice buf lineStart lineEnd) as [pv|]; [|discriminate].
    destruct (emitLines _ _ _ _ _ _ _ _ (i + 1) (lineNum + 1) rest)
      as [tl|] eqn:Ht; [|discriminate].
    inversion H; subst. apply IH in Ht. destruct Ht as [Hlen Hnum].
    split; [cbn; lia|].
    intros [|j] m Hj; cbn in Hj.
    + inversion Hj; subst. cbn. lia.
    + apply Hnum in Hj. lia.
Qed.


Lemma scanMatch_numbers buf hit c s e c' out :
  cursorOk buf c s ->
  scanMatch buf hit c (s, e) = Some (c', out) ->
  out <> [] /\
  (forall j m, nth_error out j = Some m ->
     LineNumber m = linesBefore buf s + Z.of_nat j) /\
  (forall s', s < s' -> cursorOk buf c' s').
Proof.
  intros Hok H. apply scanMatch_inv in H.
  destruct H as (pre & post & oseg & lseg & seg & mb & Hpre & Hpost & H).
  cbv zeta in H.
  destruct H as (Ho & Hl & Hseg & Hmb & Hnum & Hidx & Hout).
  apply slice_spec in Hpre. destruct Hpre as (Hp0 & Hp1 & Hp2 & Hpre).
  apply slice_spec in Hseg. destruct Hseg as (Hs0 & Hs1 & Hs2 & Hseg).
  assert (Hline : lastLineNumber c + bytes.Count seg [nl]
                  = linesBefore buf s).
  { rewrite (linesBefore_split buf (lastMatchIndex c) s) by lia.
    rewrite Hok by lia. subst seg. reflexivity. }
  rewrite Hline in *.
  split; [|split].
  - destruct (len (bytes.SplitN mb [nl] (maxLineMatches + 1)) >? 1) eqn:Hn.
    + apply emitLines_numbers in Hout. destruct Hout as [Hlen _].
      intros ->. cbn [length] in Hlen. unfold len in Hn.
      rewrite <- Hlen in Hn. discriminate.
    + subst out. discriminate.
  - destruct (len (bytes.SplitN mb [nl] (maxLineMatches + 1)) >? 1).
    + apply emitLines_numbers in Hout. apply Hout.
    + subst out. intros [|[|j]] m Hj; cbn in Hj; try discriminate.
      inversion Hj; subst. cbn. lia.
  - intros s' Hs' Hlen'. rewrite Hnum, Hidx. clear Hout Hmb Ho Hl.
    pose proof (LastIndex_nl pre) as (Hk0 & Hk1 & Hk2).
    assert (Hlp : len pre = s - lastLineStartIndex c).
    { subst pre. unfold len. rewrite length_firstn, length_skipn.
      unfold len in Hp2. lia. }
    set (k := bytes.LastIndex pre [nl]) in *.
    destruct ((lastLineStartIndex c + k <? len buf - 1) && (len buf >? 0))
      eqn:Hinc.
    + (* the line start is the byte after the newline found, or the
         previous line start when there is none *)
      replace (lastLineStartIndex c + k + 1 <? 0) with false by lia.
      rewrite (linesBefore_split buf (lastLineStartIndex c + k + 1) s)
        by lia.
      replace (firstn (Z.to_nat (s - (lastLineStartIndex c + k + 1)))
                 (skipn (Z.to_nat (lastLineStartIndex c + k + 1)) buf))
        with (skipn (Z.to_nat (k + 1)) pre).
      * rewrite Hk2. lia.
      * subst pre. rewrite skipn_firstn_comm, skipn_skipn.
        f_equal; [lia|]. f_equal. lia.
    + destruct (lastLineStartIndex c + k <? 0) eqn:Hneg.
      * reflexivity.
      * (* the newline is the last byte and the match sits at the end of
           the buffer: nothing can follow *)
        exfalso.
        apply andb_false_iff in Hinc. lia.
Qed.

Lemma increasingStarts_cons s e s' e' rest :
  increasingStarts ((s, e) :: (s', e') :: rest) = true ->
  s < s' /\ increasingStarts ((s', e') :: rest) = true.
Proof.
  cbn [increasingStarts]. intros H. apply andb_true_iff in H.
  destruct H as [H1 H2]. split; [lia|exact H2].
Qed.


Lemma scanLocs_numbers buf hit :
  forall locs c acc ms,
    increasingStarts locs = true ->
    (forall s e rest, locs = (s, e) :: rest -> cursorOk buf c s) ->
    scanLocs buf hit c acc locs = Some ms ->
    exists groups,
      ms = acc ++ concat groups /\ Forall2 (numbered buf) locs groups.
Proof.
  induction locs as [|[s e] rest IH]; intros c acc ms Hinc Hok H.
  - cbn in H. inversion H; subst. exists []. split.
    + cbn. rewrite app_nil_r. reflexivity.
    + constructor.
  - cbn [scanLocs] in H.
    destruct (scanMatch buf hit c (s, e)) as [[c' out]|] eqn:Hm;
      [|discriminate].
    pose proof (scanMatch_numbers _ _ _ _ _ _ _ (Hok s e rest eq_refl) Hm)
      as (Hne & Hnum & Hnext).
    apply IH in H.
    + destruct H as (groups & Hms & Hall).
      exists (out :: groups). split.
      * cbn. rewrite Hms, app_assoc. reflexivity.
      * constructor; [|exact Hall]. split; assumption.
    + destruct rest as [|[s' e'] rest']; [reflexivity|].
      apply increasingStarts_cons in Hinc. apply Hinc.
    + intros s' e' rest' ->.
      apply increasingStarts_cons in Hinc. apply Hnext. lia.
Qed.

Lemma lowerByte_nl c : Byte.eqb (lowerByte c) nl = Byte.eqb c nl.
Proof. destruct c; reflexivity. Qed.

Lemma newlines_lower s : newlines (bytesToLowerASCII s) = newlines s.
Proof.
  induction s as [|c s IH]; [reflexivity|].
  cbn [bytesToLowerASCII map]. rewrite !newlines_cons.
  fold (bytesToLowerASCII s). rewrite IH, lowerByte_nl. reflexivity.
Qed.

Lemma linesBefore_fileMatchBuf rg f i :
  linesBefore (fileMatchBuf rg f) i = linesBefore (store.Data f) i.
Proof.
  unfold fileMatchBuf, linesBefore. destruct (ignoreCase rg); [|reflexivity].
  unfold bytesToLowerASCII. rewrite firstn_map. apply newlines_lower.
Qed.

(** C2: [LineNumber] counts from 0.  The line matches that [Find] returns
    are, location by location, the groups appended for the collected
    locations; the first line match of a location has as [LineNumber] the
    number of newline bytes of the file before the match's start byte, and
    the further line matches of a location that spans several lines count
    up by one.  (The regexp engine yields locations with increasing start
    offsets.) *)
Theorem Find_lineNumber_zero_based rg zf f rg' ms lh err :
  Find rg zf f = Some (rg', (ms, lh, err)) ->
  increasingStarts (collected rg f) = true ->
  ms = [] \/
  exists groups,
    ms = concat groups /\
    Forall2 (numbered (store.Data f)) (collected rg f) groups.
Proof.
  intros H Hinc. apply Find_cases in H.
  destruct H as [_ [[-> _]|(r & Hr & _ & H)]]; [left; reflexivity|].
  cbv zeta in H. destruct (len (collected rg f) >? 0); [|left; exact H].
  right. apply scanLocs_numbers in H.
  - destruct H as (groups & Hms & Hall). exists groups. split; [exact Hms|].
    revert Hall. apply Forall2_impl.
    intros loc g [Hne Hn]. split; [exact Hne|].
    intros j m Hj. rewrite <- linesBefore_fileMatchBuf with (rg := rg).
    apply Hn; exact Hj.
  - exact Hinc.
  - intros s e rest _ _. reflexivity.
Qed.

Lemma Find_lineNumber_zero_based_witness :
  increasingStarts (collected (grepLiteral (bytes_of "foo") false)
                      (file "a.txt" twoLines)) = true
  /\ exists groups,
       [lineMatch (bytes_of "foo bar") 0 0 3 false;
        lineMatch (bytes_of "baz foo") 1 4 3 false] = concat groups
       /\ Forall2 (numbered twoLines) [(0, 3); (12, 15)] groups.
Proof.
  split; [reflexivity|].
  destruct (Find_lineNumber_zero_based
              (grepLiteral (bytes_of "foo") false)
              (oneFile "a.txt" twoLines) (file "a.txt" twoLines)
              (grepLiteral (bytes_of "foo") false)
              [lineMatch (bytes_of "foo bar") 0 0 3 false;
               lineMatch (bytes_of "baz foo") 1 4 3 false]
              false None eq_refl eq_refl) as [H|H].
  - discriminate H.
  - exact H.
Defined.

(** C2 as stated fails: on ["foo bar\nbaz foo\n"] searched for ["foo"],
    the match at byte 0, on the first line, gets [LineNumber] 0 and the
    match on the second line gets 1. *)
Lemma Find_lineNumber_one_based_counterexample :
  FindOut (grepLiteral (bytes_of "foo") false) (oneFile "a.txt" twoLines)
    (file "a.txt" twoLines)
  = Some ([lineMatch (bytes_of "foo bar") 0 0 3 false;
           lineMatch (bytes_of "baz foo") 1 4 3 false], false, None)
  /\ collected (grepLiteral (bytes_of "foo") false) (file "a.txt" twoLines)
     = [(0, 3); (12, 15)]
  /\ LineNumber (lineMatch (bytes_of "foo bar") 0 0 3 false) <> 1
  /\ LineNumber (lineMatch (bytes_of "baz foo") 1 4 3 false) <> 2.
Proof.
  split; [reflexivity|]. split; [reflexivity|].
  split; cbn; discriminate.
Qed.

(** C1: [Find] evaluated where the preview departs from the original
    line.  With [ignoreCase] the preview of ["FOO\n"] is the lowered
    ["foo"]; on ["foo"] without a final newline the preview is ["fo"];
    and for the match of ["a\nb"] in ["xa\nbz\n"] both line matches carry
    the two-line span ["xa\nbz"]. *)
Theorem Find_preview_evaluated :
  FindOut (grepLiteral (bytes_of "foo") true) (oneFile "a.txt" upperLine)
    (file "a.txt" upperLine)
  = Some ([lineMatch (bytes_of "foo") 0 0 3 false], false, None)
  /\ FindOut (grepLiteral (bytes_of "foo") false)
       (oneFile "a.txt" (bytes_of "foo")) (file "a.txt" (bytes_of "foo"))
     = Some ([lineMatch (bytes_of "fo") 0 0 3 false], false, None)
  /\ FindOut (grepLiteral crossingPattern false) (oneFile "a.txt" crossing)
       (file "a.txt" crossing)
     = Some ([lineMatch (bytes_of "xa" ++ [nl] ++ bytes_of "bz") 0 1 1 false;
              lineMatch (bytes_of "xa" ++ [nl] ++ bytes_of "bz") 1 0 1 false],
             false, None).
Proof. repeat split. Qed.

(** ** The driver and the scanner's error *)

Section Driver.

Variable L : GoLib.

Lemma FindZip_err_nil rg zf f rg' fm err :
  FindZip rg zf f = Some (rg', (fm, err)) -> err = None.
Proof.
  unfold FindZip.
  destruct (Find rg zf f) as [[rg0 [[lm lh] e]]|] eqn:HF; [|discriminate].
  intros H. inversion H; subst.
  apply Find_cases in HF. apply HF.
Qed.

Lemma fold_step_invariant (P : driver -> Prop) zf limit pmp :
  (forall d e, P d -> P (step L zf limit pmp d e)) ->
  forall sched d, P d -> P (fold_left (step L zf limit pmp) sched d).
Proof.
  intros Hstep. induction sched as [|e sched IH]; intros d Hd.
  - exact Hd.
  - cbn. apply IH, Hstep, Hd.
Qed.


Lemma step_latchUntouched zf limit pmp d e :
  latchUntouched d -> latchUntouched (step L zf limit pmp d e).
Proof.
  unfold latchUntouched. intros [H1 H2].
  destruct e as [i| |]; cbn; [|split; assumption|split; assumption].
  unfold stepWorker.
  destruct (crashed d); [split; assumption|].
  destruct (nth_error (workers d) i) as [w|]; [|split; assumption].
  destruct (at_ w) as [| |f|fm|]; cbn.
  - destruct (ctxErr d); cbn; split; assumption.
  - destruct (files d); cbn; split; assumption.
  - destruct (negb _); cbn; [split; assumption|].
    destruct (FindZip (wrg w) zf f) as [[rg' [fm [err|]]]|] eqn:HF; cbn.
    + apply FindZip_err_nil in HF. discriminate.
    + split; assumption.
    + split; assumption.
  - destruct (len (matches d) <? limit); cbn; split; assumption.
  - split; assumption.
Qed.

End Driver.

(** C10: [Find] returns a nil error on every input on which it returns,
    so no interleaving of the driver's workers ever sets the error latch
    [wgErr], and the driver's own error is nil or the deadline error. *)
Theorem Find_err_nil :
  (forall rg zf f rg' ms lh err,
      Find rg zf f = Some (rg', (ms, lh, err)) -> err = None)
  /\ (forall L sched rg zf limit pmp,
         let d := fold_left (step L zf limit pmp) sched (start rg zf) in
         wgErr d = None /\ wgErrOnce d = false)
  /\ (forall L sched rg zf limit pmc pmp fm lh err,
         concurrentFind L sched rg zf limit pmc pmp = Some (fm, lh, err) ->
         err = None \/ err = Some context_DeadlineExceeded).
Proof.
  split; [|split].
  - intros rg zf f rg' ms lh err H. apply Find_cases in H. apply H.
  - intros L sched rg zf limit pmp. cbv zeta.
    apply (fold_step_invariant L latchUntouched).
    + intros d e. apply step_latchUntouched.
    + split; reflexivity.
  - intros L sched rg zf limit pmc pmp fm lh err. unfold concurrentFind.
    destruct (pmp && _).
    + destruct (pathOnly _ _ _ _ _) as [m l]. intros H. inversion H.
      left; reflexivity.
    + set (d := fold_left _ sched (start rg zf)).
      assert (Hl : latchUntouched d).
      { apply (fold_step_invariant L latchUntouched).
        - intros d0 e. apply step_latchUntouched.
        - split; reflexivity. }
      destruct Hl as [Hl _]. rewrite Hl.
      destruct (crashed d); [discriminate|].
      destruct (forallb exited (workers d)); [|discriminate].
      intros H. inversion H.
      destruct (ctxErr d) as [[]|]; auto.
Qed.

Lemma Find_err_nil_witness :
  Find (grepLiteral (bytes_of "foo") true) (oneFile "a.txt" upperLine)
    (file "a.txt" upperLine)
  = Some (withBuf (grepLiteral (bytes_of "foo") true)
            (Some (bytes_of "foo" ++ [nl])),
          ([lineMatch (bytes_of "foo") 0 0 3 false], false, None))
  /\ @None error = None.
Proof.
  split; [reflexivity|].
  apply (proj1 Find_err_nil
           (grepLiteral (bytes_of "foo") true) (oneFile "a.txt" upperLine)
           (file "a.txt" upperLine)
           (withBuf (grepLiteral (bytes_of "foo") true)
              (Some (bytes_of "foo" ++ [nl])))
           [lineMatch (bytes_of "foo") 0 0 3 false] false None).
  reflexivity.
Defined.

(** ** The literal extractor *)

Lemma longer_cases l longest :
  (longer l longest = l /\ len longest < len l) \/
  (longer l longest = longest /\ len l <= len longest).
Proof.
  unfold longer. destruct (len l >? len longest) eqn:H; [left|right];
    split; try reflexivity; lia.
Qed.

Lemma overSubs_longest (f : Regexp -> option (list byte)) :
  forall subs ls longest,
    Forall2 (fun s l => f s = Some l) subs ls ->
    exists l,
      overSubs f subs longest = Some l /\
      (l = longest \/ In l ls) /\
      len longest <= len l /\
      Forall (fun l' => len l' <= len l) ls.
Proof.
  induction subs as [|s subs IH]; intros ls longest Hall.
  - inversion Hall; subst. exists longest. cbn.
    repeat split; auto; lia.
  - inversion Hall as [|s0 l0 subs0 ls0 Hs Hrest]; subst.
    cbn [overSubs]. rewrite Hs.
    destruct (IH ls0 (longer l0 longest) Hrest) as (l & Hl & Hin & Hlen & Hmax).
    exists l. split; [exact Hl|].
    destruct (longer_cases l0 longest) as [[He Hc]|[He Hc]];
      rewrite He in *.
    + split; [|split].
      * destruct Hin as [->|Hin]; right; [left; reflexivity|right; exact Hin].
      * lia.
      * constructor; [lia|exact Hmax].
    + split; [|split].
      * destruct Hin as [->|Hin]; [left; reflexivity|right; right; exact Hin].
      * exact Hlen.
      * constructor; [lia|exact Hmax].
Qed.

(** C8: [longestLiteral] by node kind.  A literal yields its runes as a
    string; a capture and a one-or-more repetition yield the result on the
    first child; a general repetition yields the result on its child when
    its minimum is at least 1 and the empty string otherwise; a
    concatenation yields the longest (in bytes) of the results on its
    children, the empty string when it has none; every other kind yields
    the empty string. *)
Theorem longestLiteral_rules :
  (forall fl sub rune r0 mn mx,
      longestLiteral (Node OpLiteral fl sub rune r0 mn mx)
      = Some (utf8.string_of_runes rune))
  /\ (forall op fl c rest rune r0 mn mx,
         op = OpCapture \/ op = OpPlus ->
         longestLiteral (Node op fl (c :: rest) rune r0 mn mx)
         = longestLiteral c)
  /\ (forall fl c rest rune r0 mn mx,
         1 <= mn ->
         longestLiteral (Node OpRepeat fl (c :: rest) rune r0 mn mx)
         = longestLiteral c)
  /\ (forall fl sub rune r0 mn mx,
         mn < 1 ->
         longestLiteral (Node OpRepeat fl sub rune r0 mn mx) = Some [])
  /\ (forall fl subs rune r0 mn mx ls,
         Forall2 (fun s l => longestLiteral s = Some l) subs ls ->
         exists l,
           longestLiteral (Node OpConcat fl subs rune r0 mn mx) = Some l
           /\ (ls = [] -> l = [])
           /\ (ls <> [] -> In l ls)
           /\ Forall (fun l' => len l' <= len l) ls)
  /\ (forall op fl sub rune r0 mn mx,
         op <> OpLiteral -> op <> OpCapture -> op <> OpPlus ->
         op <> OpRepeat -> op <> OpConcat ->
         longestLiteral (Node op fl sub rune r0 mn mx) = Some []).
Proof.
  split; [reflexivity|]. split; [|split; [|split; [|split]]].
  - intros op fl c rest rune r0 mn mx [->| ->]; reflexivity.
  - intros fl c rest rune r0 mn mx H. cbn.
    replace (mn >=? 1) with true by lia. reflexivity.
  - intros fl sub rune r0 mn mx H. cbn.
    replace (mn >=? 1) with false by lia. reflexivity.
  - intros fl subs rune r0 mn mx ls Hall. cbn [longestLiteral].
    destruct (overSubs_longest longestLiteral subs ls [] Hall)
      as (l & Hl & Hin & _ & Hmax).
    exists l. split; [exact Hl|]. split; [|split; [|exact Hmax]].
    + intros ->. destruct Hin as [->|[]]. reflexivity.
    + intros Hne. destruct Hin as [->|Hin]; [|exact Hin].
      destruct ls as [|l0 ls]; [contradiction|].
      inversion Hmax as [|x xs Hx _]; subst.
      assert (l0 = []) as ->.
      { destruct l0; [reflexivity|]. unfold len in Hx. cbn in Hx. lia. }
      left; reflexivity.
  - intros op fl sub rune r0 mn mx H1 H2 H3 H4 H5.
    destruct op; try reflexivity; contradiction.
Qed.

(** [ab(cde)+f]: the longest of ["ab"], ["cde"] and ["f"]. *)
Lemma longestLiteral_rules_witness :
  Forall2 (fun s l => longestLiteral s = Some l)
    [leaf OpLiteral 0 [97; 98];
     unary OpPlus (leaf OpLiteral 0 [99; 100; 101]);
     leaf OpLiteral 0 [102]]
    [bytes_of "ab"; bytes_of "cde"; bytes_of "f"]
  /\ exists l,
       longestLiteral
         (nary OpConcat
            [leaf OpLiteral 0 [97; 98];
             unary OpPlus (leaf OpLiteral 0 [99; 100; 101]);
             leaf OpLiteral 0 [102]]) = Some l
       /\ len l = 3.
Proof.
  assert (H : Forall2 (fun s l => longestLiteral s = Some l)
                [leaf OpLiteral 0 [97; 98];
                 unary OpPlus (leaf OpLiteral 0 [99; 100; 101]);
                 leaf OpLiteral 0 [102]]
                [bytes_of "ab"; bytes_of "cde"; bytes_of "f"])
    by (repeat constructor).
  split; [exact H|].
  destruct (proj1 (proj2 (proj2 (proj2 (proj2 longestLiteral_rules))))
              0 _ [] (0, 0) 0 0 _ H) as (l & Hl & _ & Hin & Hmax).
  exists l. split; [exact Hl|].
  assert (Hin' : In l [bytes_of "ab"; bytes_of "cde"; bytes_of "f"])
    by (apply Hin; discriminate).
  inversion Hmax as [|x1 xs1 _ Hmax1]; subst.
  inversion Hmax1 as [|x2 xs2 H2 _]; subst.
  destruct Hin' as [<-|[<-|[<-|[]]]]; cbn in *; solve [reflexivity | lia].
Defined.

(** ** The driver's limit *)

Lemma effectiveLimit_range limit :
  0 < effectiveLimit limit /\ effectiveLimit limit <= maxFileMatches
  /\ (0 < limit /\ limit <= maxFileMatches -> effectiveLimit limit = limit)
  /\ (~ (0 < limit /\ limit <= maxFileMatches)
      -> effectiveLimit limit = maxFileMatches).
Proof.
  unfold effectiveLimit, maxFileMatches.
  destruct (limit >? 1000) eqn:H1; destruct (limit <=? 0) eqn:H2; cbn;
    repeat split; intros; lia.
Qed.

Section Limit.

Variable L : GoLib.

Lemma pathOnly_bounded rg limit :
  forall fs acc ms lh,
    len acc <= limit ->
    pathOnly L rg limit fs acc = (ms, lh) ->
    len ms <= limit /\ (lh = true -> len ms = limit).
Proof.
  induction fs as [|f fs IH]; intros acc ms lh Hacc H; cbn in H.
  - inversion H; subst. split; [exact Hacc|discriminate].
  - destruct (_ && _).
    + destruct (len acc <? limit) eqn:Hlt.
      * apply IH in H; [exact H|]. rewrite len_app. cbn. lia.
      * inversion H; subst. split; [exact Hacc|]. intros _. lia.
    + apply IH in H; assumption.
Qed.

Lemma step_bounded zf limit pmp d e :
  bounded limit d -> bounded limit (step L zf limit pmp d e).
Proof.
  unfold bounded. intros [H1 H2].
  destruct e as [i| |]; cbn; [|split; assumption|split; assumption].
  unfold stepWorker.
  destruct (crashed d); [split; assumption|].
  destruct (nth_error (workers d) i) as [w|]; [|split; assumption].
  destruct (at_ w) as [| |f|fm|]; cbn.
  - destruct (ctxErr d); cbn; split; assumption.
  - destruct (files d); cbn; split; assumption.
  - destruct (negb _); cbn; [split; assumption|].
    destruct (FindZip (wrg w) zf f) as [[rg' [fm [err|]]]|]; cbn;
      [unfold latch; cbn; destruct (wgErrOnce d); cbn| |];
      split; assumption.
  - destruct (len (matches d) <? limit) eqn:Hlt; cbn.
    + rewrite len_app. cbn. split; [lia|]. intros Hh.
      apply H2 in Hh. lia.
    + split; [exact H1|]. intros _. lia.
  - split; assumption.
Qed.

End Limit.

(** C6: the effective limit is [fileMatchLimit] clamped into
    [(0, maxFileMatches]]; under every interleaving the returned list has
    at most that many elements, and [limitHit] implies that it has exactly
    that many (also on the path-only branch). *)
Theorem concurrentFind_limit L sched rg zf fileMatchLimit pmc pmp fm lh err :
  concurrentFind L sched rg zf fileMatchLimit pmc pmp = Some (fm, lh, err) ->
  0 < effectiveLimit fileMatchLimit
  /\ effectiveLimit fileMatchLimit <= maxFileMatches
  /\ (0 < fileMatchLimit /\ fileMatchLimit <= maxFileMatches ->
      effectiveLimit fileMatchLimit = fileMatchLimit)
  /\ (~ (0 < fileMatchLimit /\ fileMatchLimit <= maxFileMatches) ->
      effectiveLimit fileMatchLimit = maxFileMatches)
  /\ len fm <= effectiveLimit fileMatchLimit
  /\ (lh = true -> len fm = effectiveLimit fileMatchLimit).
Proof.
  intros H.
  destruct (effectiveLimit_range fileMatchLimit) as (E1 & E2 & E3 & E4).
  do 4 (split; [assumption|]).
  unfold concurrentFind in H.
  destruct (pmp && _).
  - destruct (pathOnly _ _ _ _ _) as [m l] eqn:Hp. inversion H; subst.
    eapply pathOnly_bounded; [|exact Hp]. cbn. lia.
  - set (d := fold_left _ sched (start rg zf)) in H.
    assert (Hb : bounded (effectiveLimit fileMatchLimit) d).
    { apply (fold_step_invariant L (bounded (effectiveLimit fileMatchLimit))).
      - intros d0 e. apply step_bounded.
      - split; cbn; [lia|discriminate]. }
    destruct (crashed d); [discriminate|].
    destruct (forallb exited (workers d)); [|discriminate].
    inversion H; subst. exact Hb.
Qed.

(** Three files with one match each and [fileMatchLimit = 2]. *)
Lemma concurrentFind_limit_witness :
  concurrentFind plainLib (soloSchedule 14)
    (grepLiteral (bytes_of "foo") false) threeFiles 2 true false
  = Some ([{| Path := "a";
              LineMatches := [lineMatch (bytes_of "foo") 0 0 3 false];
              FileLimitHit := false |};
           {| Path := "b";
              LineMatches := [lineMatch (bytes_of "a foo") 0 2 3 false];
              FileLimitHit := false |}], true, None)
  /\ len [{| Path := "a";
             LineMatches := [lineMatch (bytes_of "foo") 0 0 3 false];
             FileLimitHit := false |};
          {| Path := "b";
             LineMatches := [lineMatch (bytes_of "a foo") 0 2 3 false];
             FileLimitHit := false |}] = effectiveLimit 2.
Proof.
  assert (H : concurrentFind plainLib (soloSchedule 14)
                (grepLiteral (bytes_of "foo") false) threeFiles 2 true false
              = Some ([{| Path := "a";
                          LineMatches :=
                            [lineMatch (bytes_of "foo") 0 0 3 false];
                          FileLimitHit := false |};
                       {| Path := "b";
                          LineMatches :=
                            [lineMatch (bytes_of "a foo") 0 2 3 false];
                          FileLimitHit := false |}], true, None))
    by (vm_compute; reflexivity).
  split; [exact H|].
  apply (concurrentFind_limit _ _ _ _ _ _ _ _ _ _ H). reflexivity.
Defined.

(** ** The empty pattern *)

Section EmptyPattern.

Variable L : GoLib.

Lemma compile_empty p rg err :
  compile L p = Some (Some rg, err) ->
  Pattern p = EmptyString ->
  re rg = None /\ literalSubstring rg = [].
Proof.
  unfold compile. intros H Hp. rewrite Hp in H. cbn in H.
  destruct (pathmatch_CompilePathPatterns L _ _ _ _) as [mp|e];
    inversion H; subst. split; reflexivity.
Qed.

Lemma pathOnly_nil_regexp rg limit :
  re rg = None ->
  forall fs acc,
    len acc <= limit ->
    let pass := filter (fun f => pathmatch.MatchPath (matchPath rg)
                                   (store.Name f)) fs in
    pathOnly L rg limit fs acc
    = (acc ++ map (fun f => pathMatch (store.Name f))
                (firstn (Z.to_nat (limit - len acc)) pass),
       len pass >? limit - len acc).
Proof.
  intros Hre. induction fs as [|f fs IH]; intros acc Hacc; cbn zeta.
  - cbn. rewrite firstn_nil. cbn. rewrite app_nil_r.
    f_equal. unfold len in *. cbn [length]. lia.
  - cbn [pathOnly filter]. unfold matchString at 1. rewrite Hre.
    rewrite andb_true_r.
    destruct (pathmatch.MatchPath (matchPath rg) (store.Name f)).
    + destruct (len acc <? limit) eqn:Hlt.
      * rewrite IH by (rewrite len_app; cbn; lia).
        cbv zeta. rewrite len_app. cbn [len length].
        replace (Z.to_nat (limit - len acc))
          with (S (Z.to_nat (limit - (len acc + Z.of_nat 1)))) by lia.
        cbn [firstn map]. rewrite <- app_assoc. cbn [app].
        f_equal. unfold len in *. cbn [length].
        rewrite !Z.gtb_ltb. apply Bool.eq_iff_eq_true.
        rewrite !Z.ltb_lt. lia.
      * replace (Z.to_nat (limit - len acc)) with 0%nat by lia.
        cbn [firstn map]. rewrite app_nil_r. f_equal.
        unfold len in *. cbn [length].
        rewrite Z.gtb_ltb. symmetry. apply Z.ltb_lt.
        apply Z.ltb_ge in Hlt. lia.
    + apply IH. exact Hacc.
Qed.

End EmptyPattern.

(** Where the pattern is to match paths, the empty pattern does what the
    comments on [readerGrep.re] and on the fast path say: it compiles to a
    matcher without regexp, and the driver returns, with a nil error and
    whatever the interleaving, the files that pass the path filter in
    archive order, cut at the effective file-match limit, with [limitHit]
    exactly when more files pass than the limit. *)
Theorem emptyPattern_pathOnly L p rg err sched zf fileMatchLimit pmc :
  compile L p = Some (Some rg, err) ->
  Pattern p = EmptyString ->
  re rg = None
  /\ concurrentFind L sched rg zf fileMatchLimit pmc true
     = Some (map (fun f => pathMatch (store.Name f))
               (firstn (Z.to_nat (effectiveLimit fileMatchLimit))
                  (passing rg zf)),
             len (passing rg zf) >? effectiveLimit fileMatchLimit,
             None).
Proof.
  intros Hc Hp. destruct (compile_empty L p rg err Hc Hp) as [Hre _].
  split; [exact Hre|].
  unfold concurrentFind. rewrite Hre. cbn [isNil].
  rewrite orb_true_r. cbn [andb].
  pose proof (effectiveLimit_range fileMatchLimit) as (E1 & _).
  rewrite (pathOnly_nil_regexp L rg (effectiveLimit fileMatchLimit) Hre)
    by (cbn; lia).
  cbn [app len length]. rewrite Z.sub_0_r. reflexivity.
Qed.

Lemma emptyPattern_pathOnly_witness :
  compile plainLib emptyPattern = Some (Some matchAll, None)
  /\ concurrentFind plainLib [] matchAll
       (archive [file "a.go" []; file "b.go" []; file "c.go" []]) 2
       false true
     = Some ([pathMatch "a.go"; pathMatch "b.go"], true, None).
Proof.
  split; [reflexivity|].
  apply (emptyPattern_pathOnly plainLib emptyPattern matchAll None []
           (archive [file "a.go" []; file "b.go" []; file "c.go" []])
           2 false eq_refl eq_refl).
Defined.

(** C3: the empty pattern on contents.  [compile] gives the empty
    pattern a nil regexp, which [matchString] and the fast path of
    [concurrentFind] read as matching everything.  With
    [patternMatchesPaths] unset the nil regexp reaches [Find], whose call
    [rg.re.FindIndex] dereferences it: on an archive of one file that
    passes the path filter the worker panics on that file, and
    [concurrentFind] reports nothing, whether [patternMatchesContent] is
    set or left to its default.  With [patternMatchesPaths] set the same
    file is reported. *)
Theorem emptyPattern_content_only_evaluated :
  compile plainLib emptyPattern = Some (Some matchAll, None)
  /\ re matchAll = None
  /\ matchString plainLib matchAll "a.go" = true
  /\ pathmatch.MatchPath (matchPath matchAll) "a.go" = true
  /\ Find matchAll (archive [file "a.go" []]) (file "a.go" []) = None
  /\ crashed
       (fold_left
          (step plainLib (archive [file "a.go" []]) (effectiveLimit 0) false)
          [Run 0; Run 0; Run 0]%nat
          (start matchAll (archive [file "a.go" []]))) = true
  /\ concurrentFind plainLib (soloSchedule 3) matchAll
       (archive [file "a.go" []]) 0 true false = None
  /\ concurrentFind plainLib (soloSchedule 3) matchAll
       (archive [file "a.go" []]) 0 false false = None
  /\ concurrentFind plainLib (soloSchedule 3) matchAll
       (archive [file "a.go" []]) 0 true true
     = Some ([pathMatch "a.go"], false, None).
Proof. repeat split. Qed.

(** ** The literal pre-filter and what the regexp matches *)

Lemma substring_nil t : substring [] t.
Proof. exists [], t. reflexivity. Qed.

Lemma substring_refl t : substring t t.
Proof. exists [], []. cbn. rewrite app_nil_r. reflexivity. Qed.

Lemma substring_app_l lit a b : substring lit a -> substring lit (a ++ b).
Proof.
  intros (u & v & ->). exists u, (v ++ b). rewrite <- !app_assoc. reflexivity.
Qed.

Lemma substring_app_r lit a b : substring lit b -> substring lit (a ++ b).
Proof.
  intros (u & v & ->). exists (a ++ u), v. rewrite <- !app_assoc. reflexivity.
Qed.

Lemma string_of_runes_app a b :
  utf8.string_of_runes (a ++ b)
  = utf8.string_of_runes a ++ utf8.string_of_runes b.
Proof. unfold utf8.string_of_runes. apply flat_map_app. Qed.

Lemma foldFree_node op fl sub rune r0 mn mx :
  foldFree (Node op fl sub rune r0 mn mx) = true ->
  (op = OpLiteral -> folds fl = false) /\ forallb foldFree sub = true.
Proof.
  cbn [foldFree]. intros H. apply andb_true_iff in H. destruct H as [H1 H2].
  split; [|exact H2]. intros ->.
  destruct (folds fl); [discriminate|reflexivity].
Qed.

Ltac empty_literal H :=
  cbn in H; inversion H; subst; apply substring_nil.

(** On a tree without case-folded literals, the extracted literal occurs
    in the bytes of every match. *)
Lemma longestLiteral_sound_mut :
  (forall re pre s post,
      Matches re pre s post ->
      foldFree re = true ->
      forall lit, longestLiteral re = Some lit ->
                  substring lit (utf8.string_of_runes s))
  /\ (forall subs pre s post,
         MatchesSeq subs pre s post ->
         forallb foldFree subs = true ->
         forall acc lit,
           overSubs longestLiteral subs acc = Some lit ->
           lit = acc \/ substring lit (utf8.string_of_runes s))
  /\ (forall c n pre s post,
         MatchesRep c n pre s post ->
         foldFree c = true ->
         (1 <= n)%nat ->
         forall lit, longestLiteral c = Some lit ->
                     substring lit (utf8.string_of_runes s)).
Proof.
  apply Matches_mutind.
  - intros; empty_literal H0.
  - (* literal *)
    intros fl sub rune r0 mn mx pre post _ _ lit H.
    cbn in H. inversion H; subst. apply substring_refl.
  - (* folded literal: excluded *)
    intros fl sub rune r0 mn mx pre s post Hf _ Hff lit _.
    apply foldFree_node in Hff. destruct Hff as [Hff _].
    rewrite (Hff eq_refl) in Hf. discriminate.
  - intros; empty_literal H1.
  - intros; empty_literal H1.
  - intros; empty_literal H0.
  - intros; empty_literal H1.
  - intros; empty_literal H1.
  - intros; empty_literal H0.
  - intros; empty_literal H0.
  - intros; empty_literal H1.
  - intros; empty_literal H1.
  - (* capture *)
    intros fl c rest rune r0 mn mx pre s post _ IH Hff lit H.
    apply foldFree_node in Hff. destruct Hff as [_ Hff].
    cbn in Hff. apply andb_true_iff in Hff. destruct Hff as [Hc _].
    apply IH; assumption.
  - intros; empty_literal H2.
  - (* plus *)
    intros fl c rest rune r0 mn mx n pre s post Hn _ IH Hff lit H.
    apply foldFree_node in Hff. destruct Hff as [_ Hff].
    cbn in Hff. apply andb_true_iff in Hff. destruct Hff as [Hc _].
    apply IH; assumption.
  - intros; empty_literal H3.
  - (* repeat *)
    intros fl c rest rune r0 mn mx n pre s post Hmin _ _ IH Hff lit H.
    apply foldFree_node in Hff. destruct Hff as [_ Hff].
    cbn in Hff. apply andb_true_iff in Hff. destruct Hff as [Hc _].
    cbn in H. destruct (mn >=? 1) eqn:Hm.
    + apply IH; [assumption|lia|assumption].
    + inversion H; subst. apply substring_nil.
  - (* concat *)
    intros fl sub rune r0 mn mx pre s post _ IH Hff lit H.
    apply foldFree_node in Hff. destruct Hff as [_ Hff].
    cbn [longestLiteral] in H.
    destruct (IH Hff [] lit H) as [->|Hs]; [apply substring_nil|exact Hs].
  - intros; empty_literal H3.
  - (* no child *)
    intros pre post _ acc lit H. cbn in H. inversion H. left; reflexivity.
  - (* a child, then the others *)
    intros c cs pre s1 s2 post _ IHc _ IHs Hff acc lit H.
    cbn in Hff. apply andb_true_iff in Hff. destruct Hff as [Hc Hcs].
    cbn [overSubs] in H.
    destruct (longestLiteral c) as [l|] eqn:Hl; [|discriminate].
    rewrite string_of_runes_app.
    destruct (IHs Hcs _ _ H) as [Heq|Hs].
    + destruct (longer_cases l acc) as [[He _]|[He _]]; rewrite He in Heq.
      * right. apply substring_app_l. subst lit. apply IHc; auto.
      * left. exact Heq.
    + right. apply substring_app_r. exact Hs.
  - (* zero repetitions *)
    intros c pre post _ Hn. lia.
  - (* one more repetition *)
    intros c n pre s1 s2 post _ IHc _ _ Hc _ lit H.
    rewrite string_of_runes_app. apply substring_app_l. apply IHc; auto.
Qed.

Lemma longestLiteral_sound re pre s post lit :
  foldFree re = true ->
  Matches re pre s post ->
  longestLiteral re = Some lit ->
  substring lit (utf8.string_of_runes s).
Proof.
  intros Hf Hm Hl. exact (proj1 longestLiteral_sound_mut _ _ _ _ Hm Hf _ Hl).
Qed.

(** The pre-filter exit of [Find]. *)
Lemma Find_without_literal rg zf f out :
  Find rg zf f = Some out ->
  bytes.Contains (fileMatchBuf rg f) (literalSubstring rg) = false ->
  snd out = ([], false, None).
Proof.
  unfold Find. intros H Hc.
  destruct (matchBuffer rg zf (store.DataFor zf f)) as [[tb buf]|] eqn:Hb;
    [|discriminate].
  apply matchBuffer_buf in Hb. subst buf. rewrite Hc in H. cbn in H.
  inversion H. reflexivity.
Qed.

(** C4: the matcher compiled from the regexp [(?i)foo] under a
    case-sensitive search.  The tree is a literal with [FoldCase] and the
    runes ["FOO"]; the extracted pre-filter is ["FOO"]; the regexp matches
    the text ["foo"], which does not contain ["FOO"]; and [Find] on the
    file ["foo"] stops at the pre-filter and returns no line match. *)
Theorem longestLiteral_foldCase_evaluated :
  compile fooLib fooPattern = Some (Some fooGrep, None)
  /\ longestLiteral foldedFoo = Some (bytes_of "FOO")
  /\ Matches foldedFoo [] [102; 111; 111] []
  /\ utf8.string_of_runes [102; 111; 111] = bytes_of "foo"
  /\ ~ substring (bytes_of "FOO") (bytes_of "foo")
  /\ regexp.FindIndex foldedFooRegexp (bytes_of "foo") = Some (0, 3)
  /\ FindOut fooGrep (oneFile "a.txt" (bytes_of "foo"))
       (file "a.txt" (bytes_of "foo"))
     = Some ([], false, None).
Proof.
  split; [reflexivity|]. split; [reflexivity|]. split; [|split; [|split]].
  - apply MLiteralFold; [reflexivity|].
    repeat constructor; right; reflexivity.
  - reflexivity.
  - intros (u & v & H).
    destruct u as [|a [|b [|c [|d u]]]]; cbn in H; try discriminate.
  - split; reflexivity.
Qed.

(** ** The case folder on a class with two gaps *)

(** C5: [lowerRegexpASCII] on the class [[^AZ]].  Only the first gap is
    carried over to lower case: the rewritten class leaves out ['a'] but
    still holds ['z'], so it matches ["z"], the lowered form of ["Z"],
    while the class read under the case-insensitive flag admits neither
    ["Z"] nor ["z"]. *)
Theorem lowerRegexpASCII_two_gaps_evaluated (table : Z -> Z) :
  lowerRegexpASCII table notAZ = Some notAZlowered
  /\ map z2b [122] = bytesToLowerASCII (map z2b [90])
  /\ Matches notAZlowered [] [122] []
  /\ ~ Matches notAZlowered [] [97] []
  /\ ciClassMem (Rune notAZ) 90 = false
  /\ ciClassMem (Rune notAZ) 122 = false
  /\ ciClassMem (Rune notAZ) 65 = false
  /\ ciClassMem (Rune notAZ) 97 = false.
Proof.
  split; [reflexivity|]. split; [reflexivity|]. split; [|split].
  - apply MCharClass. reflexivity.
  - intros H. inversion H; subst. discriminate.
  - repeat split.
Qed.

(** ** [readAll] *)

(** A reader that reports [io.EOF] after the last byte: [readAll] returns
    a nil error exactly when the stream fits the buffer. *)
Lemma slice_tail {A : Type} (b : list A) m :
  0 <= m -> m <= len b ->
  slice b m (len b) = Some (skipn (Z.to_nat m) b).
Proof.
  intros H0 H1. unfold slice.
  rewrite (proj2 (Z.leb_le 0 m) H0), (proj2 (Z.leb_le m (len b)) H1).
  rewrite Z.leb_refl. cbn [andb]. f_equal.
  apply firstn_all2. rewrite length_skipn. unfold len. lia.
Qed.

Lemma readAll_lazyReader data b :
  readAll 2 (Lazy data) b
  = if len data <=? len b
    then Some (len data, None, Lazy [])
    else Some (len b, Some ErrReaderTooLarge,
               Lazy (skipn (S (length b)) data)).
Proof.
  unfold readAll. cbn [readAllLoop].
  pose proof (len_nonneg b) as Hb. pose proof (len_nonneg data) as Hd.
  destruct (Z.eqb_spec (len b) 0) as [Hb0|Hb0].
  - (* no room at all: only the probe *)
    assert (b = []) as ->.
    { destruct b; [reflexivity|]. unfold len in Hb0. cbn [length] in Hb0. lia. }
    unfold Read, lazyRead. cbn [lazyRest].
    destruct data as [|c data]; [reflexivity|].
    cbn [isEOF].
    destruct (Z.leb_spec (len (c :: data)) (len (@nil byte))) as [H|H].
    + unfold len in H. cbn [length] in H. lia.
    + reflexivity.
  - unfold Read at 1, lazyRead. cbn [lazyRest].
    destruct data as [|c data].
    + (* an empty stream reports EOF at once *)
      cbn [isEOF]. rewrite slice_tail by (unfold len; cbn [length]; lia).
      destruct (Z.leb_spec (len (@nil byte)) (len b)) as [H|H];
        [|unfold len in *; cbn [length] in *; lia].
      reflexivity.
    + set (d := c :: data) in *.
      set (m := len (firstn (Z.to_nat (len b)) d)).
      assert (Hm : m = Z.min (len b) (len d)).
      { unfold m, len. rewrite length_firstn. lia. }
      rewrite slice_tail by lia.
      set (b' := skipn (Z.to_nat m) b).
      assert (Hb' : len b' = len b - m).
      { unfold b', len. rewrite length_skipn. unfold len in *. lia. }
      destruct (Z.leb_spec (len d) (len b)) as [Hfit|Hfit].
      * (* everything was read: the next call reports EOF *)
        assert (Hrest : skipn (Z.to_nat (len b)) d = []).
        { apply skipn_all2. unfold len in *. lia. }
        rewrite Hrest.
        destruct (len b' =? 0);
          unfold Read, lazyRead; cbn [lazyRest isEOF].
        -- f_equal. f_equal. f_equal. lia.
        -- rewrite slice_tail
             by (pose proof (len_nonneg b'); unfold len in *;
                 cbn [length]; lia).
           f_equal. f_equal. f_equal. unfold len in *. cbn [length]. lia.
      * (* the buffer is full and the stream goes on *)
        destruct (Z.eqb_spec (len b') 0) as [_|Hn]; [|lia].
        unfold Read, lazyRead. cbn [lazyRest].
        destruct (skipn (Z.to_nat (len b)) d) as [|x rest] eqn:Hsk.
        { apply (f_equal (@length byte)) in Hsk.
          rewrite length_skipn in Hsk. cbn [length] in Hsk.
          unfold len in *. lia. }
        cbn [isEOF]. f_equal. f_equal; [f_equal; lia|].
        f_equal. unfold len in Hsk. rewrite Nat2Z.id in Hsk.
        change (S (length b)) with (1 + length b)%nat.
        rewrite <- (skipn_skipn 1 (length b) d), Hsk. reflexivity.
Qed.

(** C9: [readAll] on a reader that returns [io.EOF] together with the
    last byte.  The stream ["abcd"] is one byte longer than the buffer of
    capacity 3: the probe read takes the fourth byte and its [io.EOF], and
    [readAll] returns 3 with a nil error.  A reader that reports [io.EOF]
    on the call after gets the error. *)
Theorem readAll_eager_probe_evaluated :
  readAll 2 (Eager (bytes_of "abcd")) (repeat x00 3)
  = Some (3, None, Eager [])
  /\ Read (Eager (bytes_of "d")) 1 = (bytes_of "d", Some io_EOF, Eager [])
  /\ readAll 2 (Lazy (bytes_of "abcd")) (repeat x00 3)
     = Some (3, Some ErrReaderTooLarge, Lazy []).
Proof. repeat split. Qed.

(** * Further properties *)

(** ** [readAll] on any reader *)

Section AnyReader.

Context {R : Type} `{Reader R}.

Lemma readAllLoop_bounds :
  forall fuel (r : R) b n n' err r',
    readAllLoop fuel r b n = Some (n', err, r') ->
    n <= n' /\ n' <= n + len b /\ err <> Some io_EOF.
Proof.
  induction fuel as [|fuel IH]; intros r b n n' err r' Hr; [discriminate|].
  cbn [readAllLoop] in Hr.
  pose proof (len_nonneg b) as Hb.
  destruct (len b =? 0).
  - destruct (Read r 1) as [[d e] r1].
    destruct (isEOF e); inversion Hr; subst;
      repeat split; try lia; discriminate.
  - destruct (Read r (len b)) as [[d e] r1].
    pose proof (len_nonneg d) as Hd.
    destruct (slice b (len d) (len b)) as [b'|] eqn:Hs; [|discriminate].
    apply slice_spec in Hs. destruct Hs as (H0 & H1 & H2 & Hb').
    destruct e as [e|].
    + destruct (isEOF (Some e)) eqn:He; inversion Hr; subst.
      * repeat split; try lia; discriminate.
      * repeat split; try lia. intros Heq. inversion Heq; subst.
        discriminate.
    + apply IH in Hr. destruct Hr as (Ha & Hc & He).
      assert (Hl : len b' = len b - len d).
      { subst b'. unfold len. rewrite length_firstn, length_skipn.
        unfold len in *. lia. }
      repeat split; try lia. exact He.
Qed.

End AnyReader.

(** X1: whatever the reader does, the count [readAll] returns lies between
    0 and the length of the buffer. *)
Theorem readAll_count_within_buffer {R : Type} `{Reader R}
    fuel (r : R) b n err r' :
  readAll fuel r b = Some (n, err, r') ->
  0 <= n /\ n <= len b.
Proof.
  unfold readAll. intros Hr. apply readAllLoop_bounds in Hr. lia.
Qed.

Lemma readAll_count_within_buffer_witness :
  readAll 2 (Eager (bytes_of "abcd")) (repeat x00 3)
  = Some (3, None, Eager [])
  /\ 0 <= 3 /\ 3 <= len (repeat x00 3).
Proof.
  split; [reflexivity|].
  apply (readAll_count_within_buffer 2 (Eager (bytes_of "abcd"))
           (repeat x00 3) 3 None (Eager [])).
  reflexivity.
Defined.

(** X2: [readAll] never hands [io.EOF] on to its caller: the end of the
    stream is reported as a nil error. *)
Theorem readAll_never_returns_EOF {R : Type} `{Reader R}
    fuel (r : R) b n err r' :
  readAll fuel r b = Some (n, err, r') ->
  err <> Some io_EOF.
Proof.
  unfold readAll. intros Hr. apply readAllLoop_bounds in Hr. apply Hr.
Qed.

Lemma readAll_never_returns_EOF_witness :
  readAll 2 (Lazy (bytes_of "ab")) (repeat x00 3)
  = Some (2, None, Lazy [])
  /\ @None error <> Some io_EOF.
Proof.
  split; [reflexivity|].
  apply (readAll_never_returns_EOF 2 (Lazy (bytes_of "ab"))
           (repeat x00 3) 2 None (Lazy [])).
  reflexivity.
Defined.

(** ** [readAll] on a reader that ends with a call of its own *)

Section StreamReader.

Context {R : Type} `{Reader R}.
Variable rest : R -> list byte.
Hypothesis Hstream : reportsEOFAfterLast rest.

Lemma readAllLoop_stream :
  forall fuel (r : R) b n,
    (length b < fuel)%nat ->
    exists r',
      readAllLoop fuel r b n
      = Some (if len (rest r) <=? len b
              then (n + len (rest r), None, r')
              else (n + len b, Some ErrReaderTooLarge, r')).
Proof.
  destruct Hstream as [Hend Hsome].
  induction fuel as [|fuel IH]; intros r b n Hfuel; [lia|].
  cbn [readAllLoop].
  pose proof (len_nonneg b) as Hb.
  pose proof (len_nonneg (rest r)) as Hr.
  destruct (Z.eqb_spec (len b) 0) as [Hb0|Hb0].
  - destruct (rest r) as [|c t] eqn:Hrest.
    + destruct (Hend r 1 Hrest) as (r' & Hread & _).
      rewrite Hread. cbn [isEOF]. exists r'.
      rewrite Hb0. cbn. rewrite Z.add_0_r. reflexivity.
    + destruct (Hsome r 1) as (data & r' & Hread & _);
        [rewrite Hrest; discriminate|lia|].
      rewrite Hread. cbn [isEOF]. exists r'.
      destruct (Z.leb_spec (len (c :: t)) (len b)) as [Hle|Hgt].
      * unfold len in Hle, Hb0. cbn [length] in Hle. lia.
      * rewrite Hb0, Z.add_0_r. reflexivity.
  - destruct (rest r) as [|c t] eqn:Hrest.
    + destruct (Hend r (len b) Hrest) as (r' & Hread & _).
      rewrite Hread.
      unfold slice. change (len (@nil byte)) with 0.
      rewrite (proj2 (Z.leb_le 0 0)) by lia.
      rewrite (proj2 (Z.leb_le 0 (len b))) by lia.
      rewrite (proj2 (Z.leb_le (len b) (len b))) by lia.
      cbn [andb isEOF]. exists r'.
      destruct (Z.leb_spec 0 (len b)); [|lia]. reflexivity.
    + destruct (Hsome r (len b)) as (data & r' & Hread & Hne & Hk & Hsplit);
        [rewrite Hrest; discriminate|lia|].
      rewrite Hread.
      assert (Hd : 1 <= len data).
      { destruct data; [contradiction|]. unfold len. cbn [length]. lia. }
      unfold slice.
      rewrite (proj2 (Z.leb_le 0 (len data))) by lia.
      rewrite (proj2 (Z.leb_le (len data) (len b))) by lia.
      rewrite (proj2 (Z.leb_le (len b) (len b))) by lia.
      cbn [andb].
      set (b' := firstn (Z.to_nat (len b - len data))
                   (skipn (Z.to_nat (len data)) b)).
      assert (Hb' : len b' = len b - len data).
      { unfold b', len. rewrite length_firstn, length_skipn.
        unfold len in *. lia. }
      destruct (IH r' b' (n + len data)) as [r'' Hrec].
      { unfold len in *. lia. }
      exists r''. rewrite Hrec.
      assert (Hlen : len (c :: t) = len data + len (rest r')).
      { rewrite <- Hrest, Hsplit. apply len_app. }
      rewrite Hb', Hlen.
      destruct (Z.leb_spec (len (rest r')) (len b - len data));
        destruct (Z.leb_spec (len data + len (rest r')) (len b));
        try lia; f_equal; f_equal; f_equal; lia.
Qed.

End StreamReader.

(** X3: on a reader that reports [io.EOF] on the call after its last
    byte, and until then returns at least one byte and a nil error on
    each call, [readAll] returns within [len b + 1] turns of its loop: the
    length of the stream and a nil error when the stream fits the buffer,
    and otherwise the length of the buffer and the error "reader is too
    large". *)
Theorem readAll_until_EOF {R : Type} `{Reader R}
    (rest : R -> list byte) fuel (r : R) b :
  reportsEOFAfterLast rest ->
  (length b < fuel)%nat ->
  exists r',
    readAll fuel r b
    = Some (if len (rest r) <=? len b
            then (len (rest r), None, r')
            else (len b, Some ErrReaderTooLarge, r')).
Proof.
  intros Hstream Hfuel. unfold readAll.
  destruct (readAllLoop_stream rest Hstream fuel r b 0 Hfuel) as [r' Hr].
  exists r'. rewrite Hr. rewrite !Z.add_0_l. reflexivity.
Qed.

Lemma slowReader_stream : reportsEOFAfterLast slowRest.
Proof.
  split.
  - intros r k Hrest. exists r. split; [|exact Hrest].
    unfold Read, slowRead. rewrite Hrest. reflexivity.
  - intros r k Hrest Hk. unfold Read, slowRead.
    destruct (slowRest r) as [|c t]; [contradiction|].
    exists [c], (Slow t). repeat split.
    + discriminate.
    + unfold len. cbn [length]. lia.
Qed.

Lemma lazyReader_stream : reportsEOFAfterLast lazyRest.
Proof.
  split.
  - intros r k Hrest. exists r. split; [|exact Hrest].
    unfold Read, lazyRead. rewrite Hrest. reflexivity.
  - intros r k Hrest Hk. unfold Read, lazyRead.
    destruct (lazyRest r) as [|c t] eqn:Hr; [contradiction|].
    exists (firstn (Z.to_nat k) (c :: t)),
      (Lazy (skipn (Z.to_nat k) (c :: t))).
    split; [reflexivity|]. split.
    + replace (Z.to_nat k) with (S (Z.to_nat (k - 1))) by lia.
      discriminate.
    + split.
      * unfold len. rewrite length_firstn. lia.
      * cbn [lazyRest]. symmetry. apply firstn_skipn.
Qed.

Lemma readAll_until_EOF_witness :
  (length (repeat x00 3) < 4)%nat
  /\ exists r',
       readAll 4 (Slow (bytes_of "ab")) (repeat x00 3)
       = Some (if len (slowRest (Slow (bytes_of "ab")))
                  <=? len (repeat x00 3)
               then (len (slowRest (Slow (bytes_of "ab"))), None, r')
               else (len (repeat x00 3), Some ErrReaderTooLarge, r')).
Proof.
  split; [cbn; lia|].
  apply (readAll_until_EOF slowRest 4 (Slow (bytes_of "ab"))
           (repeat x00 3) slowReader_stream).
  cbn. lia.
Defined.

(** ** The literal extractor on parsed trees *)

Lemma Regexp_nested_ind (P : Regexp -> Prop) :
  (forall op fl sub rune r0 mn mx,
      Forall P sub -> P (Node op fl sub rune r0 mn mx)) ->
  forall re, P re.
Proof.
  intros Hnode. fix IH 1. intros [op fl sub rune r0 mn mx].
  apply Hnode. induction sub as [|c sub IHsub]; constructor.
  - apply IH.
  - exact IHsub.
Qed.

Lemma overSubs_total (f : Regexp -> option (list byte)) subs :
  Forall (fun s => exists l, f s = Some l) subs ->
  forall longest, exists l, overSubs f subs longest = Some l.
Proof.
  induction 1 as [|s subs [l Hl] _ IH]; intros longest; cbn [overSubs].
  - exists longest. reflexivity.
  - rewrite Hl. apply IH.
Qed.

(** X4: [longestLiteral] returns, without an index out of range, on every
    tree whose captures and repetitions have a child. *)
Theorem longestLiteral_returns re :
  childful re = true -> exists lit, longestLiteral re = Some lit.
Proof.
  induction re as [op fl sub rune r0 mn mx IH] using Regexp_nested_ind.
  intros Hc. cbn [childful] in Hc. apply andb_true_iff in Hc.
  destruct Hc as [Hop Hsub].
  assert (Hall : Forall (fun s => exists l, longestLiteral s = Some l) sub).
  { rewrite forallb_forall in Hsub. rewrite Forall_forall in *.
    intros s Hs. apply IH; [exact Hs|]. apply Hsub. exact Hs. }
  destruct op; cbn [longestLiteral]; try (eexists; reflexivity).
  - destruct sub as [|c rest]; [discriminate|].
    inversion Hall; subst. assumption.
  - destruct sub as [|c rest]; [discriminate|].
    inversion Hall; subst. assumption.
  - destruct (mn >=? 1); [|eexists; reflexivity].
    destruct sub as [|c rest]; [discriminate|].
    inversion Hall; subst. assumption.
  - apply overSubs_total. exact Hall.
Qed.

Lemma longestLiteral_returns_witness :
  childful abCdeF = true
  /\ exists lit, longestLiteral abCdeF = Some lit.
Proof.
  split; [reflexivity|]. apply longestLiteral_returns. reflexivity.
Defined.

(** X5: on a tree without case-folded literals, the literal that
    [longestLiteral] extracts occurs in the bytes of every text the tree
    matches. *)
Theorem longestLiteral_in_every_match re pre s post lit :
  foldFree re = true ->
  Matches re pre s post ->
  longestLiteral re = Some lit ->
  substring lit (utf8.string_of_runes s).
Proof.
  intros Hf Hm Hl. exact (proj1 longestLiteral_sound_mut _ _ _ _ Hm Hf _ Hl).
Qed.

(** [ab(cde)+f] matches ["abcdecdef"], which holds ["cde"]. *)
Lemma longestLiteral_in_every_match_witness :
  foldFree abCdeF = true
  /\ Matches abCdeF [] [97; 98; 99; 100; 101; 99; 100; 101; 102] []
  /\ longestLiteral abCdeF = Some (bytes_of "cde")
  /\ substring (bytes_of "cde") (bytes_of "abcdecdef").
Proof.
  assert (Hm : Matches abCdeF []
                 [97; 98; 99; 100; 101; 99; 100; 101; 102] []).
  { apply MConcat.
    apply (SeqCons _ _ [] [97; 98] [99; 100; 101; 99; 100; 101; 102] []).
    - apply MLiteral. reflexivity.
    - apply (SeqCons _ _ [97; 98] [99; 100; 101; 99; 100; 101] [102] []).
      + apply (MPlus _ _ _ _ _ _ _ 2%nat); [lia|].
        apply (RepS _ _ [97; 98] [99; 100; 101] [99; 100; 101] [102]).
        * apply MLiteral. reflexivity.
        * apply (RepS _ _ _ [99; 100; 101] [] [102]).
          -- apply MLiteral. reflexivity.
          -- apply RepO.
      + apply (SeqCons _ _ _ [102] [] []).
        * apply MLiteral. reflexivity.
        * apply SeqNil. }
  split; [reflexivity|]. split; [exact Hm|]. split; [reflexivity|].
  apply (longestLiteral_in_every_match abCdeF [] _ [] (bytes_of "cde")
           eq_refl Hm eq_refl).
Defined.

(** ** The case folder where it is right *)

Lemma pair_ind {A : Type} (P : list A -> Prop) :
  P [] -> (forall x, P [x]) ->
  (forall x y l, P l -> P (x :: y :: l)) ->
  forall l, P l.
Proof.
  intros H0 H1 H2. fix IH 1. intros [|x [|y l]].
  - exact H0.
  - apply H1.
  - apply H2. apply IH.
Qed.

Lemma classMem_app a :
  Nat.even (length a) = true ->
  forall b c, classMem (a ++ b) c = classMem a c || classMem b c.
Proof.
  induction a as [|x|x y a IH] using pair_ind; intros He b c.
  - reflexivity.
  - discriminate.
  - cbn [app classMem]. rewrite IH by exact He. apply orb_assoc.
Qed.

Lemma swapCase_cases c :
  (65 <= c <= 90 /\ swapCase c = c + 32)
  \/ (97 <= c <= 122 /\ swapCase c = c - 32)
  \/ (~ 65 <= c <= 90 /\ ~ 97 <= c <= 122 /\ swapCase c = c).
Proof.
  unfold swapCase.
  destruct (Z.leb_spec 65 c); destruct (Z.leb_spec c 90);
    destruct (Z.leb_spec 97 c); destruct (Z.leb_spec c 122); cbn;
    intuition lia.
Qed.

Lemma unicode_ToLower_upper table r :
  65 <= r <= 90 -> unicode_ToLower table r = r + 32.
Proof.
  intros Hr. unfold unicode_ToLower.
  destruct (Z.leb_spec r 127); [|lia].
  destruct (Z.leb_spec 65 r); [|lia].
  destruct (Z.leb_spec r 90); [|lia]. cbn. lia.
Qed.

Lemma inRange_iff lo hi c :
  (lo <=? c) && (c <=? hi) = true <-> lo <= c <= hi.
Proof. rewrite andb_true_iff, !Z.leb_le. tauto. Qed.

Lemma lowerRanges_mem table c :
  ~ 65 <= c <= 90 ->
  forall r upd app,
    lowerRanges table r = Some (upd, app) ->
    Nat.even (length upd) = true /\
    (classMem upd c || classMem app c = true <->
     classMem r c || classMem r (swapCase c) = true).
Proof.
  intros Hc r. induction r as [|x|a b rest IH] using pair_ind;
    intros upd app Hl.
  - cbn in Hl. inversion Hl; subst. split; [reflexivity|]. cbn. tauto.
  - discriminate.
  - cbn [lowerRanges] in Hl.
    destruct (lowerRanges table rest) as [[upd0 app0]|]; [|discriminate].
    destruct (IH upd0 app0 eq_refl) as [He IHm]. clear IH.
    rewrite !orb_true_iff in IHm.
    rewrite !Z.gtb_ltb in Hl.
    cbn [classMem]. rewrite !orb_true_iff, !inRange_iff.
    destruct (Z.ltb_spec 90 a) as [Ha90|Ha90];
      [|destruct (Z.ltb_spec b 65) as [Hb65|Hb65]];
      cbn [orb] in Hl.
    + inversion Hl; subst. split; [exact He|].
      cbn [classMem]. rewrite !orb_true_iff, !inRange_iff.
      destruct (swapCase_cases c) as [[? ?]|[[? Hs]|(? & ? & Hs)]];
        [lia| |]; rewrite Hs in *; intuition lia.
    + inversion Hl; subst. split; [exact He|].
      cbn [classMem]. rewrite !orb_true_iff, !inRange_iff.
      destruct (swapCase_cases c) as [[? ?]|[[? Hs]|(? & ? & Hs)]];
        [lia| |]; rewrite Hs in *; intuition lia.
    + destruct (Z.ltb_spec a 65) as [Ha65|Ha65];
        destruct (Z.ltb_spec 90 b) as [Hb90|Hb90];
        cbn [negb andb] in Hl;
        rewrite !unicode_ToLower_upper in Hl by lia;
        inversion Hl; subst; (split; [exact He|]);
        cbn [classMem]; rewrite !orb_true_iff, !inRange_iff;
        destruct (swapCase_cases c) as [[? ?]|[[? Hs]|(? & ? & Hs)]];
        try lia; rewrite Hs in *; intuition lia.
Qed.

Lemma coversLower_mem c :
  97 <= c <= 122 ->
  forall r, coversLower r = Some true -> classMem r c = true.
Proof.
  intros Hc r. induction r as [|x|a b rest IH] using pair_ind; intros H.
  - discriminate.
  - discriminate.
  - cbn [coversLower] in H. cbn [classMem].
    destruct ((a <=? 97) && (b >=? 122)) eqn:Hab.
    + apply andb_true_iff in Hab. destruct Hab as [H1 H2].
      apply Z.leb_le in H1. rewrite Z.geb_leb in H2. apply Z.leb_le in H2.
      apply orb_true_iff. left. apply inRange_iff. lia.
    + apply orb_true_iff. right. apply IH. exact H.
Qed.

(** X6: on a class that is not read as negated, the rewritten class holds
    a rune outside ['A'..'Z'] exactly when the original class holds the
    rune or its other case: on lowered input it matches what the original
    matches without regard to case. *)
Theorem lowerRegexpASCII_inclusive_class
    table fl sub rune r0 mn mx re' c :
  isExclusion rune = false ->
  lowerRegexpASCII table (Node OpCharClass fl sub rune r0 mn mx) = Some re' ->
  ~ 65 <= c <= 90 ->
  classMem (Rune re') c = classMem rune c || classMem rune (swapCase c).
Proof.
  intros Hex Hl Hc. cbn [lowerRegexpASCII] in Hl.
  destruct (eachSub (lowerRegexpASCII table) sub) as [sub'|]; [|discriminate].
  rewrite Hex in Hl.
  destruct (coversLower rune) as [[|]|] eqn:Hcov; [| |discriminate].
  - inversion Hl; subst. cbn [Rune].
    destruct (swapCase_cases c) as [[? ?]|[[Hlow Hs]|(? & ? & Hs)]];
      [lia| |].
    + rewrite (coversLower_mem c Hlow rune Hcov). reflexivity.
    + rewrite Hs. symmetry. apply orb_diag.
  - destruct (lowerRanges table rune) as [[upd app]|] eqn:Hr; [|discriminate].
    inversion Hl; subst. cbn [Rune].
    destruct (lowerRanges_mem table c Hc rune upd app Hr) as [He Hm].
    rewrite classMem_app by exact He.
    apply Bool.eq_iff_eq_true. exact Hm.
Qed.

(** [[B-Dx0-9]] holds ['c'] after the rewriting, as the original holds
    ['C']. *)
Lemma lowerRegexpASCII_inclusive_class_witness :
  isExclusion [48; 57; 66; 68; 120; 120] = false
  /\ lowerRegexpASCII (fun r => r)
       (leaf OpCharClass 0 [48; 57; 66; 68; 120; 120])
     = Some (Node OpCharClass 0 [] [48; 57; 98; 100; 120; 120] (48, 57) 0 0)
  /\ classMem [48; 57; 98; 100; 120; 120] 99
     = classMem [48; 57; 66; 68; 120; 120] 99
       || classMem [48; 57; 66; 68; 120; 120] (swapCase 99).
Proof.
  split; [reflexivity|]. split; [reflexivity|].
  apply (lowerRegexpASCII_inclusive_class (fun r => r) 0 []
           [48; 57; 66; 68; 120; 120] (48, 57) 0 0
           (Node OpCharClass 0 [] [48; 57; 98; 100; 120; 120] (48, 57) 0 0)
           99 eq_refl eq_refl).
  lia.
Defined.

Lemma lowered_literal_eq table :
  forall s rune,
    Forall (fun r => r <= 127) rune ->
    Forall (fun r => r <= 127) s ->
    (map asciiLower s = map (unicode_ToLower table) rune
     <-> Forall2 foldEq s rune).
Proof.
  assert (Hone : forall a b, a <= 127 -> b <= 127 ->
                   (asciiLower a = unicode_ToLower table b <-> foldEq a b)).
  { intros a b Ha Hb. unfold asciiLower, unicode_ToLower, foldEq.
    destruct (Z.leb_spec b 127); [|lia].
    destruct (swapCase_cases b) as [[? Hs]|[[? Hs]|(? & ? & Hs)]];
      rewrite Hs;
      destruct (Z.leb_spec 65 a); destruct (Z.leb_spec a 90);
      destruct (Z.leb_spec 65 b); destruct (Z.leb_spec b 90);
      cbn [andb]; intuition lia. }
  induction s as [|a s IH]; intros rune Hr Hs.
  - destruct rune; cbn; split; intros H; try discriminate;
      try constructor; inversion H.
  - destruct rune as [|b rune]; cbn [map].
    + split; intros H; [discriminate|inversion H].
    + inversion Hr; subst. inversion Hs; subst. split.
      * intros H. inversion H. constructor.
        -- apply Hone; assumption.
        -- apply IH; assumption.
      * intros H. inversion H; subst. f_equal.
        -- apply Hone; assumption.
        -- apply IH; assumption.
Qed.

(** X7: on a literal of ASCII runes without [FoldCase], the rewritten
    literal matches the lowered form of an ASCII text exactly when the
    text equals the original literal up to the case of its letters. *)
Theorem lowerRegexpASCII_literal
    table fl sub rune r0 mn mx re' pre s post :
  folds fl = false ->
  Forall (fun r => r <= 127) rune ->
  Forall (fun r => r <= 127) s ->
  lowerRegexpASCII table (Node OpLiteral fl sub rune r0 mn mx) = Some re' ->
  (Matches re' pre (map asciiLower s) post <-> Forall2 foldEq s rune).
Proof.
  intros Hf Hr Hs Hl. cbn [lowerRegexpASCII] in Hl.
  destruct (eachSub (lowerRegexpASCII table) sub) as [sub'|]; [|discriminate].
  inversion Hl; subst. clear Hl.
  rewrite <- (lowered_literal_eq table s rune Hr Hs). split.
  - intros Hm. inversion Hm; subst.
    + reflexivity.
    + congruence.
  - intros ->. apply MLiteral. exact Hf.
Qed.

(** The literal ["Foo"], rewritten to ["foo"], matches the lowered form of
    ["fOO"]. *)
Lemma lowerRegexpASCII_literal_witness :
  folds 0 = false
  /\ lowerRegexpASCII (fun r => r) (leaf OpLiteral 0 [70; 111; 111])
     = Some (leaf OpLiteral 0 [102; 111; 111])
  /\ (Matches (leaf OpLiteral 0 [102; 111; 111]) []
        (map asciiLower [102; 79; 79]) []
      <-> Forall2 foldEq [102; 79; 79] [70; 111; 111]).
Proof.
  split; [reflexivity|]. split; [reflexivity|].
  apply (lowerRegexpASCII_literal (fun r => r) 0 [] [70; 111; 111]
           (70, 111) 0 0 (leaf OpLiteral 0 [102; 111; 111]) []
           [102; 79; 79] []).
  - reflexivity.
  - repeat constructor; lia.
  - repeat constructor; lia.
  - reflexivity.
Defined.

Lemma eachSub_pairwise (f : Regexp -> option Regexp)
    (R : Regexp -> Regexp -> Prop) :
  forall sub sub',
    Forall (fun c => forall c', f c = Some c' -> R c c') sub ->
    eachSub f sub = Some sub' ->
    pairwise R sub sub'.
Proof.
  induction sub as [|c sub IH]; intros sub' Hall He; cbn [eachSub] in He.
  - inversion He. exact I.
  - destruct (f c) as [c'|] eqn:Hc; [|discriminate].
    destruct (eachSub f sub) as [rest'|] eqn:Hr; [|discriminate].
    inversion He; subst. inversion Hall; subst.
    cbn [pairwise]. split; [auto|]. apply IH; auto.
Qed.

(** X8: [lowerRegexpASCII] rewrites runes only.  The tree it returns has
    the node kinds, flags, repetition bounds and numbers of children of
    the tree it was given; nodes other than literals and classes keep
    their runes, and a literal keeps the number of its runes. *)
Theorem lowerRegexpASCII_keeps_shape table re re' :
  lowerRegexpASCII table re = Some re' -> sameShape re re'.
Proof.
  revert re'.
  induction re as [op fl sub rune r0 mn mx IH] using Regexp_nested_ind.
  intros re' Hl. cbn [lowerRegexpASCII] in Hl.
  destruct (eachSub (lowerRegexpASCII table) sub) as [sub'|] eqn:He;
    [|discriminate].
  pose proof (eachSub_pairwise _ sameShape sub sub' IH He) as Hsub.
  assert (Hkeep : sameShape (Node op fl sub rune r0 mn mx)
                    (Node op fl sub' rune r0 mn mx)).
  { cbn [sameShape]. repeat split; auto. }
  destruct op; try (inversion Hl; subst; exact Hkeep).
  - (* literal *)
    inversion Hl; subst. cbn [sameShape].
    repeat split; auto; try congruence.
    intros _. rewrite length_map. reflexivity.
  - (* class *)
    destruct (isExclusion rune).
    + destruct (copyRanges rune _) as [copy|]; [|discriminate].
      inversion Hl; subst. cbn [sameShape].
      repeat split; auto; congruence.
    + destruct (coversLower rune) as [[|]|]; [| |discriminate].
      * inversion Hl; subst. exact Hkeep.
      * destruct (lowerRanges table rune) as [[upd app]|]; [|discriminate].
        inversion Hl; subst. cbn [sameShape].
        repeat split; auto; congruence.
Qed.

Lemma lowerRegexpASCII_keeps_shape_witness :
  lowerRegexpASCII (fun r => r) mixedTree = Some mixedLowered
  /\ sameShape mixedTree mixedLowered.
Proof.
  assert (Hl : lowerRegexpASCII (fun r => r) mixedTree = Some mixedLowered)
    by reflexivity.
  split; [exact Hl|].
  apply (lowerRegexpASCII_keeps_shape (fun r => r) mixedTree mixedLowered Hl).
Defined.

(** ** [Find] and its scratch buffer *)

Lemma Find_factor rg zf f :
  Find rg zf f
  = '(tb, buf) <- matchBuffer rg zf (store.DataFor zf f) ;;
    out <- scanBuffer rg buf ;;
    Some (withBuf rg tb, out).
Proof.
  unfold Find, scanBuffer.
  destruct (matchBuffer rg zf (store.DataFor zf f)) as [[tb buf]|];
    [|reflexivity].
  destruct (negb (bytes.Contains buf (literalSubstring rg))); [reflexivity|].
  destruct (re rg) as [r|]; [|reflexivity].
  destruct (regexp.FindIndex r buf); [|reflexivity].
  destruct (if len (regexp.FindAllIndex r buf maxFileMatches) >? 0
            then _ else _); reflexivity.
Qed.

Lemma scanBuffer_sameMatcher a b buf :
  sameMatcher a b -> scanBuffer a buf = scanBuffer b buf.
Proof.
  intros (Hre & _ & _ & Hlit). unfold scanBuffer.
  rewrite Hre, Hlit. reflexivity.
Qed.

Lemma slice_prefix_ok {A : Type} (t : list A) n :
  0 <= n -> n <= len t -> exists x, slice t 0 n = Some x.
Proof.
  intros H0 H1. unfold slice.
  rewrite (proj2 (Z.leb_le 0 0)) by lia.
  rewrite (proj2 (Z.leb_le 0 n) H0), (proj2 (Z.leb_le n (len t)) H1).
  eexists. reflexivity.
Qed.

(** What [matchBuffer] returns, and the room it leaves. *)
Lemma matchBuffer_some rg zf data tb buf :
  matchBuffer rg zf data = Some (tb, buf) ->
  buf = (if ignoreCase rg then bytesToLowerASCII data else data)
  /\ scratchRoom (withBuf rg tb) zf = scratchRoom rg zf
  /\ fits rg zf data.
Proof.
  unfold matchBuffer, fits, scratchRoom, withBuf. cbn [ignoreCase transformBuf].
  destruct (ignoreCase rg).
  - destruct (transformBuf rg) as [t|].
    + destruct (slice t 0 (len data)) as [x|] eqn:Hs; [|discriminate].
      apply slice_spec in Hs. destruct Hs as (_ & _ & Hle & _).
      intros H. inversion H; subst. split; [reflexivity|].
      split; [|exact Hle]. f_equal. rewrite len_app.
      unfold len, bytesToLowerASCII in *.
      rewrite length_map, length_skipn. lia.
    + destruct (Z.ltb_spec (store.MaxLen zf) 0); [discriminate|].
      destruct (slice _ 0 (len data)) as [x|] eqn:Hs; [|discriminate].
      apply slice_spec in Hs. destruct Hs as (_ & _ & Hle & _).
      unfold len in Hle. rewrite repeat_length in Hle.
      intros Heq. inversion Heq; subst. split; [reflexivity|].
      split; [|unfold len; lia]. f_equal. rewrite len_app.
      unfold len, bytesToLowerASCII in *.
      rewrite length_map, length_skipn, repeat_length. lia.
  - intros H. inversion H; subst. repeat split.
Qed.

Lemma matchBuffer_fits rg zf data :
  fits rg zf data -> exists tb buf, matchBuffer rg zf data = Some (tb, buf).
Proof.
  unfold matchBuffer, fits, scratchRoom. pose proof (len_nonneg data) as Hd.
  destruct (ignoreCase rg).
  - destruct (transformBuf rg) as [t|]; intros Hfit.
    + destruct (slice_prefix_ok t (len data) Hd Hfit) as [x ->].
      eexists. eexists. reflexivity.
    + destruct (Z.ltb_spec (store.MaxLen zf) 0); [lia|].
      destruct (slice_prefix_ok (repeat x00 (Z.to_nat (store.MaxLen zf)))
                  (len data) Hd) as [x ->].
      { unfold len. rewrite repeat_length. unfold len in Hfit. lia. }
      eexists. eexists. reflexivity.
  - intros _. eexists. eexists. reflexivity.
Qed.

Lemma fits_sameRoom a b zf data :
  scratchRoom a zf = scratchRoom b zf -> fits a zf data -> fits b zf data.
Proof. unfold fits. intros ->. tauto. Qed.

(** [FindOut] in terms of the matcher's fields and the room. *)
Lemma FindOut_scanBuffer rg zf f :
  FindOut rg zf f
  = match matchBuffer rg zf (store.DataFor zf f) with
    | Some _ => scanBuffer rg (fileMatchBuf rg f)
    | None => None
    end.
Proof.
  unfold FindOut. rewrite Find_factor.
  destruct (matchBuffer rg zf (store.DataFor zf f)) as [[tb buf]|] eqn:Hm;
    [|reflexivity].
  apply matchBuffer_buf in Hm. subst buf.
  destruct (scanBuffer rg (fileMatchBuf rg f)); reflexivity.
Qed.

Lemma fileMatchBuf_sameMatcher a b f :
  sameMatcher a b -> fileMatchBuf a f = fileMatchBuf b f.
Proof. intros (_ & Hic & _). unfold fileMatchBuf. rewrite Hic. reflexivity. Qed.

Lemma sameMatcher_withBuf rg tb : sameMatcher (withBuf rg tb) rg.
Proof. repeat split. Qed.

Lemma sameMatcher_Copy rg : sameMatcher (Copy rg) rg.
Proof. repeat split. Qed.

Lemma Find_sameMatcher rg zf f rg' out :
  Find rg zf f = Some (rg', out) ->
  sameMatcher rg' rg /\ scratchRoom rg' zf = scratchRoom rg zf.
Proof.
  rewrite Find_factor.
  destruct (matchBuffer rg zf (store.DataFor zf f)) as [[tb buf]|] eqn:Hm;
    [|discriminate].
  destruct (scanBuffer rg buf); [|discriminate].
  intros H. inversion H; subst.
  apply matchBuffer_some in Hm. destruct Hm as (_ & Hroom & _).
  split; [apply sameMatcher_withBuf|exact Hroom].
Qed.

(** The outcome of [Find] depends on the scratch buffer only through its
    room. *)
Lemma FindOut_sameMatcher a b zf f out :
  sameMatcher a b ->
  fits b zf (store.Data f) ->
  FindOut a zf f = Some out ->
  FindOut b zf f = Some out.
Proof.
  intros Hsame Hfit Ha. rewrite FindOut_scanBuffer in *.
  destruct (matchBuffer a zf (store.DataFor zf f)); [|discriminate].
  destruct (matchBuffer_fits b zf (store.Data f) Hfit) as (tb & buf & Hb).
  unfold store.DataFor. rewrite Hb.
  rewrite <- (fileMatchBuf_sameMatcher a b f Hsame).
  rewrite <- (scanBuffer_sameMatcher a b _ Hsame). exact Ha.
Qed.

(** X9: a worker's copy finds what the original finds.  When the file is
    no longer than the archive's maximum file length, [Find] on [rg.Copy()]
    returns the matches, the limit flag and the error that [Find] on [rg]
    returns. *)
Theorem Find_on_Copy rg zf f out :
  len (store.Data f) <= store.MaxLen zf ->
  FindOut rg zf f = Some out ->
  FindOut (Copy rg) zf f = Some out.
Proof.
  intros Hlen. apply FindOut_sameMatcher.
  - destruct (sameMatcher_Copy rg) as (H1 & H2 & H3 & H4).
    repeat split; symmetry; assumption.
  - unfold fits, scratchRoom. cbn.
    destruct (ignoreCase rg); [exact Hlen|exact I].
Qed.

Lemma Find_on_Copy_witness :
  len (store.Data (file "a.txt" upperLine))
  <= store.MaxLen (oneFile "a.txt" upperLine)
  /\ FindOut (Copy (withBuf (grepLiteral (bytes_of "foo") true)
                      (Some (bytes_of "XYZWV"))))
       (oneFile "a.txt" upperLine) (file "a.txt" upperLine)
     = Some ([lineMatch (bytes_of "foo") 0 0 3 false], false, None).
Proof.
  split; [vm_compute; discriminate|].
  apply (Find_on_Copy (withBuf (grepLiteral (bytes_of "foo") true)
                         (Some (bytes_of "XYZWV")))
           (oneFile "a.txt" upperLine) (file "a.txt" upperLine)).
  - vm_compute. discriminate.
  - reflexivity.
Defined.

(** X10: scanning one file does not change what [Find] returns on the
    next.  The matcher that [Find] hands back differs from the one it was
    given in its scratch buffer only, and a later [Find] with it returns
    the same matches, limit flag and error as with the matcher given. *)
Theorem Find_reuses_buffer rg zf f1 rg1 out1 f2 out2 :
  Find rg zf f1 = Some (rg1, out1) ->
  FindOut rg zf f2 = Some out2 ->
  sameMatcher rg1 rg /\ FindOut rg1 zf f2 = Some out2.
Proof.
  intros H1 H2. destruct (Find_sameMatcher _ _ _ _ _ H1) as [Hsame Hroom].
  split; [exact Hsame|].
  apply (FindOut_sameMatcher rg rg1 zf f2 out2).
  - destruct Hsame as (Ha & Hb & Hc & Hd). repeat split; symmetry; assumption.
  - apply (fits_sameRoom rg rg1); [symmetry; exact Hroom|].
    rewrite FindOut_scanBuffer in H2.
    destruct (matchBuffer rg zf (store.DataFor zf f2)) as [[tb buf]|] eqn:Hm;
      [|discriminate].
    apply matchBuffer_some in Hm. apply Hm.
  - exact H2.
Qed.

Lemma Find_reuses_buffer_witness :
  Find (grepLiteral (bytes_of "foo") true) (archive []) (file "a" twoLines)
  = Some (usedGrep,
          ([lineMatch (bytes_of "foo bar") 0 0 3 false;
            lineMatch (bytes_of "baz foo") 1 4 3 false], false, None))
  /\ FindOut usedGrep (archive []) (file "b" upperLine)
     = Some ([lineMatch (bytes_of "foo") 0 0 3 false], false, None).
Proof.
  assert (H1 : Find (grepLiteral (bytes_of "foo") true) (archive [])
                 (file "a" twoLines)
               = Some (usedGrep,
                       ([lineMatch (bytes_of "foo bar") 0 0 3 false;
                         lineMatch (bytes_of "baz foo") 1 4 3 false],
                        false, None)))
    by (vm_compute; reflexivity).
  assert (H2 : FindOut (grepLiteral (bytes_of "foo") true) (archive [])
                 (file "b" upperLine)
               = Some ([lineMatch (bytes_of "foo") 0 0 3 false], false, None))
    by (vm_compute; reflexivity).
  split; [exact H1|].
  exact (proj2 (Find_reuses_buffer _ _ _ _ _ _ _ H1 H2)).
Defined.

(** ** What [Find] returns for each location *)

Lemma scanMatch_nonempty buf hit c m c' out :
  scanMatch buf hit c m = Some (c', out) -> out <> [].
Proof.
  destruct m as [s e]. intros H. apply scanMatch_inv in H.
  destruct H as (pre & post & oseg & lseg & seg & mb & _ & _ & H).
  cbv zeta in H. destruct H as (_ & _ & _ & _ & _ & _ & Hout).
  destruct (len (bytes.SplitN mb [nl] (maxLineMatches + 1)) >? 1) eqn:Hn.
  - apply emitLines_numbers in Hout. destruct Hout as [Hlen _].
    intros ->. cbn [length] in Hlen. unfold len in Hn.
    rewrite <- Hlen in Hn. discriminate.
  - subst out. discriminate.
Qed.

Lemma scanLocs_count buf hit :
  forall locs c acc ms,
    scanLocs buf hit c acc locs = Some ms ->
    len acc + len locs <= len ms.
Proof.
  induction locs as [|m rest IH]; intros c acc ms H; cbn [scanLocs] in H.
  - inversion H; subst. unfold len. cbn [length]. lia.
  - destruct (scanMatch buf hit c m) as [[c' out]|] eqn:Hm; [|discriminate].
    apply IH in H. apply scanMatch_nonempty in Hm.
    rewrite len_app in H. unfold len in *. cbn [length].
    destruct out; [contradiction|]. cbn [length] in H. lia.
Qed.

(** X11: [Find] does not stop at [maxLineMatches].  It returns no line
    match when the pre-filter or the probe fails, and otherwise at least
    one line match for each location collected; the limit flag is set
    only when the line matches number exactly [maxLineMatches]. *)
Theorem Find_has_no_cap rg zf f rg' ms lh err :
  Find rg zf f = Some (rg', (ms, lh, err)) ->
  (bytes.Contains (fileMatchBuf rg f) (literalSubstring rg) = false ->
   ms = [])
  /\ (forall r, re rg = Some r ->
        regexp.FindIndex r (fileMatchBuf rg f) = None -> ms = [])
  /\ (forall r, re rg = Some r ->
        bytes.Contains (fileMatchBuf rg f) (literalSubstring rg) = true ->
        regexp.FindIndex r (fileMatchBuf rg f) <> None ->
        len (collected rg f) <= len ms)
  /\ lh = (len ms =? maxLineMatches).
Proof.
  intros H. rewrite Find_factor in H.
  destruct (matchBuffer rg zf (store.DataFor zf f)) as [[tb buf]|] eqn:Hm;
    [|discriminate].
  apply matchBuffer_buf in Hm. subst buf.
  destruct (scanBuffer rg (fileMatchBuf rg f)) as [out|] eqn:Hs;
    [|discriminate].
  inversion H; subst. clear H. unfold scanBuffer in Hs. unfold collected.
  destruct (bytes.Contains (fileMatchBuf rg f) (literalSubstring rg)).
  2:{ cbn in Hs. inversion Hs; subst. repeat split; try reflexivity.
      intros r _ Hc. discriminate. }
  cbn [negb] in Hs.
  destruct (re rg) as [r|]; [|discriminate].
  destruct (regexp.FindIndex r (fileMatchBuf rg f)) as [p|] eqn:Hfi.
  2:{ inversion Hs; subst. repeat split; try reflexivity.
      intros r0 Hr _ Hne. inversion Hr; subst r0. contradiction. }
  remember (regexp.FindAllIndex r (fileMatchBuf rg f) maxFileMatches)
    as locs eqn:Hlocs.
  destruct (len locs >? 0) eqn:Hl.
  - destruct (scanLocs _ _ _ _ locs) as [ms0|] eqn:Hsc; [|discriminate].
    inversion Hs; subst ms lh err. apply scanLocs_count in Hsc.
    split; [discriminate|].
    split; [intros r0 Hr Hn; inversion Hr; subst r0; congruence|].
    split; [|reflexivity].
    intros r0 _ _ _. unfold len in *. cbn [length] in Hsc. lia.
  - inversion Hs; subst ms lh err.
    split; [discriminate|].
    split; [intros r0 Hr Hn; inversion Hr; subst r0; congruence|].
    split; [|reflexivity].
    intros r0 _ _ _. rewrite Z.gtb_ltb in Hl. apply Z.ltb_ge in Hl.
    unfold len in *. cbn [length]. lia.
Qed.

(** 101 matching lines: 101 line matches and no limit flag. *)
Lemma Find_has_no_cap_witness :
  Find (grepLiteral (bytes_of "a") false) (archive [])
    (file "a.txt" manyLines)
  = Some (grepLiteral (bytes_of "a") false, (manyLinesFound, false, None))
  /\ len (collected (grepLiteral (bytes_of "a") false)
            (file "a.txt" manyLines)) = 101
  /\ 101 <= len manyLinesFound.
Proof.
  assert (H : Find (grepLiteral (bytes_of "a") false) (archive [])
                (file "a.txt" manyLines)
              = Some (grepLiteral (bytes_of "a") false,
                      (manyLinesFound, false, None)))
    by (vm_compute; reflexivity).
  assert (Hc : len (collected (grepLiteral (bytes_of "a") false)
                      (file "a.txt" manyLines)) = 101)
    by (vm_compute; reflexivity).
  split; [exact H|]. split; [exact Hc|].
  rewrite <- Hc.
  apply (proj1 (proj2 (proj2 (Find_has_no_cap _ _ _ _ _ _ _ H)))
           (literalRegexp (bytes_of "a")) eq_refl).
  - vm_compute. reflexivity.
  - vm_compute. discriminate.
Defined.

(** *** The line span of a location *)

Lemma newlines_nonneg s : 0 <= newlines s.
Proof.
  induction s as [|c s IH]; [rewrite newlines_nil; lia|].
  rewrite newlines_cons. destruct (Byte.eqb c nl); lia.
Qed.

Lemma lastIndexFrom_none s :
  newlines s = 0 ->
  forall i acc, bytes.lastIndexFrom s [nl] i acc = acc.
Proof.
  induction s as [|c s IH]; intros Hn i acc; [reflexivity|].
  rewrite newlines_cons in Hn. pose proof (newlines_nonneg s) as Hs.
  cbn [bytes.lastIndexFrom bytes.HasPrefix]. rewrite andb_true_r.
  destruct (Byte.eqb c nl); [lia|]. apply IH. lia.
Qed.

Lemma lastIndexFrom_shift b :
  forall i acc,
    bytes.lastIndexFrom b [nl] i acc
    = if bytes.LastIndex b [nl] <? 0 then acc
      else i + bytes.LastIndex b [nl].
Proof.
  induction b as [|c b IH]; intros i acc; [reflexivity|].
  unfold bytes.LastIndex.
  cbn [bytes.lastIndexFrom bytes.HasPrefix]. rewrite andb_true_r.
  rewrite (IH (i + 1)), (IH (0 + 1)).
  pose proof (LastIndex_nl b) as (Hlo & _ & _).
  destruct (Z.ltb_spec (bytes.LastIndex b [nl]) 0) as [Hneg|Hpos].
  - destruct (Byte.eqb c nl); cbn; [f_equal; lia|reflexivity].
  - destruct (Z.ltb_spec (0 + 1 + bytes.LastIndex b [nl]) 0); lia.
Qed.

Lemma lastIndexFrom_app a :
  forall b i acc,
    bytes.lastIndexFrom (a ++ b) [nl] i acc
    = bytes.lastIndexFrom b [nl] (i + len a)
        (bytes.lastIndexFrom a [nl] i acc).
Proof.
  induction a as [|c a IH]; intros b i acc.
  - cbn. f_equal. unfold len. cbn. lia.
  - cbn [app bytes.lastIndexFrom bytes.HasPrefix]. rewrite IH.
    f_equal. unfold len. cbn [length]. lia.
Qed.

Lemma LastIndex_app a b :
  bytes.LastIndex (a ++ b) [nl]
  = if bytes.LastIndex b [nl] <? 0 then bytes.LastIndex a [nl]
    else len a + bytes.LastIndex b [nl].
Proof.
  unfold bytes.LastIndex at 1. rewrite lastIndexFrom_app.
  rewrite lastIndexFrom_shift. reflexivity.
Qed.

Lemma LastIndex_none s : newlines s = 0 -> bytes.LastIndex s [nl] = -1.
Proof. intros H. apply lastIndexFrom_none. exact H. Qed.

Lemma LastIndex_prefix t :
  0 <= bytes.LastIndex t [nl] ->
  bytes.LastIndex (firstn (Z.to_nat (bytes.LastIndex t [nl] + 1)) t) [nl]
  = bytes.LastIndex t [nl].
Proof.
  intros Hp. pose proof (LastIndex_nl t) as (_ & _ & Hn).
  set (n := Z.to_nat (bytes.LastIndex t [nl] + 1)) in *.
  assert (Ht : bytes.LastIndex (firstn n t ++ skipn n t) [nl]
               = bytes.LastIndex (firstn n t) [nl]).
  { rewrite LastIndex_app, (LastIndex_none _ Hn). reflexivity. }
  rewrite firstn_skipn in Ht. symmetry. exact Ht.
Qed.

Lemma firstn_split {A : Type} (buf : list A) a b :
  0 <= a -> a <= b ->
  firstn (Z.to_nat b) buf
  = firstn (Z.to_nat a) buf
    ++ firstn (Z.to_nat (b - a)) (skipn (Z.to_nat a) buf).
Proof.
  intros Ha Hab.
  rewrite <- (firstn_skipn (Z.to_nat a) (firstn (Z.to_nat b) buf)) at 1.
  rewrite firstn_firstn, skipn_firstn_comm.
  replace (Nat.min (Z.to_nat a) (Z.to_nat b)) with (Z.to_nat a) by lia.
  replace (Z.to_nat b - Z.to_nat a)%nat with (Z.to_nat (b - a)) by lia.
  reflexivity.
Qed.

Lemma indexFrom_bound s :
  forall i, 0 <= i ->
    bytes.indexFrom s [nl] i = -1
    \/ (i <= bytes.indexFrom s [nl] i /\ bytes.indexFrom s [nl] i < i + len s).
Proof.
  induction s as [|c s IH]; intros i Hi; [left; reflexivity|].
  cbn [bytes.indexFrom]. assert (Hl : len (c :: s) = 1 + len s)
    by (unfold len; cbn [length]; lia).
  pose proof (len_nonneg s).
  destruct (bytes.HasPrefix (c :: s) [nl]).
  - right. lia.
  - destruct (IH (i + 1)) as [->|H1]; [lia|left; reflexivity|right; lia].
Qed.

Lemma emitLines_preview buf lineStart lineEnd start end_ offset hit nlines :
  forall lines i lineNum out pv,
    slice buf lineStart lineEnd = Some pv ->
    emitLines buf lineStart lineEnd start end_ offset hit nlines i lineNum
      lines = Some out ->
    Forall (fun m => Preview m = pv) out.
Proof.
  induction lines as [|line rest IH]; simpl; intros i lineNum out pv Hpv H.
  - inversion H. constructor.
  - destruct (if i =? 0 then _ else _) as [le|]; [|discriminate].
    rewrite Hpv in H.
    destruct (emitLines _ _ _ _ _ _ _ _ (i + 1) (lineNum + 1) rest)
      as [tl|] eqn:Ht; [|discriminate].
    inversion H; subst. constructor; [reflexivity|]. eapply IH; eauto.
Qed.

(** [scanMatch] unfolded, with the line start it carries over. *)
Lemma scanMatch_span buf hit c s e c' out :
  scanMatch buf hit c (s, e) = Some (c', out) ->
  exists pre post matchBuf,
    slice buf (lastLineStartIndex c) s = Some pre /\
    slice buf e (len buf) = Some post /\
    let lineStart0 := lastLineStartIndex c + bytes.LastIndex pre [nl] in
    let llsi := if lineStart0 >? 0 then lineStart0 + 1
                else lastLineStartIndex c in
    let lineStart1 := if (lineStart0 <? len buf - 1) && (len buf >? 0)
                      then lineStart0 + 1 else lineStart0 in
    let lineEnd0 := e + bytes.Index post [nl] in
    let lineStart := if lineStart1 <? 0 then s else lineStart1 in
    let lineEnd := if lineEnd0 <? 0 then e else lineEnd0 in
    s <= e /\
    slice buf lineStart lineEnd = Some matchBuf /\
    Forall (fun m => Preview m = matchBuf) out /\
    (lastLineStartIndex c' = lineStart \/ lastLineStartIndex c' = llsi).
Proof.
  unfold scanMatch, hydrateLineNumbers. cbn [fst]. intros H.
  destruct (slice buf (lastLineStartIndex c) s) as [pre|]; [|discriminate].
  destruct (slice buf e (len buf)) as [post|]; [|discriminate].
  cbv zeta in H.
  match type of H with
  | match slice buf ?a s with _ => _ end = _ =>
      destruct (slice buf a s) as [offsetSeg|] eqn:Ho; [|discriminate]
  end.
  destruct (slice buf s e) as [lengthSeg|] eqn:Hse; [|discriminate].
  apply slice_spec in Hse. destruct Hse as (_ & Hse & _).
  destruct (slice buf (lastMatchIndex c) s) as [seg|]; [|discriminate].
  match type of H with
  | match slice buf ?a ?b with _ => _ end = _ =>
      destruct (slice buf a b) as [matchBuf|] eqn:Hm; [|discriminate]
  end.
  exists pre, post, matchBuf. cbv zeta.
  split; [reflexivity|]. split; [reflexivity|].
  split; [exact Hse|]. split; [exact Hm|].
  destruct (len (bytes.SplitN matchBuf [nl] (maxLineMatches + 1)) >? 1).
  - match type of H with
    | match ?x with _ => _ end = _ => destruct x as [o|] eqn:He; [|discriminate]
    end.
    inversion H; subst. cbn [lastLineStartIndex]. split; [|left; reflexivity].
    eapply emitLines_preview; eauto.
  - inversion H; subst. cbn [lastLineStartIndex].
    split; [|right; reflexivity].
    constructor; [reflexivity|constructor].
Qed.


Lemma scanMatch_previewed buf hit c s e c' out :
  lineStartOk buf c s ->
  scanMatch buf hit c (s, e) = Some (c', out) ->
  previewed buf (s, e) out /\
  (forall s', s < s' -> lineStartOk buf c' s').
Proof.
  intros Hok H. apply scanMatch_span in H.
  destruct H as (pre & post & mb & Hpre & Hpost & H). cbv zeta in H.
  destruct H as (Hse & Hmb & Hpv & Hnext).
  apply slice_spec in Hpre. destruct Hpre as (Hp0 & Hp1 & Hp2 & Hpre).
  apply slice_spec in Hpost. destruct Hpost as (He0 & He1 & _ & Hpost).
  pose proof (len_nonneg buf) as Hlen.
  unfold lineStartOk in Hok. specialize (Hok Hp2).
  set (L := lastLineStartIndex c) in *.
  assert (Hpost' : post = skipn (Z.to_nat e) buf).
  { subst post. apply firstn_all2. rewrite length_skipn. unfold len. lia. }
  assert (HlenL : len (firstn (Z.to_nat L) buf) = L).
  { unfold len. rewrite length_firstn. unfold len in *. lia. }
  assert (HlenS : len (firstn (Z.to_nat s) buf) = s).
  { unfold len. rewrite length_firstn. unfold len in *. lia. }
  assert (HP : L + bytes.LastIndex pre [nl]
               = bytes.LastIndex (firstn (Z.to_nat s) buf) [nl]).
  { rewrite (firstn_split buf L s) by lia. rewrite <- Hpre.
    rewrite LastIndex_app, Hok, HlenL.
    pose proof (LastIndex_nl pre) as (Hk & _ & _).
    destruct (Z.ltb_spec (bytes.LastIndex pre [nl]) 0); lia. }
  rewrite HP in *. clear HP.
  pose proof (LastIndex_nl (firstn (Z.to_nat s) buf)) as (HP0 & HP1 & _).
  rewrite HlenS in HP1.
  set (P := bytes.LastIndex (firstn (Z.to_nat s) buf) [nl]) in *.
  assert (HF : 0 <= P ->
               bytes.LastIndex (firstn (Z.to_nat (P + 1)) buf) [nl] = P).
  { intros HPpos.
    pose proof (LastIndex_prefix (firstn (Z.to_nat s) buf) HPpos) as Hpre'.
    fold P in Hpre'. rewrite firstn_firstn in Hpre'.
    replace (Nat.min (Z.to_nat (P + 1)) (Z.to_nat s))
      with (Z.to_nat (P + 1)) in Hpre' by lia.
    exact Hpre'. }
  rewrite !Z.gtb_ltb in *.
  split.
  - (* the preview *)
    unfold previewed, newlineFrom. cbn [fst snd]. intros Hnl.
    apply Z.leb_le in Hnl.
    assert (Hidx : bytes.Index (skipn (Z.to_nat e) buf) [nl]
                   < len (skipn (Z.to_nat e) buf)).
    { unfold bytes.Index in *.
      destruct (indexFrom_bound (skipn (Z.to_nat e) buf) 0) as [Hm|Hb];
        lia. }
    assert (Hrest : len (skipn (Z.to_nat e) buf) = len buf - e).
    { unfold len. rewrite length_skipn. unfold len in *. lia. }
    rewrite Hpost' in Hmb.
    destruct (Z.ltb_spec P (len buf - 1)); [|lia].
    destruct (Z.ltb_spec 0 (len buf)); [|lia].
    cbn [andb] in Hmb.
    destruct (Z.ltb_spec (P + 1) 0); [lia|].
    destruct (Z.ltb_spec (e + bytes.Index (skipn (Z.to_nat e) buf) [nl]) 0);
      [lia|].
    apply slice_spec in Hmb. destruct Hmb as (_ & _ & _ & Hmb).
    unfold lineSpan, lineStartOf, lineEndOf. fold P. rewrite <- Hmb.
    exact Hpv.
  - (* the line start carried over *)
    intros s' Hs' Hs'len. 
    destruct Hnext as [Hn|Hn]; rewrite Hn; clear Hn.
    + destruct (Z.ltb_spec P (len buf - 1));
        destruct (Z.ltb_spec 0 (len buf)); cbn [andb].
      * destruct (Z.ltb_spec (P + 1) 0); [lia|].
        destruct (Z.le_gt_cases 0 P) as [Hpos|Hneg].
        -- rewrite HF by exact Hpos. lia.
        -- replace (P + 1) with 0 by lia. reflexivity.
      * lia.
      * lia.
      * lia.
    + destruct (Z.ltb_spec 0 P).
      * rewrite HF by lia. lia.
      * exact Hok.
Qed.

Lemma scanLocs_groups buf hit
    (I : cursor -> Z -> Prop) (Q : Z * Z -> list LineMatch -> Prop) :
  (forall c s e c' out,
      I c s -> scanMatch buf hit c (s, e) = Some (c', out) ->
      Q (s, e) out /\ (forall s', s < s' -> I c' s')) ->
  forall locs c acc ms,
    increasingStarts locs = true ->
    (forall s e rest, locs = (s, e) :: rest -> I c s) ->
    scanLocs buf hit c acc locs = Some ms ->
    exists groups, ms = acc ++ concat groups /\ Forall2 Q locs groups.
Proof.
  intros Hstep.
  induction locs as [|[s e] rest IH]; intros c acc ms Hinc Hok H.
  - cbn in H. inversion H; subst. exists []. split.
    + cbn. rewrite app_nil_r. reflexivity.
    + constructor.
  - cbn [scanLocs] in H.
    destruct (scanMatch buf hit c (s, e)) as [[c' out]|] eqn:Hm;
      [|discriminate].
    destruct (Hstep _ _ _ _ _ (Hok s e rest eq_refl) Hm) as (HQ & Hnext).
    apply IH in H.
    + destruct H as (groups & Hms & Hall).
      exists (out :: groups). split.
      * cbn. rewrite Hms, app_assoc. reflexivity.
      * constructor; assumption.
    + destruct rest as [|[s' e'] rest']; [reflexivity|].
      apply increasingStarts_cons in Hinc. apply Hinc.
    + intros s' e' rest' ->.
      apply increasingStarts_cons in Hinc. apply Hnext. lia.
Qed.

(** X12: where a newline follows, the preview is the line.  The line
    matches that [Find] returns are, location by location, the groups
    appended for the collected locations; for a location with a newline at
    or after its end, every line match of its group has as [Preview] the
    bytes of the buffer matched on (the file's bytes in a case-sensitive
    search) from the start of the line of the location's first byte to
    the first newline at or after its end.  (The regexp engine yields
    locations with increasing start offsets.) *)
Theorem Find_preview_line_span rg zf f rg' ms lh err :
  Find rg zf f = Some (rg', (ms, lh, err)) ->
  increasingStarts (collected rg f) = true ->
  ms = [] \/
  exists groups,
    ms = concat groups /\
    Forall2 (previewed (fileMatchBuf rg f)) (collected rg f) groups.
Proof.
  intros H Hinc. apply Find_cases in H.
  destruct H as [_ [[-> _]|(r & Hr & _ & H)]]; [left; reflexivity|].
  cbv zeta in H. destruct (len (collected rg f) >? 0); [|left; exact H].
  right.
  apply (scanLocs_groups _ _ (lineStartOk (fileMatchBuf rg f))
           (previewed (fileMatchBuf rg f))) in H.
  - exact H.
  - intros c s e c' out. apply scanMatch_previewed.
  - exact Hinc.
  - intros s e rest _ _. reflexivity.
Qed.

Lemma Find_preview_line_span_witness :
  increasingStarts (collected (grepLiteral (bytes_of "foo") false)
                      (file "a.txt" twoLines)) = true
  /\ lineSpan twoLines 12 15 = bytes_of "baz foo"
  /\ exists groups,
       [lineMatch (bytes_of "foo bar") 0 0 3 false;
        lineMatch (bytes_of "baz foo") 1 4 3 false] = concat groups
       /\ Forall2 (previewed twoLines) [(0, 3); (12, 15)] groups.
Proof.
  split; [reflexivity|]. split; [reflexivity|].
  destruct (Find_preview_line_span
              (grepLiteral (bytes_of "foo") false)
              (oneFile "a.txt" twoLines) (file "a.txt" twoLines)
              (grepLiteral (bytes_of "foo") false)
              [lineMatch (bytes_of "foo bar") 0 0 3 false;
               lineMatch (bytes_of "baz foo") 1 4 3 false]
              false None eq_refl eq_refl) as [H|H].
  - discriminate H.
  - exact H.
Defined.

(** ** What the driver reports *)

Section Reports.

Variable L : GoLib.

Lemma pathOnly_filter rg limit :
  forall fs acc,
    len acc <= limit ->
    let pass := filter (fun f => pathmatch.MatchPath (matchPath rg)
                                   (store.Name f)
                                 && matchString L rg (store.Name f)) fs in
    pathOnly L rg limit fs acc
    = (acc ++ map (fun f => pathMatch (store.Name f))
                (firstn (Z.to_nat (limit - len acc)) pass),
       len pass >? limit - len acc).
Proof.
  induction fs as [|f fs IH]; intros acc Hacc; cbn zeta.
  - cbn. rewrite firstn_nil. cbn. rewrite app_nil_r.
    f_equal. unfold len in *. cbn [length].
    rewrite Z.gtb_ltb. symmetry. apply Z.ltb_ge. lia.
  - cbn [pathOnly filter].
    destruct (pathmatch.MatchPath (matchPath rg) (store.Name f)
              && matchString L rg (store.Name f)).
    + destruct (len acc <? limit) eqn:Hlt.
      * rewrite IH by (rewrite len_app; apply Z.ltb_lt in Hlt;
                       unfold len in *; cbn [length]; lia).
        cbv zeta. rewrite len_app. cbn [len length].
        apply Z.ltb_lt in Hlt.
        replace (Z.to_nat (limit - len acc))
          with (S (Z.to_nat (limit - (len acc + Z.of_nat 1)))) by lia.
        cbn [firstn map]. rewrite <- app_assoc. cbn [app].
        f_equal. unfold len in *. cbn [length].
        rewrite !Z.gtb_ltb. apply Bool.eq_iff_eq_true.
        rewrite !Z.ltb_lt. lia.
      * apply Z.ltb_ge in Hlt.
        replace (Z.to_nat (limit - len acc)) with 0%nat by lia.
        cbn [firstn map]. rewrite app_nil_r. f_equal.
        unfold len in *. cbn [length].
        rewrite Z.gtb_ltb. symmetry. apply Z.ltb_lt. lia.
    + apply IH. exact Hacc.
Qed.

Lemma sameMatcher_sym a b : sameMatcher a b -> sameMatcher b a.
Proof. intros (H1 & H2 & H3 & H4). repeat split; symmetry; assumption. Qed.

Lemma sameMatcher_trans a b c :
  sameMatcher a b -> sameMatcher b c -> sameMatcher a c.
Proof.
  intros (H1 & H2 & H3 & H4) (K1 & K2 & K3 & K4).
  repeat split; etransitivity; eassumption.
Qed.

Lemma matchString_sameMatcher a b s :
  sameMatcher a b -> matchString L a s = matchString L b s.
Proof.
  intros (H1 & H2 & _). unfold matchString. rewrite H1, H2. reflexivity.
Qed.

Lemma FindZip_inv rg zf f rg' fm err :
  FindZip rg zf f = Some (rg', (fm, err)) ->
  sameMatcher rg' rg
  /\ fm = {| Path := store.Name f;
             LineMatches := LineMatches fm;
             FileLimitHit := FileLimitHit fm |}.
Proof.
  unfold FindZip.
  destruct (Find rg zf f) as [[rg0 [[lm lh] e]]|] eqn:HF; [|discriminate].
  intros H. inversion H; subst. split; [|reflexivity].
  apply (Find_sameMatcher _ _ _ _ _ HF).
Qed.

Lemma Forall_moveTo {A : Type} (P : A -> Prop) (w : A) :
  forall ws i,
    Forall P ws -> P w -> Forall P (firstn i ws ++ w :: skipn (S i) ws).
Proof.
  induction ws as [|x ws IH]; intros i Hws Hw.
  - destruct i; cbn; constructor; auto.
  - inversion Hws; subst. destruct i as [|i]; cbn.
    + constructor; assumption.
    + constructor; [assumption|]. apply IH; assumption.
Qed.

Lemma Forall_nth_error {A : Type} (P : A -> Prop) ws i (w : A) :
  Forall P ws -> nth_error ws i = Some w -> P w.
Proof.
  intros Hws Hn. rewrite Forall_forall in Hws. apply Hws.
  eapply nth_error_In; eauto.
Qed.

Lemma moveTo_driverOk rg zf pmp i w d :
  driverOk L rg zf pmp d -> workerOk L rg zf pmp w ->
  driverOk L rg zf pmp (moveTo i w d).
Proof.
  intros (Hm & Hw & Hf) Hok. unfold moveTo, driverOk. cbn.
  split; [exact Hm|]. split; [|exact Hf].
  apply Forall_moveTo; assumption.
Qed.

Lemma step_driverOk rg zf limit pmp d e :
  driverOk L rg zf pmp d -> driverOk L rg zf pmp (step L zf limit pmp d e).
Proof.
  intros Hd. destruct e as [i| |]; cbn; [|exact Hd|exact Hd].
  unfold stepWorker.
  destruct (crashed d); [exact Hd|].
  destruct (nth_error (workers d) i) as [w|] eqn:Hi; [|exact Hd].
  pose proof Hd as (Hm & Hws & Hf).
  pose proof (Forall_nth_error _ _ _ _ Hws Hi) as [Hsame Hat].
  destruct (at_ w) as [| |f|fm|] eqn:Hpc.
  - destruct (ctxErr d); apply moveTo_driverOk; try exact Hd;
      split; [exact Hsame|exact I|exact Hsame|exact I].
  - destruct (files d) as [|f rest] eqn:Hfs.
    + apply moveTo_driverOk; [exact Hd|]. split; [exact Hsame|exact I].
    + apply moveTo_driverOk.
      * split; [exact Hm|]. split; [exact Hws|]. cbn.
        intros x Hx. apply Hf. right. exact Hx.
      * split; [exact Hsame|]. cbn. apply Hf. left. reflexivity.
  - destruct (negb (pathmatch.MatchPath (matchPath (wrg w)) (store.Name f)))
      eqn:Hpath.
    + apply moveTo_driverOk; [exact Hd|]. split; [exact Hsame|exact I].
    + destruct (FindZip (wrg w) zf f) as [[rg' [fm [err|]]]|] eqn:HF.
      * apply moveTo_driverOk.
        -- unfold latch. cbn. destruct (wgErrOnce d); exact Hd.
        -- split; [|exact I]. cbn.
           apply (sameMatcher_trans _ (wrg w)); [|exact Hsame].
           apply (FindZip_inv _ _ _ _ _ _ HF).
      * destruct (FindZip_inv _ _ _ _ _ _ HF) as [Hrg' Hfm].
        assert (Hsame' : sameMatcher rg' rg)
          by (apply (sameMatcher_trans _ (wrg w)); assumption).
        apply moveTo_driverOk; [exact Hd|].
        split; [exact Hsame'|]. cbn [at_].
        set (match0 := len (LineMatches fm) >? 0).
        destruct (if negb match0 && pmp
                  then matchString L rg' (store.Name f) else match0)
          eqn:Hmatch; [|exact I].
        assert (Hfm' : (if negb match0 && pmp && true
                        then {| Path := store.Name f;
                                LineMatches := LineMatches fm;
                                FileLimitHit := FileLimitHit fm |}
                        else fm) = fm).
        { destruct (negb match0 && pmp && true); [symmetry; exact Hfm|].
          reflexivity. }
        rewrite Hfm'.
        exists f, (wrg w), rg'. split; [exact Hat|].
        split.
        { destruct Hsame as (_ & _ & Hmp & _). rewrite <- Hmp.
          apply negb_false_iff. exact Hpath. }
        split; [exact Hsame|]. split; [exact HF|].
        destruct (negb match0 && pmp) eqn:Htry.
        -- right. apply andb_true_iff in Htry. destruct Htry as [_ Hp].
           split; [exact Hp|].
           rewrite <- (matchString_sameMatcher rg' rg _ Hsame').
           exact Hmatch.
        -- left. subst match0. intros Hnil. rewrite Hnil in Hmatch.
           discriminate.
      * exact Hd.
  - destruct (len (matches d) <? limit).
    + apply moveTo_driverOk; [|split; [exact Hsame|exact I]].
      split; [|split; [exact Hws|exact Hf]]. cbn.
      apply Forall_app. split; [exact Hm|]. constructor; [exact Hat|].
      constructor.
    + apply moveTo_driverOk; [exact Hd|]. split; [exact Hsame|exact I].
  - exact Hd.
Qed.

Lemma start_driverOk rg zf pmp : driverOk L rg zf pmp (start rg zf).
Proof.
  split; [constructor|]. split; [|apply incl_refl].
  cbn. repeat constructor.
Qed.

Lemma run_driverOk rg zf limit pmp sched :
  driverOk L rg zf pmp (fold_left (step L zf limit pmp) sched (start rg zf)).
Proof.
  apply (fold_step_invariant L (driverOk L rg zf pmp)).
  - intros d e. apply step_driverOk.
  - apply start_driverOk.
Qed.

End Reports.

(** X13: a search on paths only needs no scan.  With
    [patternMatchesPaths] set and [patternMatchesContent] unset,
    [concurrentFind] returns, under every interleaving and with a nil
    error, the files whose path passes the path filter and matches the
    regexp (every path when the regexp is nil), in archive order, cut at
    the effective limit and without line matches; [limitHit] is set
    exactly when more such files exist than the limit. *)
Theorem concurrentFind_paths_only L sched rg zf fileMatchLimit :
  concurrentFind L sched rg zf fileMatchLimit false true
  = Some (map (fun f => pathMatch (store.Name f))
            (firstn (Z.to_nat (effectiveLimit fileMatchLimit))
               (pathPassing L rg zf)),
          len (pathPassing L rg zf) >? effectiveLimit fileMatchLimit,
          None).
Proof.
  unfold concurrentFind. cbn [negb andb orb].
  pose proof (effectiveLimit_range fileMatchLimit) as (E1 & _).
  rewrite (pathOnly_filter L rg (effectiveLimit fileMatchLimit))
    by (cbn; lia).
  cbn [app len length]. rewrite Z.sub_0_r. reflexivity.
Qed.

(** X14: what the general branch reports was found.  When the worker
    pool runs ([patternMatchesPaths] unset, or [patternMatchesContent] set
    with a regexp), every [FileMatch] returned is, under every
    interleaving, the result of [FindZip] on a file of the archive that
    passes the path filter; it has line matches or, when paths are to
    match, its path matches the regexp. *)
Theorem concurrentFind_reports_found
    L sched rg zf fileMatchLimit pmc pmp fm lh err :
  concurrentFind L sched rg zf fileMatchLimit pmc pmp = Some (fm, lh, err) ->
  pmp = false \/ (pmc = true /\ re rg <> None) ->
  Forall (reported L rg zf pmp) fm.
Proof.
  intros H Hbranch. unfold concurrentFind in H.
  assert (Hcond : pmp && (negb (if negb pmc && negb pmp then true else pmc)
                          || isNil (re rg)) = false).
  { destruct Hbranch as [->|[-> Hre]]; [reflexivity|].
    destruct (re rg); [|contradiction]. cbn. apply andb_false_r. }
  rewrite Hcond in H.
  set (d := fold_left _ sched (start rg zf)) in H.
  pose proof (run_driverOk L rg zf (effectiveLimit fileMatchLimit) pmp sched)
    as (Hm & _ & _).
  fold d in Hm.
  destruct (crashed d); [discriminate|].
  destruct (forallb exited (workers d)); [|discriminate].
  inversion H; subst. exact Hm.
Qed.

Lemma concurrentFind_reports_found_witness :
  concurrentFind plainLib (soloSchedule 14)
    (grepLiteral (bytes_of "foo") false) threeFiles 2 true false
  = Some ([{| Path := "a";
              LineMatches := [lineMatch (bytes_of "foo") 0 0 3 false];
              FileLimitHit := false |};
           {| Path := "b";
              LineMatches := [lineMatch (bytes_of "a foo") 0 2 3 false];
              FileLimitHit := false |}], true, None)
  /\ Forall (reported plainLib (grepLiteral (bytes_of "foo") false)
               threeFiles false)
       [{| Path := "a";
           LineMatches := [lineMatch (bytes_of "foo") 0 0 3 false];
           FileLimitHit := false |};
        {| Path := "b";
           LineMatches := [lineMatch (bytes_of "a foo") 0 2 3 false];
           FileLimitHit := false |}].
Proof.
  assert (H : concurrentFind plainLib (soloSchedule 14)
                (grepLiteral (bytes_of "foo") false) threeFiles 2 true false
              = Some ([{| Path := "a";
                          LineMatches :=
                            [lineMatch (bytes_of "foo") 0 0 3 false];
                          FileLimitHit := false |};
                       {| Path := "b";
                          LineMatches :=
                            [lineMatch (bytes_of "a foo") 0 2 3 false];
                          FileLimitHit := false |}], true, None))
    by (vm_compute; reflexivity).
  split; [exact H|].
  apply (concurrentFind_reports_found _ _ _ _ _ _ _ _ _ _ H).
  left. reflexivity.
Defined.

(** X15: a search on contents only reports no file without a line match.
    With [patternMatchesPaths] unset, every [FileMatch] that
    [concurrentFind] returns has at least one line match and bears the
    name of a file of the archive that passes the path filter. *)
Theorem concurrentFind_content_only
    L sched rg zf fileMatchLimit pmc fm lh err :
  concurrentFind L sched rg zf fileMatchLimit pmc false
  = Some (fm, lh, err) ->
  Forall (fun m =>
            LineMatches m <> []
            /\ exists f, In f (store.Files zf)
                         /\ Path m = store.Name f
                         /\ pathmatch.MatchPath (matchPath rg)
                              (store.Name f) = true) fm.
Proof.
  intros H. unfold concurrentFind in H. cbn [andb] in H.
  set (d := fold_left _ sched (start rg zf)) in H.
  pose proof (run_driverOk L rg zf (effectiveLimit fileMatchLimit) false
                sched) as (Hm & _ & _).
  fold d in Hm.
  destruct (crashed d); [discriminate|].
  destruct (forallb exited (workers d)); [|discriminate].
  inversion H; subst. revert Hm. apply Forall_impl.
  intros m (f & rgw & rgw' & Hin & Hpath & _ & HF & Hor).
  split.
  - destruct Hor as [Hne|[Hp _]]; [exact Hne|discriminate].
  - exists f. split; [exact Hin|]. split; [|exact Hpath].
    apply FindZip_inv in HF. destruct HF as [_ Hfm]. rewrite Hfm. reflexivity.
Qed.

Lemma concurrentFind_content_only_witness :
  concurrentFind plainLib (soloSchedule 14)
    (grepLiteral (bytes_of "bar") false)
    (archive [file "a" twoLines; file "b" upperLine]) 0 true false
  = Some ([{| Path := "a";
              LineMatches := [lineMatch (bytes_of "foo bar") 0 4 3 false];
              FileLimitHit := false |}], false, None)
  /\ Forall (fun m => LineMatches m <> [])
       [{| Path := "a";
           LineMatches := [lineMatch (bytes_of "foo bar") 0 4 3 false];
           FileLimitHit := false |}].
Proof.
  assert (H : concurrentFind plainLib (soloSchedule 14)
                (grepLiteral (bytes_of "bar") false)
                (archive [file "a" twoLines; file "b" upperLine]) 0
                true false
              = Some ([{| Path := "a";
                          LineMatches :=
                            [lineMatch (bytes_of "foo bar") 0 4 3 false];
                          FileLimitHit := false |}], false, None))
    by (vm_compute; reflexivity).
  split; [exact H|].
  pose proof (concurrentFind_content_only _ _ _ _ _ _ _ _ _ H) as Hall.
  revert Hall. apply Forall_impl. intros m [Hne _]. exact Hne.
Defined.

(** ** What the driver does not miss *)

Section Misses.

Variable L : GoLib.

Lemma FindOut_unique a b zf f oa ob :
  sameMatcher a b ->
  FindOut a zf f = Some oa -> FindOut b zf f = Some ob -> oa = ob.
Proof.
  intros Hsame Ha Hb. rewrite FindOut_scanBuffer in Ha, Hb.
  destruct (matchBuffer a zf (store.DataFor zf f)); [|discriminate].
  destruct (matchBuffer b zf (store.DataFor zf f)); [|discriminate].
  rewrite (fileMatchBuf_sameMatcher a b f Hsame) in Ha.
  rewrite (scanBuffer_sameMatcher a b _ Hsame) in Ha. congruence.
Qed.

Lemma FindZip_FindOut rg zf f rg' fm err :
  FindZip rg zf f = Some (rg', (fm, err)) ->
  FindOut rg zf f = Some (LineMatches fm, FileLimitHit fm, err).
Proof.
  unfold FindZip, FindOut.
  destruct (Find rg zf f) as [[rg0 [[lm lh] e]]|]; [|discriminate].
  intros H. inversion H; subst. reflexivity.
Qed.

Lemma In_moveTo {A : Type} (w' : A) :
  forall ws i w w0,
    nth_error ws i = Some w -> In w0 ws ->
    w0 = w \/ In w0 (firstn i ws ++ w' :: skipn (S i) ws).
Proof.
  induction ws as [|x ws IH]; intros i w w0 Hi Hin; [destruct Hin|].
  destruct i as [|i]; cbn in Hi |- *.
  - inversion Hi; subst. destruct Hin as [->|Hin]; [left; reflexivity|].
    right. right. exact Hin.
  - destruct Hin as [->|Hin]; [right; left; reflexivity|].
    destruct (IH i w w0 Hi Hin) as [->|H]; [left; reflexivity|].
    right. right. exact H.
Qed.

Lemma In_moveTo_new {A : Type} (w' : A) ws i :
  In w' (firstn i ws ++ w' :: skipn (S i) ws).
Proof. apply in_or_app. right. left. reflexivity. Qed.

(** Worker [i] goes on, still in its loop. *)
Lemma moveTo_accounted i w w' d0 d f :
  nth_error (workers d0) i = Some w ->
  workers d = workers d0 ->
  at_ w' <> Exited ->
  (holds f w ->
   holds f w' \/ exists fm, In fm (matches d) /\ Path fm = store.Name f) ->
  incl (matches d0) (matches d) ->
  (In f (files d0) -> In f (files d) \/ holds f w') ->
  accounted d0 f -> accounted (moveTo i w' d) f.
Proof.
  intros Hi Hws Hrun Hhand Hms Hfs Hacc. unfold accounted, moveTo. cbn.
  rewrite Hws.
  destruct Hacc as [[Hin _]|[(w0 & Hw0 & Hh)|(fm & Hfm & Hp)]].
  - destruct (Hfs Hin) as [Hin'|Hh].
    + left. split; [exact Hin'|]. exists w'. split; [|exact Hrun].
      apply In_moveTo_new.
    + right. left. exists w'. split; [apply In_moveTo_new|exact Hh].
  - destruct (In_moveTo w' _ _ _ _ Hi Hw0) as [->|Hin].
    + destruct (Hhand Hh) as [Hh'|Hm].
      * right. left. exists w'. split; [apply In_moveTo_new|exact Hh'].
      * right. right. exact Hm.
    + right. left. exists w0. split; assumption.
  - right. right. exists fm. split; [apply Hms, Hfm|exact Hp].
Qed.

(** Worker [i] leaves its loop on an empty queue. *)
Lemma moveTo_accounted_exit i w w' d f :
  nth_error (workers d) i = Some w ->
  ~ holds f w -> files d = [] ->
  accounted d f -> accounted (moveTo i w' d) f.
Proof.
  intros Hi Hno Hfs Hacc. unfold accounted, moveTo. cbn.
  destruct Hacc as [[Hin _]|[(w0 & Hw0 & Hh)|Hm]].
  - rewrite Hfs in Hin. destruct Hin.
  - destruct (In_moveTo w' _ _ _ _ Hi Hw0) as [->|Hin]; [contradiction|].
    right. left. exists w0. split; assumption.
  - right. right. exact Hm.
Qed.

Lemma step_tracked rg zf limit pmp d e :
  driverOk L rg zf pmp d -> tracked L rg zf pmp d ->
  tracked L rg zf pmp (step L zf limit pmp d e).
Proof.
  intros Hok Ht.
  destruct e as [i| |]; cbn;
    [|intros Hc; cbn in Hc; destruct (ctxErr d); discriminate
     |intros Hc; cbn in Hc; destruct (ctxErr d); discriminate].
  unfold stepWorker.
  destruct (crashed d); [exact Ht|].
  destruct (nth_error (workers d) i) as [w|] eqn:Hi; [|exact Ht].
  destruct Hok as (_ & Hws & _).
  pose proof (Forall_nth_error _ _ _ _ Hws Hi) as [Hsame _].
  destruct (at_ w) as [| |f0|fm0|] eqn:Hpc.
  - case_eq (ctxErr d).
    + intros e He Hc. cbn in Hc. congruence.
    + intros He Hc f Hf Hwant.
      eapply moveTo_accounted; try exact Hi; try reflexivity.
      * discriminate.
      * unfold holds. rewrite Hpc. intros [].
      * apply incl_refl.
      * intros Hin. left. exact Hin.
      * apply Ht; assumption.
  - case_eq (files d).
    + intros Hfs Hc f Hf Hwant.
      eapply moveTo_accounted_exit; try exact Hi; try exact Hfs.
      * unfold holds. rewrite Hpc. intros [].
      * apply Ht; assumption.
    + intros f0 rest Hfs Hc f Hf Hwant.
      eapply moveTo_accounted; try exact Hi; try reflexivity.
      * discriminate.
      * unfold holds at 1. rewrite Hpc. intros [].
      * apply incl_refl.
      * rewrite Hfs. intros [->|Hin]; [right; reflexivity|left; exact Hin].
      * apply Ht; assumption.
  - destruct (negb (pathmatch.MatchPath (matchPath (wrg w)) (store.Name f0)))
      eqn:Hpath.
    + intros Hc f Hf Hwant.
      eapply moveTo_accounted; try exact Hi; try reflexivity.
      * discriminate.
      * unfold holds at 1. rewrite Hpc. intros ->.
        destruct Hwant as [Hmp _].
        destruct Hsame as (_ & _ & Hsmp & _). rewrite Hsmp in Hpath.
        rewrite Hmp in Hpath. discriminate.
      * apply incl_refl.
      * intros Hin. left. exact Hin.
      * apply Ht; assumption.
    + destruct (FindZip (wrg w) zf f0) as [[rg' [fm [err|]]]|] eqn:HF.
      * apply FindZip_err_nil in HF. discriminate.
      * intros Hc f Hf Hwant.
        destruct (FindZip_inv _ _ _ _ _ _ HF) as [Hrg' Hfm].
        eapply moveTo_accounted; try exact Hi; try reflexivity.
        -- cbn. destruct (if negb (len (LineMatches fm) >? 0) && pmp
                          then matchString L rg' (store.Name f0)
                          else len (LineMatches fm) >? 0); discriminate.
        -- unfold holds at 1. rewrite Hpc. intros ->. left.
           destruct Hwant as (_ & lm & lh & e & Hout & Hor).
           apply FindZip_FindOut in HF.
           pose proof (FindOut_unique _ _ _ _ _ _ Hsame HF Hout) as Heq.
           inversion Heq as [[Hlm Hlh He]].
           unfold holds. cbn [at_]. rewrite Hlm.
           assert (Hms : matchString L rg' (store.Name f)
                         = matchString L rg (store.Name f)).
           { apply matchString_sameMatcher.
             apply (sameMatcher_trans _ (wrg w)); assumption. }
           rewrite Hms.
           destruct lm as [|l lm].
           ++ destruct Hor as [Hne|[-> Hp]]; [contradiction|].
              cbn. rewrite Hp. cbn. reflexivity.
           ++ assert (Hpos : (len (l :: lm) >? 0) = true).
              { rewrite Z.gtb_ltb. apply Z.ltb_lt. unfold len.
                cbn [length]. lia. }
              rewrite Hpos. cbn. rewrite Hfm. reflexivity.
        -- apply incl_refl.
        -- intros Hin. left. exact Hin.
        -- apply Ht; assumption.
      * intros Hc. apply Ht. exact Hc.
  - destruct (len (matches d) <? limit).
    + intros Hc f Hf Hwant.
      eapply moveTo_accounted; try exact Hi; try reflexivity.
      * discriminate.
      * unfold holds at 1. rewrite Hpc. intros Hp. right.
        exists fm0. split; [|exact Hp]. cbn. apply in_or_app. right.
        left. reflexivity.
      * cbn. intros x Hx. apply in_or_app. left. exact Hx.
      * intros Hin. left. exact Hin.
      * apply Ht; assumption.
    + intros Hc. cbn in Hc. destruct (ctxErr d); discriminate.
  - exact Ht.
Qed.

Lemma step_quiet zf limit pmp d e :
  e <> ParentCancels -> quiet d -> quiet (step L zf limit pmp d e).
Proof.
  intros He Hq. destruct e as [i| |]; [| |contradiction].
  - cbn. unfold stepWorker.
    destruct (crashed d); [exact Hq|].
    destruct (nth_error (workers d) i) as [w|]; [|exact Hq].
    destruct (at_ w) as [| |f0|fm0|].
    + case (ctxErr d); intros; exact Hq.
    + case (files d); intros; exact Hq.
    + destruct (negb _); [exact Hq|].
      destruct (FindZip (wrg w) zf f0) as [[rg' [fm [err|]]]|];
        [|exact Hq|exact Hq].
      unfold quiet, latch, moveTo. cbn.
      case (wgErrOnce d); cbn; [exact Hq|].
      right. right. right. discriminate.
    + destruct (len (matches d) <? limit); [exact Hq|].
      right. right. left. reflexivity.
    + exact Hq.
  - unfold quiet in *. cbn.
    destruct Hq as [Hq|[Hq|Hq]]; try rewrite Hq; cbn; auto.
Qed.

Lemma start_tracked rg zf pmp : tracked L rg zf pmp (start rg zf).
Proof.
  intros _ f Hf _. left. split; [exact Hf|].
  exists {| wrg := Copy rg; at_ := AtPoll |}. split; [|discriminate].
  cbn. left. reflexivity.
Qed.

Lemma run_tracked rg zf limit pmp :
  forall sched d,
    ~ In ParentCancels sched ->
    driverOk L rg zf pmp d /\ tracked L rg zf pmp d /\ quiet d ->
    let d' := fold_left (step L zf limit pmp) sched d in
    driverOk L rg zf pmp d' /\ tracked L rg zf pmp d' /\ quiet d'.
Proof.
  induction sched as [|e sched IH]; intros d Hno (Hok & Ht & Hq).
  - cbn. auto.
  - cbn. apply IH.
    + intros Hin. apply Hno. right. exact Hin.
    + split; [apply step_driverOk; exact Hok|].
      split; [apply step_tracked; assumption|].
      apply step_quiet; [|exact Hq].
      intros ->. apply Hno. left. reflexivity.
Qed.

End Misses.

(** X16: without a limit, a deadline or a cancellation nothing is
    missed.  When the worker pool runs, the caller's context is not
    cancelled, and [concurrentFind] returns with [limitHit] unset and a
    nil error, then every file of the archive that passes the path filter
    and on which [Find] returns line matches (or, when paths are to
    match, whose path matches the regexp) has a [FileMatch] with its
    path in the result, under every interleaving. *)
Theorem concurrentFind_misses_nothing
    L sched rg zf fileMatchLimit pmc pmp fm f lm lh e :
  concurrentFind L sched rg zf fileMatchLimit pmc pmp
  = Some (fm, false, None) ->
  ~ In ParentCancels sched ->
  pmp = false \/ (pmc = true /\ re rg <> None) ->
  In f (store.Files zf) ->
  pathmatch.MatchPath (matchPath rg) (store.Name f) = true ->
  FindOut rg zf f = Some (lm, lh, e) ->
  lm <> [] \/ (pmp = true /\ matchString L rg (store.Name f) = true) ->
  exists m, In m fm /\ Path m = store.Name f.
Proof.
  intros H Hno Hbranch Hf Hpath Hout Hor. unfold concurrentFind in H.
  assert (Hcond : pmp && (negb (if negb pmc && negb pmp then true else pmc)
                          || isNil (re rg)) = false).
  { destruct Hbranch as [->|[-> Hre]]; [reflexivity|].
    destruct (re rg); [|contradiction]. cbn. apply andb_false_r. }
  rewrite Hcond in H.
  pose proof (run_tracked L rg zf (effectiveLimit fileMatchLimit) pmp sched
                (start rg zf) Hno) as Hrun.
  cbv zeta in Hrun.
  set (d := fold_left _ sched (start rg zf)) in *.
  destruct Hrun as (_ & Ht & Hq).
  { split; [apply start_driverOk|]. split; [apply start_tracked|].
    left. reflexivity. }
  destruct (crashed d); [discriminate|].
  destruct (forallb exited (workers d)) eqn:Hex; [|discriminate].
  inversion H as [[Hm Hlh Herr]].
  assert (Hctx : ctxErr d = None).
  { destruct Hq as [Hq|[Hq|[Hq|Hq]]].
    - exact Hq.
    - rewrite Hq in Herr. destruct (wgErr d); discriminate.
    - congruence.
    - destruct (wgErr d); [discriminate|contradiction]. }
  assert (Hwant : wanted L rg zf pmp f).
  { split; [exact Hpath|]. exists lm, lh, e. split; assumption. }
  rewrite forallb_forall in Hex.
  destruct (Ht Hctx f Hf Hwant)
    as [[_ (w & Hw & Hrun)]|[(w & Hw & Hh)|Hm']].
  - specialize (Hex w Hw). unfold exited in Hex.
    destruct (at_ w); try discriminate. contradiction.
  - specialize (Hex w Hw). unfold exited in Hex. unfold holds in Hh.
    destruct (at_ w); try discriminate. contradiction.
  - exact Hm'.
Qed.

Lemma concurrentFind_misses_nothing_witness :
  concurrentFind plainLib (soloSchedule 14)
    (grepLiteral (bytes_of "foo") false) threeFiles 0 true false
  = Some (threeFound, false, None)
  /\ exists m, In m threeFound /\ Path m = "b"%string.
Proof.
  assert (H : concurrentFind plainLib (soloSchedule 14)
                (grepLiteral (bytes_of "foo") false) threeFiles 0 true false
              = Some (threeFound, false, None))
    by (vm_compute; reflexivity).
  split; [exact H|].
  apply (concurrentFind_misses_nothing plainLib (soloSchedule 14)
           (grepLiteral (bytes_of "foo") false) threeFiles 0 true false
           threeFound (file "b" (bytes_of "a foo" ++ [nl]))
           [lineMatch (bytes_of "a foo") 0 2 3 false] false None H).
  - vm_compute. intros Hin.
    repeat (destruct Hin as [Hin|Hin]; [discriminate|]). exact Hin.
  - left. reflexivity.
  - right. left. reflexivity.
  - reflexivity.
  - vm_compute. reflexivity.
  - left. discriminate.
Defined.

(** ** A context that is done before the workers start *)

Section DoneAtStart.

Variable L : GoLib.

Lemma step_idle zf limit pmp e0 d e :
  idle e0 d -> idle e0 (step L zf limit pmp d e).
Proof.
  intros (Hc & Hm & Hl & Hw & Hcr & Hws).
  destruct e as [i| |]; cbn.
  - unfold stepWorker. rewrite Hcr.
    destruct (nth_error (workers d) i) as [w|] eqn:Hi;
      [|repeat split; assumption].
    pose proof (Forall_nth_error _ _ _ _ Hws Hi) as [Hat|Hat]; rewrite Hat.
    + rewrite Hc. unfold idle, moveTo. cbn.
      repeat split; try assumption.
      apply Forall_moveTo; [exact Hws|]. right. reflexivity.
    + repeat split; assumption.
  - unfold idle. cbn. rewrite Hc. repeat split; assumption.
  - unfold idle. cbn. rewrite Hc. repeat split; assumption.
Qed.

Lemma start_idle rg zf limit pmp e0 :
  e0 = ParentCancels \/ e0 = DeadlineFires ->
  idle (doneWith e0) (step L zf limit pmp (start rg zf) e0).
Proof.
  intros [->| ->]; unfold idle; cbn; repeat split;
    repeat constructor.
Qed.

End DoneAtStart.

(** X17: a context that is done before any worker runs.  When the
    caller's context is cancelled, or the deadline fires, before the first
    step of a worker, [concurrentFind] returns no match and [limitHit]
    unset, whatever the archive holds; the error is
    [context.DeadlineExceeded] for the deadline and nil for the caller's
    cancellation. *)
Theorem concurrentFind_done_at_start
    L e0 sched rg zf fileMatchLimit pmc pmp r :
  e0 = ParentCancels \/ e0 = DeadlineFires ->
  pmp = false \/ (pmc = true /\ re rg <> None) ->
  concurrentFind L (e0 :: sched) rg zf fileMatchLimit pmc pmp = Some r ->
  r = ([], false, reportedErr e0).
Proof.
  intros He Hbranch H. unfold concurrentFind in H.
  assert (Hcond : pmp && (negb (if negb pmc && negb pmp then true else pmc)
                          || isNil (re rg)) = false).
  { destruct Hbranch as [->|[-> Hre]]; [reflexivity|].
    destruct (re rg); [|contradiction]. cbn. apply andb_false_r. }
  rewrite Hcond in H. cbn [fold_left] in H.
  pose proof (fold_step_invariant L (idle (doneWith e0)) zf
                (effectiveLimit fileMatchLimit) pmp
                (fun d e => step_idle L zf _ pmp (doneWith e0) d e) sched _
                (start_idle L rg zf (effectiveLimit fileMatchLimit) pmp e0
                   He))
    as (Hc & Hm & Hl & Hw & Hcr & _).
  set (d := fold_left _ sched _) in *.
  rewrite Hcr in H. destruct (forallb exited (workers d)); [|discriminate].
  rewrite Hm, Hl, Hw, Hc in H. inversion H; subst.
  destruct He as [->| ->]; reflexivity.
Qed.

Lemma concurrentFind_done_at_start_witness :
  concurrentFind plainLib (ParentCancels :: map Run (seq 0 numWorkers))
    (grepLiteral (bytes_of "foo") false) threeFiles 0 true false
  = Some ([], false, None)
  /\ (@nil FileMatch, false, @None error)
     = ([], false, reportedErr ParentCancels).
Proof.
  assert (H : concurrentFind plainLib
                (ParentCancels :: map Run (seq 0 numWorkers))
                (grepLiteral (bytes_of "foo") false) threeFiles 0 true false
              = Some ([], false, None))
    by (vm_compute; reflexivity).
  split; [exact H|].
  apply (concurrentFind_done_at_start plainLib ParentCancels
           (map Run (seq 0 numWorkers))
           (grepLiteral (bytes_of "foo") false) threeFiles 0 true false).
  - left. reflexivity.
  - left. reflexivity.
  - exact H.
Defined.

(** ** [compile] *)

(** X18: [compile] returns a matcher or an error, never both and never
    neither.  The matcher ignores case exactly when the pattern is not
    case sensitive, starts without a scratch buffer, has a nil regexp
    exactly for the empty pattern, and carries a pre-filter literal only
    when the compiled regexp has no literal prefix of its own. *)
Theorem compile_result L p rgo err :
  compile L p = Some (rgo, err) ->
  match rgo, err with
  | Some rg, None =>
      ignoreCase rg = negb (IsCaseSensitive p)
      /\ transformBuf rg = None
      /\ (re rg = None <-> Pattern p = EmptyString)
      /\ (literalSubstring rg <> [] ->
          exists r, re rg = Some r /\ regexp.LiteralPrefix r = [])
  | None, Some _ => True
  | _, _ => False
  end.
Proof.
  unfold compile.
  set (path := pathmatch_CompilePathPatterns L _ _ _ _).
  destruct (Pattern p) as [|c s] eqn:Hp; cbn [isEmpty negb].
  - cbn. destruct path as [mp|e]; intros H; inversion H; subst; cbn.
    + repeat split; try reflexivity. intros Hne. contradiction.
    + exact I.
  - destruct (sourceExpr L p) as [[expr|e]|]; cbn; [| |discriminate].
    + destruct (regexp_Compile L expr) as [r|e]; cbn.
      * destruct (regexp.LiteralPrefix r) as [|b pre] eqn:Hpre.
        -- destruct (syntax_Parse L expr) as [ast|e]; cbn.
           ++ destruct (longestLiteral (syntax_Simplify L ast)) as [lit|];
                cbn; [|discriminate].
              destruct path as [mp|e]; intros H; inversion H; subst; cbn;
                [|exact I].
              repeat split; try reflexivity; try discriminate.
              intros _. exists r. split; [reflexivity|exact Hpre].
           ++ intros H; inversion H; subst. exact I.
        -- cbn. destruct path as [mp|e]; intros H; inversion H; subst; cbn;
             [|exact I].
           repeat split; try reflexivity; try discriminate.
           intros Hne. contradiction.
      * intros H; inversion H; subst. exact I.
    + intros H; inversion H; subst. exact I.
Qed.

Lemma compile_result_witness :
  compile fooLib fooPattern = Some (Some fooGrep, None)
  /\ ignoreCase fooGrep = negb (IsCaseSensitive fooPattern)
  /\ transformBuf fooGrep = None
  /\ (re fooGrep = None <-> Pattern fooPattern = EmptyString)
  /\ (literalSubstring fooGrep <> [] ->
      exists r, re fooGrep = Some r /\ regexp.LiteralPrefix r = []).
Proof.
  assert (H : compile fooLib fooPattern = Some (Some fooGrep, None))
    by (vm_compute; reflexivity).
  split; [exact H|].
  exact (compile_result fooLib fooPattern (Some fooGrep) None H).
Defined.

(** ** Columns *)

Lemma emitLines_later buf lineStart lineEnd start end_ offset hit nlines :
  forall lines i lineNum out,
    0 < i ->
    emitLines buf lineStart lineEnd start end_ offset hit nlines i lineNum
      lines = Some out ->
    Forall (fun m => exists l, OffsetAndLengths m = [(0, l)]) out.
Proof.
  induction lines as [|line rest IH]; simpl; intros i lineNum out Hi H.
  - inversion H. constructor.
  - assert (Hi0 : (i =? 0) = false) by (apply Z.eqb_neq; lia).
    rewrite Hi0 in H.
    destruct (if i =? nlines - 1 then _ else _) as [le|]; [|discriminate].
    cbn in H.
    destruct (slice buf lineStart lineEnd) as [pv|]; [|discriminate].
    cbn in H.
    destruct (emitLines _ _ _ _ _ _ _ _ (i + 1) (lineNum + 1) rest)
      as [tl|] eqn:Ht; [|discriminate].
    inversion H; subst. constructor.
    + eexists. reflexivity.
    + apply (IH (i + 1) (lineNum + 1)); [lia|exact Ht].
Qed.

Lemma emitLines_first buf lineStart lineEnd start end_ offset hit nlines
    lineNum line rest out :
  emitLines buf lineStart lineEnd start end_ offset hit nlines 0 lineNum
    (line :: rest) = Some out ->
  exists m tl le,
    out = m :: tl
    /\ OffsetAndLengths m = [(offset, le)]
    /\ emitLines buf lineStart lineEnd start end_ offset hit nlines (0 + 1)
         (lineNum + 1) rest = Some tl.
Proof.
  simpl. intros H.
  destruct (slice buf 0 (lineStart + len line + 1)) as [pfx|];
    [|discriminate].
  cbn in H.
  destruct (slice buf lineStart lineEnd) as [pv|]; [|discriminate].
  cbn in H.
  destruct (emitLines _ _ _ _ _ _ _ _ 1 (lineNum + 1) rest)
    as [tl|] eqn:Ht; [|discriminate].
  inversion H; subst. eexists. exists tl. eexists.
  split; [reflexivity|]. split; [reflexivity|reflexivity].
Qed.

Lemma LastIndex_zero t :
  bytes.LastIndex t [nl] = 0 -> bytes.HasPrefix t [nl] = true.
Proof.
  destruct t as [|c t]; [discriminate|].
  change (c :: t) with ([c] ++ t). rewrite LastIndex_app.
  pose proof (LastIndex_nl t) as (Hlo & _ & _).
  destruct (Z.ltb_spec (bytes.LastIndex t [nl]) 0).
  - cbn. destruct (Byte.eqb c nl); [reflexivity|discriminate].
  - unfold len. cbn [length]. lia.
Qed.

Lemma HasPrefix_firstn buf n :
  bytes.HasPrefix (firstn n buf) [nl] = true ->
  bytes.HasPrefix buf [nl] = true.
Proof.
  destruct n as [|n]; [discriminate|].
  destruct buf as [|c buf]; [discriminate|]. cbn. tauto.
Qed.

Lemma scanMatch_columns buf hit c s e c' out :
  bytes.HasPrefix buf [nl] = false ->
  lineStartOk buf c s ->
  scanMatch buf hit c (s, e) = Some (c', out) ->
  columns buf (s, e) out.
Proof.
  intros Hhead Hok H. apply scanMatch_inv in H.
  destruct H as (pre & post & oseg & lseg & seg & mb & Hpre & _ & H).
  cbv zeta in H. destruct H as (Hoseg & Hlseg & _ & _ & _ & _ & Hout).
  apply slice_spec in Hpre. destruct Hpre as (Hp0 & Hp1 & Hp2 & Hpre).
  pose proof (len_nonneg buf) as Hlen.
  unfold lineStartOk in Hok. specialize (Hok Hp2).
  set (L := lastLineStartIndex c) in *.
  assert (HlenL : len (firstn (Z.to_nat L) buf) = L).
  { unfold len. rewrite length_firstn. unfold len in *. lia. }
  pose proof (LastIndex_nl pre) as (Hk & _ & _).
  assert (HP : L + bytes.LastIndex pre [nl]
               = bytes.LastIndex (firstn (Z.to_nat s) buf) [nl]).
  { rewrite (firstn_split buf L s) by lia. rewrite <- Hpre.
    rewrite LastIndex_app, Hok, HlenL.
    destruct (Z.ltb_spec (bytes.LastIndex pre [nl]) 0); lia. }
  assert (Hnz : bytes.LastIndex (firstn (Z.to_nat s) buf) [nl] <> 0).
  { intros Hz. apply LastIndex_zero, HasPrefix_firstn in Hz. congruence. }
  assert (Hllsi : (if L + bytes.LastIndex pre [nl] >? 0
                   then L + bytes.LastIndex pre [nl] + 1 else L)
                  = lineStartOf buf s).
  { unfold lineStartOf. rewrite <- HP. rewrite Z.gtb_ltb.
    destruct (Z.ltb_spec 0 (L + bytes.LastIndex pre [nl])); lia. }
  rewrite Hllsi in Hoseg.
  unfold columns. cbn [fst snd].
  destruct (len (bytes.SplitN mb [nl] (maxLineMatches + 1)) >? 1) eqn:Hn.
  - pose proof (emitLines_numbers _ _ _ _ _ _ _ _ _ _ _ _ Hout)
      as [Hlen' _].
    destruct (bytes.SplitN mb [nl] (maxLineMatches + 1)) as [|l1 lines];
      [discriminate|].
    destruct lines as [|l2 lines]; [discriminate|].
    apply emitLines_first in Hout.
    destruct Hout as (m & tl & le & -> & Hm & Ht).
    exists m, tl. eexists. exists le.
    split; [reflexivity|]. split; [exact Hm|].
    split; [rewrite Hoseg; reflexivity|].
    split.
    + intros ->. cbn in Hlen'. discriminate.
    + eapply emitLines_later; [|exact Ht]. lia.
  - subst out. eexists. exists []. eexists. eexists.
    split; [reflexivity|]. split; [reflexivity|].
    split; [rewrite Hoseg; reflexivity|].
    split; [|constructor].
    intros _. rewrite Hlseg. reflexivity.
Qed.

(** X19: columns are counted in runes from the start of the line.  In a
    buffer that does not begin with a newline, the first line match of
    each collected location has as offset the number of runes between the
    start of the location's line and the location; when the location has
    one line match only, its length is the number of runes of the
    location; the further line matches of a location that spans lines
    have offset 0.  Every line match carries exactly one pair.  (The
    regexp engine yields locations with increasing start offsets.) *)
Theorem Find_columns_in_runes rg zf f rg' ms lh err :
  Find rg zf f = Some (rg', (ms, lh, err)) ->
  increasingStarts (collected rg f) = true ->
  bytes.HasPrefix (fileMatchBuf rg f) [nl] = false ->
  ms = [] \/
  exists groups,
    ms = concat groups /\
    Forall2 (columns (fileMatchBuf rg f)) (collected rg f) groups.
Proof.
  intros H Hinc Hhead. apply Find_cases in H.
  destruct H as [_ [[-> _]|(r & Hr & _ & H)]]; [left; reflexivity|].
  cbv zeta in H. destruct (len (collected rg f) >? 0); [|left; exact H].
  right.
  apply (scanLocs_groups _ _ (lineStartOk (fileMatchBuf rg f))
           (columns (fileMatchBuf rg f))) in H.
  - exact H.
  - intros c s e c' out Hok Hm. split.
    + apply (scanMatch_columns _ _ _ _ _ _ _ Hhead Hok Hm).
    + apply (scanMatch_previewed _ _ _ _ _ _ _ Hok Hm).
  - exact Hinc.
  - intros s e rest _ _. reflexivity.
Qed.

Lemma Find_columns_in_runes_witness :
  increasingStarts (collected (grepLiteral (bytes_of "foo") false)
                      (file "a.txt" twoLines)) = true
  /\ bytes.HasPrefix twoLines [nl] = false
  /\ exists groups,
       [lineMatch (bytes_of "foo bar") 0 0 3 false;
        lineMatch (bytes_of "baz foo") 1 4 3 false] = concat groups
       /\ Forall2 (columns twoLines) [(0, 3); (12, 15)] groups.
Proof.
  split; [reflexivity|]. split; [reflexivity|].
  destruct (Find_columns_in_runes
              (grepLiteral (bytes_of "foo") false)
              (oneFile "a.txt" twoLines) (file "a.txt" twoLines)
              (grepLiteral (bytes_of "foo") false)
              [lineMatch (bytes_of "foo bar") 0 0 3 false;
               lineMatch (bytes_of "baz foo") 1 4 3 false]
              false None eq_refl eq_refl eq_refl) as [H|H].
  - discriminate H.
  - exact H.
Defined.

Lemma scanLocs_prefix buf hit :
  forall locs c acc ms,
    scanLocs buf hit c acc locs = Some ms -> exists tail, ms = acc ++ tail.
Proof.
  induction locs as [|m rest IH]; intros c acc ms H; cbn [scanLocs] in H.
  - inversion H; subst. exists []. rewrite app_nil_r. reflexivity.
  - destruct (scanMatch buf hit c m) as [[c' out]|]; [|discriminate].
    apply IH in H. destruct H as [tail ->]. exists (out ++ tail).
    rewrite app_assoc. reflexivity.
Qed.

Lemma RuneCount_nl t : utf8.RuneCount (nl :: t) = 1 + utf8.RuneCount t.
Proof. reflexivity. Qed.

(** X20: a leading empty line shifts the column.  When the only newline
    before the first collected location is the first byte of the buffer,
    the first line match that [Find] returns has as offset the column of
    the location in runes plus one: the newline at offset 0 is counted. *)
Theorem Find_column_after_leading_newline
    rg zf f rg' ms lh err s e locs :
  Find rg zf f = Some (rg', (ms, lh, err)) ->
  collected rg f = (s, e) :: locs ->
  bytes.LastIndex (firstn (Z.to_nat s) (fileMatchBuf rg f)) [nl] = 0 ->
  ms = [] \/
  exists m rest col l,
    ms = m :: rest
    /\ option_map utf8.RuneCount
         (slice (fileMatchBuf rg f) (lineStartOf (fileMatchBuf rg f) s) s)
       = Some col
    /\ OffsetAndLengths m = [(col + 1, l)].
Proof.
  intros H Hlocs Hzero. apply Find_cases in H.
  destruct H as [_ [[-> _]|(r & Hr & _ & H)]]; [left; reflexivity|].
  cbv zeta in H. rewrite Hlocs in H.
  set (buf := fileMatchBuf rg f) in *.
  destruct (len ((s, e) :: locs) >? 0); [|left; exact H].
  right. cbn [scanLocs] in H.
  destruct (scanMatch buf _ cursor0 (s, e)) as [[c' out]|] eqn:Hm;
    [|discriminate].
  apply scanLocs_prefix in H. destruct H as [tail ->]. cbn [app].
  apply scanMatch_inv in Hm.
  destruct Hm as (pre & post & oseg & lseg & seg & mb & Hpre & _ & Hm).
  cbv zeta in Hm. destruct Hm as (Hoseg & _ & _ & _ & _ & _ & Hout).
  cbn [lastLineStartIndex cursor0] in Hpre, Hoseg.
  apply slice_spec in Hpre. destruct Hpre as (_ & Hs0 & Hs1 & Hpre).
  rewrite Z.sub_0_r in Hpre. cbn [Z.to_nat skipn] in Hpre. subst pre.
  rewrite Hzero in Hoseg. cbn in Hoseg.
  apply slice_spec in Hoseg. destruct Hoseg as (_ & _ & _ & Hoseg).
  rewrite Z.sub_0_r in Hoseg. cbn [Z.to_nat skipn] in Hoseg.
  pose proof (LastIndex_nl (firstn (Z.to_nat s) buf)) as (_ & Hlt & _).
  rewrite Hzero in Hlt.
  assert (Hs : 1 <= s).
  { unfold len in Hlt. rewrite length_firstn in Hlt. lia. }
  pose proof (HasPrefix_firstn _ _ (LastIndex_zero _ Hzero)) as Hhead.
  destruct buf as [|b t] eqn:Hbuf; [discriminate|].
  cbn in Hhead. apply andb_true_iff in Hhead. destruct Hhead as [Hb _].
  apply Byte.byte_dec_bl in Hb. subst b.
  assert (Hcol : slice (nl :: t) (lineStartOf (nl :: t) s) s
                 = Some (firstn (Z.to_nat (s - 1)) t)).
  { unfold lineStartOf. rewrite Hzero. unfold slice.
    rewrite (proj2 (Z.leb_le 0 (0 + 1))) by lia.
    rewrite (proj2 (Z.leb_le (0 + 1) s)) by lia.
    rewrite (proj2 (Z.leb_le s (len (nl :: t)))) by exact Hs1.
    cbn [andb]. reflexivity. }
  assert (Hcount : utf8.RuneCount oseg
                   = utf8.RuneCount (firstn (Z.to_nat (s - 1)) t) + 1).
  { subst oseg.
    replace (Z.to_nat s) with (S (Z.to_nat (s - 1))) by lia.
    cbn [firstn]. rewrite RuneCount_nl. lia. }
  rewrite Hcol. cbn [option_map].
  destruct (len (bytes.SplitN mb [nl] (maxLineMatches + 1)) >? 1) eqn:Hn.
  - destruct (bytes.SplitN mb [nl] (maxLineMatches + 1)) as [|l1 lines];
      [discriminate|].
    apply emitLines_first in Hout.
    destruct Hout as (m & tl & le & -> & Hoff & _).
    exists m, (tl ++ tail). eexists. exists le.
    split; [reflexivity|]. split; [reflexivity|].
    rewrite Hoff, Hcount. reflexivity.
  - subst out. eexists. exists tail. eexists. eexists.
    split; [reflexivity|]. split; [reflexivity|].
    cbn. rewrite Hcount. reflexivity.
Qed.

Lemma Find_column_after_leading_newline_witness :
  collected (grepLiteral (bytes_of "foo") false)
    (file "a.txt" leadingNewline) = [(1, 4)]
  /\ bytes.LastIndex (firstn (Z.to_nat 1) leadingNewline) [nl] = 0
  /\ exists m rest col l,
       [lineMatch (bytes_of "foo") 1 1 3 false] = m :: rest
       /\ option_map utf8.RuneCount
            (slice leadingNewline (lineStartOf leadingNewline 1) 1)
          = Some col
       /\ OffsetAndLengths m = [(col + 1, l)].
Proof.
  split; [reflexivity|]. split; [reflexivity|].
  destruct (Find_column_after_leading_newline
              (grepLiteral (bytes_of "foo") false)
              (oneFile "a.txt" leadingNewline) (file "a.txt" leadingNewline)
              (grepLiteral (bytes_of "foo") false)
              [lineMatch (bytes_of "foo") 1 1 3 false]
              false None 1 4 [] eq_refl eq_refl eq_refl) as [H|H].
  - discriminate H.
  - exact H.
Defined.

(** * The helpers of [BlobLine.tsx] *)

Lemma startsWith_app p : forall s, js.startsWith (p ++ s) p = true.
Proof.
  induction p as [|c p IH]; intros s; [reflexivity|].
  cbn. rewrite Z.eqb_refl, IH. reflexivity.
Qed.

Lemma startsWith_app_cancel a :
  forall s p, js.startsWith (a ++ s) (a ++ p) = js.startsWith s p.
Proof.
  induction a as [|c a IH]; intros s p; [reflexivity|].
  cbn. rewrite Z.eqb_refl, IH. reflexivity.
Qed.

Lemma startsWith_split p :
  forall s, js.startsWith s p = true -> s = p ++ js.sliceFrom s (length p).
Proof.
  induction p as [|c p IH]; intros s H; [reflexivity|].
  destruct s as [|d s]; [discriminate|]. cbn in H.
  apply andb_true_iff in H. destruct H as [Hc Hp].
  apply Z.eqb_eq in Hc. subst d. cbn. f_equal. apply IH, Hp.
Qed.

(** X21: [fastInsertRevIntoDefURL] puts the revision after the repo.  For
    a revision that is not empty, the URL [/repo/-/rest] becomes
    [/repo@rev/-/rest], whatever [rest] is. *)
Theorem fastInsertRevIntoDefURL_inserts repo rev rest :
  rev <> [] ->
  fastInsertRevIntoDefURL (js.lit "/" ++ repo ++ js.lit "/-/" ++ rest)
    repo rev
  = js.lit "/" ++ repo ++ js.lit "@" ++ rev ++ js.lit "/-/" ++ rest.
Proof.
  intros Hrev. unfold fastInsertRevIntoDefURL.
  destruct rev as [|r rev]; [contradiction|].
  set (prefix := js.lit "/" ++ repo ++ js.lit "/-/").
  assert (Hurl : js.lit "/" ++ repo ++ js.lit "/-/" ++ rest = prefix ++ rest).
  { unfold prefix. rewrite <- !app_assoc. reflexivity. }
  rewrite Hurl. cbv zeta. fold prefix.
  rewrite startsWith_app. unfold js.sliceFrom.
  rewrite skipn_app, skipn_all, Nat.sub_diag. cbn [skipn app].
  rewrite <- !app_assoc, <- app_comm_cons, <- !app_assoc. reflexivity.
Qed.

Lemma fastInsertRevIntoDefURL_inserts_witness :
  fastInsertRevIntoDefURL (js.lit "/r/-/def/x") (js.lit "r") (js.lit "v1")
  = js.lit "/r@v1/-/def/x".
Proof.
  apply (fastInsertRevIntoDefURL_inserts (js.lit "r") (js.lit "v1")
           (js.lit "def/x")).
  discriminate.
Defined.

Lemma revised_not_prefixed repo rev rest :
  js.startsWith
    (js.lit "/" ++ repo ++ js.lit "@" ++ rev ++ js.lit "/-/" ++ rest)
    (js.lit "/" ++ repo ++ js.lit "/-/") = false.
Proof. rewrite !startsWith_app_cancel. reflexivity. Qed.

(** X22: inserting the revision twice is inserting it once.  A URL that
    [fastInsertRevIntoDefURL] returns is left as it is by a second call
    with the same repo and revision. *)
Theorem fastInsertRevIntoDefURL_idempotent urlNoRev repo rev :
  fastInsertRevIntoDefURL (fastInsertRevIntoDefURL urlNoRev repo rev)
    repo rev
  = fastInsertRevIntoDefURL urlNoRev repo rev.
Proof.
  destruct rev as [|r rev]; [reflexivity|].
  assert (Hfix : forall u,
             js.startsWith u (js.lit "/" ++ repo ++ js.lit "/-/") = false ->
             fastInsertRevIntoDefURL u repo (r :: rev) = u).
  { intros u Hu. unfold fastInsertRevIntoDefURL. cbv zeta.
    rewrite Hu. reflexivity. }
  destruct (js.startsWith urlNoRev (js.lit "/" ++ repo ++ js.lit "/-/"))
    eqn:Hp.
  - assert (Hout : fastInsertRevIntoDefURL urlNoRev repo (r :: rev)
                   = js.lit "/" ++ repo ++ js.lit "@" ++ (r :: rev)
                     ++ js.lit "/-/"
                     ++ js.sliceFrom urlNoRev
                          (length (js.lit "/" ++ repo ++ js.lit "/-/"))).
    { unfold fastInsertRevIntoDefURL. cbv zeta. rewrite Hp.
      rewrite <- !app_assoc. reflexivity. }
    rewrite Hout. apply Hfix. apply revised_not_prefixed.
  - rewrite (Hfix _ Hp). apply Hfix, Hp.
Qed.

(** X23: [simpleContentsString] joins an array of strings.  An array
    whose elements are all strings becomes one string: their code units,
    in order. *)
Theorem simpleContentsString_joins strs :
  simpleContentsString (js.VArray (map js.VString strs))
  = js.VString (concat strs).
Proof.
  assert (Hall : existsb (fun e => negb (js.isString e))
                   (map js.VString strs) = false).
  { induction strs as [|s strs IH]; [reflexivity|]. cbn. exact IH. }
  assert (Hjoin : js.join (map js.VString strs) = concat strs).
  { unfold js.join. induction strs as [|s strs IH]; [reflexivity|].
    cbn. f_equal. apply IH. cbn in Hall. exact Hall. }
  unfold simpleContentsString. rewrite Hall, Hjoin. reflexivity.
Qed.
